(** * invidtui: the media-player control layer

    A shallow embedding of the [mediaplayer] package (the [MPV] type, its
    track monitor, the playlist loader and the event listener), of the
    progress line, the renewal callback and the status of the player bar
    of [ui/player], and of the table helper of [app], together with the
    properties the specification states about them and further properties
    read off the code.

    Conventions.
    - Go's [int] and [int64] are 64-bit two's-complement integers, held in
      [Z] with the wrap-around of every arithmetic operation written out.
    - A method of [*MPV] is a computation over a [World]: the receiver's
      fields, the package-level [Events] channels and a ghost [trace] of the
      requests the code issues.
    - A computation returns, panics (a Go run-time panic) or blocks (parks
      on a channel operation that cannot proceed).
    - A Go function value passed as a callback is a computation over the
      same [World]: what it does there is part of the run of its caller. *)

From Stdlib Require Import ZArith Lia Ascii String.
From stdpp Require Import base option list strings gmap pretty.

Set Warnings "-register-all".

Local Open Scope string_scope.
Local Open Scope list_scope.
Local Open Scope Z_scope.

(** ** Go integers *)

Module GoInt.

Definition min_int : Z := - 2 ^ 63.
Definition max_int : Z := 2 ^ 63 - 1.

(** Reduction of a mathematical integer to its 64-bit representative. *)
Definition wrap (z : Z) : Z := (z + 2 ^ 63) `mod` 2 ^ 64 - 2 ^ 63.

Definition add (a b : Z) : Z := wrap (a + b).
Definition sub (a b : Z) : Z := wrap (a - b).
Definition mul (a b : Z) : Z := wrap (a * b).

(** Go's [/] truncates toward zero; the divisor is non-zero at every use
    in the source. *)
Definition quot (a b : Z) : Z := wrap (a ÷ b).

Definition in_range (z : Z) : Prop := min_int <= z <= max_int.

End GoInt.

(** ** Strings *)

(** [strconv.Itoa] and [strconv.FormatInt(_, 10)]. *)
Definition Itoa (z : Z) : string := pretty z.

(** [len(s)]: the number of bytes. *)
Definition len (s : string) : Z := Z.of_nat (String.length s).

(** [strings.HasPrefix]. *)
Definition HasPrefix (s p : string) : bool := String.prefix p s.

(** [strings.Contains]. *)
Fixpoint Contains (s sub : string) : bool :=
  String.prefix sub s ||
  match s with
  | EmptyString => false
  | String _ rest => Contains rest sub
  end.

(** [strings.Repeat]: panics on a negative count, which is [None] here. *)
Definition Repeat (s : string) (count : Z) : option string :=
  if count <? 0 then None
  else Some (String.concat "" (replicate (Z.to_nat count) s)).

(** [strconv.ParseInt(s, 10, 64)]: an optional sign and at least one
    decimal digit; [None] when the source gets a non-nil error (bad syntax
    or a value out of the range of [int64]). *)
Definition digit (a : ascii) : option Z :=
  let n := Z.of_nat (nat_of_ascii a) in
  if (48 <=? n) && (n <=? 57) then Some (n - 48) else None.

Fixpoint digits (s : string) (acc : Z) : option Z :=
  match s with
  | EmptyString => Some acc
  | String a rest =>
      match digit a with
      | Some d => digits rest (10 * acc + d)
      | None => None
      end
  end.

Definition ParseInt (s : string) : option Z :=
  let '(neg, body) :=
    match s with
    | String "+"%char rest => (false, rest)
    | String "-"%char rest => (true, rest)
    | _ => (false, s)
    end in
  match body with
  | EmptyString => None
  | _ =>
      match digits body 0 with
      | Some n =>
          let v := if neg then - n else n in
          if (GoInt.min_int <=? v) && (v <=? GoInt.max_int) then Some v else None
      | None => None
      end
  end.

(** ** Values of the control protocol *)

(** What the transport decodes from, or encodes into, a message: Go's
    [interface{}].  A [float64] is held by the integer the source converts
    it to ([int(v.(float64))], [int64(v.(float64))]), the only use the
    source makes of one. *)
Inductive Value :=
| VNil
| VBool (b : bool)
| VString (s : string)
| VFloat (z : Z)
| VInt (z : Z)
| VList (l : list Value)
| VMap (m : list (string * Value)).

Inductive error :=
| EOF
| Err (msg : string).

Global Instance error_eq_dec : EqDecision error.
Proof. solve_decision. Defined.

(** A reply of the transport: Go's [(interface{}, error)]. *)
Definition Reply : Type := Value * option error.

(** [v == s] for an [interface{}] and a string constant. *)
Definition value_is (v : Value) (s : string) : bool :=
  match v with
  | VString t => bool_decide (t = s)
  | _ => false
  end.

(** ** Channels *)

(** A Go channel in a sequential world: its capacity and the values sent
    but not yet received, oldest first.  The capacities are fixed where the
    [Events] value is built, outside the files modelled here, so they are
    part of the state and every statement holds for all of them.  An
    unbuffered channel with a receiver parked on it behaves as an empty
    channel of capacity 1. *)
Record chan (A : Type) := Chan { cap : nat; buf : list A }.
Arguments Chan {A} _ _.
Arguments cap {A} _.
Arguments buf {A} _.

Module Channel.

Definition has_room {A} (c : chan A) : bool :=
  bool_decide (length (buf c) < cap c)%nat.

Definition push {A} (v : A) (c : chan A) : chan A :=
  Chan (cap c) (buf c ++ [v]).

(** [select { case c <- v: default: }]. *)
Definition try_send {A} (v : A) (c : chan A) : chan A :=
  if has_room c then push v c else c.

(** [<-c]: the oldest value and the rest, if any value is waiting. *)
Definition pop {A} (c : chan A) : option (A * chan A) :=
  match buf c with
  | [] => None
  | v :: rest => Some (v, Chan (cap c) rest)
  end.

End Channel.

(** ** The world outside the package *)

(** The connection type of the transport library ([mpvipc.Connection]):
    whether it is closed, and what a command, a property read and a
    property write answer and do to it. *)
Class Transport (C : Type) := {
  IsClosed : C -> bool;
  ConnCall : list Value -> C -> Reply * C;
  ConnGet : string -> C -> Reply * C;
  ConnSet : string -> Value -> C -> option error * C;
}.

(** The helpers of [net/url], of the [utils] package and of the part of
    [mediaplayer] that are used here but defined elsewhere.  [GetHostname]
    is [utils.GetHostname(client.Instance())], [SetHost u h] is the URL
    after [u.Host = h], and [IsValidURL] is [Some] when the error returned
    is nil. *)
Class Externals := {
  URL : Type;
  Values : Type;
  IsValidURL : string -> option URL;
  GetHostname : string;
  SetHost : URL -> string -> URL;
  URLString : URL -> string;
  Query : URL -> Values;
  ValuesGet : Values -> string -> string;
  QueryEscape : string -> string;
  replaceOptions : string -> string;
  GetDataFromURL : string -> option Values;
  FormatDuration : Z -> string;
}.

(** What [bufio.Scanner] with [bufio.ScanLines] makes of an opened file:
    the lines [Scan] yields, then the value of [Err]. *)
Record File := { lines : list string; scanErr : option error }.

(** One entry of the playlist the player reports; [None] is a nil map. *)
Definition PlaylistData : Type := list (option (list (string * Value))).

(** The package-level [Events] value. *)
Record EventHandler := {
  FileNumber : chan Z;
  ErrorNumber : chan Z;
  ErrorEvent : chan string;
  FileLoadedEvent : chan unit;
  DataEvent : chan PlaylistData;
}.

(** What the code asks of its surroundings, in the order it asks: a command,
    a property read and a property write with what the transport answered,
    a title handed to the track monitor, a call of the renewal callback with
    its verdict, an error shown to the user, a request to draw the track
    information. *)
Inductive Action :=
| ACall (args : list Value) (r : Reply)
| AGet (prop : string) (r : Reply)
| ASet (prop : string) (v : Value) (e : option error)
| AMonitor (title : string)
| ARenew (uri : string) (audio renewed : bool)
| AShowError (msg : string)
| ARenderInfo (id : string).

(** The errors shown to the user, oldest first. *)
Definition errors_shown (t : list Action) : list string :=
  omap (λ a, match a with AShowError msg => Some msg | _ => None end) t.

Section Player.

Context {C : Type} `{!Transport C} `{!Externals}.

(** The [MPV] value ([Connection], [monitor]; the mutex only serialises
    the accesses to [monitor], which are atomic steps here), the [Events]
    channels, the files [os.Open] can open, and the trace. *)
Record World := {
  Connection : option C;
  monitor : gmap Z string;
  Events : EventHandler;
  fs : gmap string File;
  trace : list Action;
}.

Inductive Outcome (A : Type) :=
| Ret (a : A) (w : World)
| Panic (msg : string)
| Block (w : World).
Arguments Ret {A} _ _.
Arguments Panic {A} _.
Arguments Block {A} _.

Definition M (A : Type) : Type := World -> Outcome A.

Definition ret {A} (a : A) : M A := fun w => Ret a w.

Definition bind {A B} (m : M A) (k : A -> M B) : M B :=
  fun w =>
    match m w with
    | Ret a w' => k a w'
    | Panic msg => Panic msg
    | Block w' => Block w'
    end.

Definition panic {A} (msg : string) : M A := fun _ => Panic msg.

Definition gets {A} (f : World -> A) : M A := fun w => Ret (f w) w.

Definition modify (f : World -> World) : M unit := fun w => Ret tt (f w).

End Player.

Arguments World C : clear implicits.
Arguments Ret {C A} _ _.
Arguments Panic {C A} _.
Arguments Block {C A} _.

Notation "x |> f" := (f x) (at level 59, left associativity, only parsing).

Declare Scope go_scope.
Delimit Scope go_scope with go.
Notation "x <- m ;; k" := (bind m (fun x => k))
  (at level 100, m at next level, right associativity) : go_scope.
Notation "m ;; k" := (bind m (fun _ => k))
  (at level 100, right associativity) : go_scope.

(** An event of the transport library ([mpvipc.Event]), with the fields
    the listener reads. *)
Record Event := {
  ID : Z;
  Name : string;
  Data : Value;
  ExtraData : gmap string Value;
}.

Local Open Scope go_scope.

(** ** The [MPV] type *)

Section MPV.

Context {C : Type} `{!Transport C} `{!Externals}.

Local Abbreviation World := (World C).
Local Abbreviation M := (M (C := C)).

(** *** Field updates *)

Definition with_Connection (c : option C) (w : World) : World :=
  {| Connection := c; monitor := monitor w; Events := Events w;
     fs := fs w; trace := trace w |}.

Definition with_monitor (m : gmap Z string) (w : World) : World :=
  {| Connection := Connection w; monitor := m; Events := Events w;
     fs := fs w; trace := trace w |}.

Definition with_Events (e : EventHandler) (w : World) : World :=
  {| Connection := Connection w; monitor := monitor w; Events := e;
     fs := fs w; trace := trace w |}.

Definition with_trace (t : list Action) (w : World) : World :=
  {| Connection := Connection w; monitor := monitor w; Events := Events w;
     fs := fs w; trace := t |}.

Definition with_FileNumber (c : chan Z) (e : EventHandler) : EventHandler :=
  {| FileNumber := c; ErrorNumber := ErrorNumber e;
     ErrorEvent := ErrorEvent e; FileLoadedEvent := FileLoadedEvent e;
     DataEvent := DataEvent e |}.

Definition with_ErrorNumber (c : chan Z) (e : EventHandler) : EventHandler :=
  {| FileNumber := FileNumber e; ErrorNumber := c;
     ErrorEvent := ErrorEvent e; FileLoadedEvent := FileLoadedEvent e;
     DataEvent := DataEvent e |}.

Definition with_ErrorEvent (c : chan string) (e : EventHandler) : EventHandler :=
  {| FileNumber := FileNumber e; ErrorNumber := ErrorNumber e;
     ErrorEvent := c; FileLoadedEvent := FileLoadedEvent e;
     DataEvent := DataEvent e |}.

Definition with_FileLoadedEvent (c : chan unit) (e : EventHandler) : EventHandler :=
  {| FileNumber := FileNumber e; ErrorNumber := ErrorNumber e;
     ErrorEvent := ErrorEvent e; FileLoadedEvent := c;
     DataEvent := DataEvent e |}.

Definition with_DataEvent (c : chan PlaylistData) (e : EventHandler) : EventHandler :=
  {| FileNumber := FileNumber e; ErrorNumber := ErrorNumber e;
     ErrorEvent := ErrorEvent e; FileLoadedEvent := FileLoadedEvent e;
     DataEvent := c |}.

Definition log (a : Action) : M unit :=
  modify (fun w => with_trace (trace w ++ [a]) w).

(** [ch <- v] on one of the [Events] channels: blocks when it is full. *)
Definition send {A} (get : EventHandler -> chan A)
    (set : chan A -> EventHandler -> EventHandler) (v : A) : M unit :=
  fun w =>
    if Channel.has_room (get (Events w))
    then Ret tt (with_Events (set (Channel.push v (get (Events w))) (Events w)) w)
    else Block w.

(** [select { case ch <- v: default: }]. *)
Definition try_send {A} (get : EventHandler -> chan A)
    (set : chan A -> EventHandler -> EventHandler) (v : A) : M unit :=
  modify (fun w =>
    with_Events (set (Channel.try_send v (get (Events w))) (Events w)) w).

(** [v := <-ch]: blocks when nothing is waiting. *)
Definition recv {A} (get : EventHandler -> chan A)
    (set : chan A -> EventHandler -> EventHandler) : M A :=
  fun w =>
    match Channel.pop (get (Events w)) with
    | Some (v, c) => Ret v (with_Events (set c (Events w)) w)
    | None => Block w
    end.

(** [select { case v := <-ch: ... default: }]. *)
Definition try_recv {A} (get : EventHandler -> chan A)
    (set : chan A -> EventHandler -> EventHandler) : M (option A) :=
  fun w =>
    match Channel.pop (get (Events w)) with
    | Some (v, c) => Ret (Some v) (with_Events (set c (Events w)) w)
    | None => Ret None w
    end.

(** *** The connection *)

Definition closed_error : error := Err "MPV: Connection closed".

(** [Exited]: [m.Connection == nil || m.Connection.IsClosed()]. *)
Definition Exited (w : World) : bool :=
  match Connection w with
  | None => true
  | Some c => IsClosed c
  end.

(** [Call]. *)
Definition Call (args : list Value) : M Reply :=
  fun w =>
    let '(r, conn) :=
      match Connection w with
      | Some c =>
          if IsClosed c then ((VNil, Some closed_error), Some c)
          else let '(r, c') := ConnCall args c in (r, Some c')
      | None => ((VNil, Some closed_error), None)
      end in
    Ret r (with_trace (trace w ++ [ACall args r]) (with_Connection conn w)).

(** [Get]. *)
Definition Get (prop : string) : M Reply :=
  fun w =>
    let '(r, conn) :=
      match Connection w with
      | Some c =>
          if IsClosed c then ((VNil, Some closed_error), Some c)
          else let '(r, c') := ConnGet prop c in (r, Some c')
      | None => ((VNil, Some closed_error), None)
      end in
    Ret r (with_trace (trace w ++ [AGet prop r]) (with_Connection conn w)).

(** [Set]. *)
Definition Set_ (prop : string) (value : Value) : M (option error) :=
  fun w =>
    let '(e, conn) :=
      match Connection w with
      | Some c =>
          if IsClosed c then (Some closed_error, Some c)
          else let '(e, c') := ConnSet prop value c in (e, Some c')
      | None => (Some closed_error, None)
      end in
    Ret e (with_trace (trace w ++ [ASet prop value e]) (with_Connection conn w)).

(** *** The track monitor *)

(** [clearMonitor]. *)
Definition clearMonitor : M unit :=
  modify (with_monitor ∅).

(** [addToMonitor]: takes an id from [Events.FileNumber] if one is
    waiting and records the title under it.  That the title was handed
    over is noted in the trace. *)
Definition addToMonitor (title : string) : M unit :=
  log (AMonitor title) ;;
  got <- try_recv FileNumber with_FileNumber ;;
  match got with
  | Some id => modify (fun w => with_monitor (<[id := title]> (monitor w)) w)
  | None => ret tt
  end.

(** The body of the loop of [startMonitor] for one id received from
    [Events.ErrorNumber]: a missing key reads as the empty string. *)
Definition monitorError (id : Z) : M unit :=
  title <- gets (fun w => default "" (monitor w !! id)) ;;
  modify (fun w => with_monitor (delete id (monitor w)) w) ;;
  try_send ErrorEvent with_ErrorEvent title.

(** One turn of the loop of [startMonitor]. *)
Definition startMonitor_step : M unit :=
  id <- recv ErrorNumber with_ErrorNumber ;;
  monitorError id.

(** [startMonitor] up to the point where it parks on an empty
    [Events.ErrorNumber]: one turn per id waiting. *)
Fixpoint startMonitor_turns (n : nat) : M unit :=
  match n with
  | O => ret tt
  | S n' => startMonitor_step ;; startMonitor_turns n'
  end.

Definition startMonitor : M unit :=
  fun w => startMonitor_turns (length (buf (ErrorNumber (Events w)))) w.

(** *** Type assertions *)

Definition as_float (v : Value) : M Z :=
  match v with
  | VFloat z => ret z
  | _ => panic "interface conversion: interface {} is not float64"
  end.

Definition as_bool (v : Value) : M bool :=
  match v with
  | VBool b => ret b
  | _ => panic "interface conversion: interface {} is not bool"
  end.

Definition as_string (v : Value) : M string :=
  match v with
  | VString s => ret s
  | _ => panic "interface conversion: interface {} is not string"
  end.

(** *** Loading *)

(** [LoadFile].  The assignment to [files[0]] also changes the caller's
    slice; nothing proved here reads it afterwards. *)
Definition LoadFile (title : string) (duration : Z) (audio : bool)
    (files : list string) : M (option error) :=
  let options := "force-media-title=%" +:+ Itoa (len title) +:+ "%" +:+ title in
  let options :=
    if 0 <? duration then options +:+ ",length=" +:+ Itoa duration else options in
  let options := if audio then options +:+ ",vid=no" else options in
  options <-
    (if bool_decide (length files = 2%nat) then
       match files !! 1%nat with
       | Some f1 => ret (options +:+ ",audio-file=" +:+ f1)
       | None => panic "index out of range [1]"
       end
     else ret options) ;;
  match files !! 0%nat with
  | None => panic "index out of range [0] with length 0"
  | Some f0 =>
      let f0 := f0 +:+ "&options=" +:+ QueryEscape options in
      r <- Call [VString "loadfile"; VString f0; VString "append-play";
                 VString options] ;;
      match r.2 with
      | Some _ => ret (Some (Err ("MPV: Unable to load " +:+ title)))
      | None => addToMonitor title ;; ret None
      end
  end.

Definition loadfile_args (line options : string) : list Value :=
  [VString "loadfile"; VString line; VString "append-play"; VString options].

(** The body of the scanning loop of [LoadPlaylist], over the lines the
    scanner yields; [inl] is the early [return err], [inr] the value of
    [filesAdded] when the lines run out.  [renewLiveURL] is a Go function
    value: a computation over the same world, which may itself issue
    requests (the one the user interface passes loads the renewed video).
    That it was called, and what it answered, is noted in the trace. *)
Fixpoint scanPlaylist (renewLiveURL : string -> bool -> M bool)
    (rest : list string) (filesAdded : Z) : M (error + Z) :=
  match rest with
  | [] => ret (inr filesAdded)
  | line :: rest =>
      if HasPrefix line "#" || bool_decide (line = "") then
        scanPlaylist renewLiveURL rest filesAdded
      else
        match IsValidURL line with
        | None => scanPlaylist renewLiveURL rest filesAdded
        | Some lineURI =>
            let lineURI := SetHost lineURI GetHostname in
            let line := URLString lineURI in
            let data := Query lineURI in
            let t := ValuesGet data "title" in
            let title := if bool_decide (t = "") then "" else t in
            let o := ValuesGet data "options" in
            let options := if bool_decide (o = "") then "" else replaceOptions o in
            let l := ValuesGet data "length" in
            let audio := bool_decide (ValuesGet data "mediatype" = "Audio") in
            renewed <-
              (if bool_decide (l = "Live") then
                 renewed <- renewLiveURL line audio ;;
                 log (ARenew line audio renewed) ;; ret renewed
               else ret false) ;;
            if renewed : bool then scanPlaylist renewLiveURL rest filesAdded
            else
              let options :=
                if Contains options "force-media-title" then options
                else options +:+ ",force-media-title=%" +:+ Itoa (len title)
                       +:+ "%" +:+ title in
              r <- Call (loadfile_args line options) ;;
              match r.2 with
              | Some err => ret (inl err)
              | None =>
                  addToMonitor title ;;
                  scanPlaylist renewLiveURL rest (GoInt.add filesAdded 1)
              end
        end
  end.

Definition no_files_error : error := Err "MPV: No files were added".

(** [LoadPlaylist]. *)
Definition LoadPlaylist (plpath : string) (replace : bool)
    (renewLiveURL : string -> bool -> M bool) : M (option error) :=
  (if replace then
     Call [VString "playlist-clear"] ;;
     Call [VString "playlist-remove"; VString "current"] ;;
     clearMonitor
   else ret tt) ;;
  pl <- gets (fun w => fs w !! plpath) ;;
  match pl with
  | None => ret (Some (Err ("MPV: Unable to open " +:+ plpath)))
  | Some pl =>
      scanned <- scanPlaylist renewLiveURL (lines pl) 0 ;;
      match scanned with
      | inl err => ret (Some err)
      | inr filesAdded =>
          match scanErr pl with
          | Some err =>
              if bool_decide (err = EOF) then
                if filesAdded =? 0 then ret (Some no_files_error) else ret None
              else ret (Some err)
          | None =>
              if filesAdded =? 0 then ret (Some no_files_error) else ret None
          end
      end
  end.

(** *** Status queries *)

(** [Title]: the error of the call is dropped, only the value is read. *)
Definition Title (pos : Z) : M string :=
  r <- Call [VString "get_property_string";
             VString ("playlist/" +:+ Itoa pos +:+ "/filename")] ;;
  match r.1 with
  | VNil => ret "-"
  | pltitle => as_string pltitle
  end.

(** [MediaType]. *)
Definition MediaType : M string :=
  r <- Get "height" ;;
  match r.2 with
  | Some _ => ret "Audio"
  | None => ret "Video"
  end.

(** A boolean property with the value returned when the query fails. *)
Definition bool_property (prop : string) (fallback : bool) : M bool :=
  r <- Get prop ;;
  match r.2 with
  | Some _ => ret fallback
  | None => as_bool r.1
  end.

(** An integer property with the value returned when the query fails. *)
Definition int_property (prop : string) (fallback : Z) : M Z :=
  r <- Get prop ;;
  match r.2 with
  | Some _ => ret fallback
  | None => as_float r.1
  end.

(** [Position]. *)
Definition Position : M Z := int_property "playback-time" 0.

(** [Duration]. *)
Definition Duration : M Z :=
  r <- Get "duration" ;;
  match r.2 with
  | Some _ =>
      r <- Get "options/length" ;;
      match r.2 with
      | Some _ => ret 0
      | None =>
          s <- as_string r.1 ;;
          match ParseInt s with
          | Some time => ret time
          | None => ret 0
          end
      end
  | None => as_float r.1
  end.

(** [Paused]. *)
Definition Paused : M bool := bool_property "pause" false.

(** [Shuffled]. *)
Definition Shuffled : M bool := bool_property "shuffle" false.

(** [Muted]. *)
Definition Muted : M bool := bool_property "mute" false.

(** [Idle]. *)
Definition Idle : M bool := bool_property "core-idle" false.

(** [Finished]. *)
Definition Finished : M bool := bool_property "eof-reached" false.

(** [Buffering]. *)
Definition Buffering : M bool := bool_property "paused-for-cache" true.

(** [Volume]. *)
Definition Volume : M Z := int_property "volume" (-1).

(** [QueueCount]. *)
Definition QueueCount : M Z := int_property "playlist-count" 0.

(** [QueuePosition]. *)
Definition QueuePosition : M Z := int_property "playlist-playing-pos" 0.

(** [VolumeIncrease]. *)
Definition VolumeIncrease : M unit :=
  vol <- Volume ;;
  if vol =? -1 then ret tt
  else Set_ "volume" (VInt (GoInt.add vol 1)) ;; ret tt.

(** [VolumeDecrease]. *)
Definition VolumeDecrease : M unit :=
  vol <- Volume ;;
  if vol =? -1 then ret tt
  else Set_ "volume" (VInt (GoInt.sub vol 1)) ;; ret tt.

(** [QueueClear]. *)
Definition QueueClear : M unit :=
  Call [VString "playlist-clear"] ;;
  clearMonitor.

(** *** Loop mode *)

Definition is_on (v : Value) : bool := value_is v "yes" || value_is v "inf".

(** [LoopMode]. *)
Definition LoopMode : M string :=
  lf <- Call [VString "get_property_string"; VString "loop-file"] ;;
  match lf.2 with
  | Some _ => ret ""
  | None =>
      lp <- Call [VString "get_property_string"; VString "loop-playlist"] ;;
      match lp.2 with
      | Some _ => ret ""
      | None =>
          if is_on lf.1 then ret "loop-file"
          else if is_on lp.1 then ret "loop-playlist"
          else ret ""
      end
  end.

(** [ToggleLoopMode]. *)
Definition ToggleLoopMode : M unit :=
  mode <- LoopMode ;;
  if bool_decide (mode = "") then
    Set_ "loop-file" (VString "yes") ;;
    Set_ "loop-playlist" (VString "no") ;; ret tt
  else if bool_decide (mode = "loop-file") then
    Set_ "loop-file" (VString "no") ;;
    Set_ "loop-playlist" (VString "yes") ;; ret tt
  else if bool_decide (mode = "loop-playlist") then
    Set_ "loop-file" (VString "no") ;;
    Set_ "loop-playlist" (VString "no") ;; ret tt
  else ret tt.

(** *** The event listener *)

(** [m[key]] for a [map[string]interface{}]: nil when the key is absent. *)
Definition extra (event : Event) (key : string) : Value :=
  default VNil (ExtraData event !! key).

Definition is_nil (v : Value) : bool :=
  match v with
  | VNil => true
  | _ => false
  end.

(** The playlist an event with id 1 carries, when its data is a list. *)
Definition playlist_of (event : Event) : option PlaylistData :=
  if ID event =? 1 then
    match Data event with
    | VList data =>
        Some (map (fun d => match d with VMap p => Some p | _ => None end) data)
    | _ => None
    end
  else None.

(** The work of [eventListener] for one event read from the stream. *)
Definition handleEvent (event : Event) : M unit :=
  match playlist_of event with
  | Some pldata => send DataEvent with_DataEvent pldata
  | None =>
      if bool_decide (Name event = "start-file") then
        Set_ "pause" (VString "yes") ;;
        Set_ "pause" (VString "no") ;;
        if (0 <? size (ExtraData event))%nat then
          id <- as_float (extra event "playlist_entry_id") ;;
          send FileNumber with_FileNumber id
        else ret tt
      else if bool_decide (Name event = "end-file") then
        if (0 <? size (ExtraData event))%nat then
          let err := extra event "file_error" in
          let val := extra event "playlist_entry_id" in
          if negb (is_nil err) && negb (is_nil val) then
            reason <- as_string err ;;
            if negb (bool_decide (reason = "")) then
              id <- as_float val ;;
              send ErrorNumber with_ErrorNumber id
            else ret tt
          else ret tt
        else ret tt
      else if bool_decide (Name event = "file-loaded") then
        send FileLoadedEvent with_FileLoadedEvent tt
      else ret tt
  end.

(** ** The player of the user interface *)

(** The [ErrorEvent] case of the loop of [monitorMPVEvents]. *)
Definition monitorMPVEvents_error : M unit :=
  msg <- recv ErrorEvent with_ErrorEvent ;;
  log (AShowError ("Player: Unable to play " +:+ msg)).

(** [renderInfo] draws on the screen; only the fact that it is asked to
    is kept. *)
Definition renderInfo (data : Values) : M unit :=
  log (ARenderInfo (ValuesGet data "id")).

(** The two clamps of [updateProgressAndInfo] on the position and the
    duration. *)
Definition clampTimes (timepos duration : Z) : Z * Z :=
  let timepos := if timepos <? 0 then 0 else timepos in
  let duration := if duration <=? 0 then 1 else duration in
  let timepos := if duration <? timepos then duration else timepos in
  (timepos, duration).

(** The lengths of the filled and of the blank part of the bar, from the
    width of the text view and the clamped position and duration. *)
Definition barLengths (width timepos duration : Z) : Z * Z :=
  let width := GoInt.quot width 2 in
  let length := GoInt.quot (GoInt.mul width timepos) duration in
  let endlength := GoInt.sub width length in
  let endlength := if endlength <? 0 then width else endlength in
  (length, endlength).

(** The glyph of the playing state. *)
Definition stateGlyph (paused eof buffering : bool) : string :=
  if paused then (if eof then "[]" else "||")
  else if buffering then "B"
  else ">".

Definition ProgressInfo : Type := string * string * list string * option error.

(** [updateProgressAndInfo]. *)
Definition updateProgressAndInfo (width : Z) : M ProgressInfo :=
  ppos <- QueuePosition ;;
  if ppos =? -1 then ret ("", "", [], Some (Err "Player: Empty playlist"))
  else
    title <- Title ppos ;;
    eof <- Finished ;;
    paused <- Paused ;;
    buffering <- Buffering ;;
    shuffle <- Shuffled ;;
    loop <- LoopMode ;;
    mute <- Muted ;;
    volume <- Volume ;;
    duration <- Duration ;;
    timepos <- Position ;;
    let currtime := FormatDuration timepos in
    let vol := if volume <? 0 then "0" else Itoa volume in
    let states := ["volume " +:+ vol] in
    let vol := vol +:+ "%" in
    let '(timepos, duration) := clampTimes timepos duration in
    shown <-
      match GetDataFromURL title with
      | Some data =>
          renderInfo data ;;
          let t := ValuesGet data "title" in
          let title := if bool_decide (t = "") then title else t in
          let l := ValuesGet data "length" in
          let totaltime := if bool_decide (l = "") then FormatDuration duration else l in
          let m := ValuesGet data "mediatype" in
          mtype <- (if bool_decide (m = "") then MediaType else ret m) ;;
          ret (title, totaltime, mtype)
      | None =>
          mtype <- MediaType ;;
          ret (title, FormatDuration duration, mtype)
      end ;;
    let '(title, totaltime, mtype) := shown in
    let mtype := "(" +:+ mtype +:+ ")" in
    let '(length, endlength) := barLengths width timepos duration in
    let lhs := "" in
    let '(lhs, states) :=
      if shuffle : bool then (lhs +:+ " S", (states ++ ["shuffle"])%list) else (lhs, states) in
    let '(lhs, states) :=
      if mute : bool then (lhs +:+ " M", (states ++ ["mute"])%list) else (lhs, states) in
    let '(states, loop) :=
      if bool_decide (loop = "") then (states, loop)
      else ((states ++ [loop])%list,
            if bool_decide (loop = "loop-file") then "R-F"
            else if bool_decide (loop = "loop-playlist") then "R-P"
            else loop) in
    let state := stateGlyph paused eof buffering in
    let rhs := " " +:+ vol +:+ " " +:+ mtype in
    let lhs := loop +:+ lhs +:+ " " +:+ state +:+ " " in
    match Repeat "█" length, Repeat " " endlength with
    | Some filled, Some blank =>
        let progress := currtime +:+ " |" +:+ filled +:+ blank +:+ "| " +:+ totaltime in
        ret (title, lhs +:+ progress +:+ rhs, states, None)
    | _, _ => panic "strings: negative Repeat count"
    end.

End MPV.

Arguments Outcome C A : clear implicits.

(** The world a computation returns in. *)
Definition final {C A} (o : Outcome C A) : option (World C) :=
  match o with
  | Ret _ w => Some w
  | _ => None
  end.

(** ** A player and helpers to run the code against *)

Module Sim.

(** A player that keeps a property store: a write stores the value, a read
    returns it, [get_property_string] prints it with [shows], and the
    commands in [refused] are answered with an error. *)
Record Player := {
  closed : bool;
  props : gmap string Value;
  shows : Value -> string;
  refused : list Value -> bool;
}.

Definition unavailable : error := Err "property unavailable".
Definition command_failed : error := Err "error running command".

Definition store (prop : string) (v : Value) (p : Player) : Player :=
  {| closed := closed p; props := <[prop := v]> (props p);
     shows := shows p; refused := refused p |}.

Definition read (prop : string) (p : Player) : Reply :=
  match props p !! prop with
  | Some v => (v, None)
  | None => (VNil, Some unavailable)
  end.

Definition run (args : list Value) (p : Player) : Reply :=
  if refused p args then (VNil, Some command_failed)
  else
    match args with
    | [VString "get_property_string"; VString prop] =>
        match props p !! prop with
        | Some v => (VString (shows p v), None)
        | None => (VNil, Some unavailable)
        end
    | _ => (VNil, None)
    end.

#[global] Instance transport : Transport Player := {
  IsClosed := closed;
  ConnCall args p := (run args p, p);
  ConnGet prop p := (read prop p, p);
  ConnSet prop v p := (None, store prop v p);
}.

(** Prints a string as it is, a boolean as yes or no, a number in
    decimal. *)
Definition plain (v : Value) : string :=
  match v with
  | VString s => s
  | VBool b => if b then "yes" else "no"
  | VInt z | VFloat z => Itoa z
  | _ => ""
  end.

(** *** A small URL reader: [https://host/path?k=v&k=v] *)

Record Url := { host : string; path : string; rawquery : string }.

(** The text before the first [sep], and the text after it if there is
    one. *)
Fixpoint cut (sep : ascii) (s : string) : string * option string :=
  match s with
  | EmptyString => (EmptyString, None)
  | String a rest =>
      if Ascii.eqb a sep then (EmptyString, Some rest)
      else let '(before, after) := cut sep rest in (String a before, after)
  end.

Fixpoint fields (sep : ascii) (s : string) : list string :=
  match s with
  | EmptyString => [EmptyString]
  | String a rest =>
      let l := fields sep rest in
      if Ascii.eqb a sep then EmptyString :: l
      else match l with
           | h :: t => String a h :: t
           | [] => [String a EmptyString]
           end
  end.

Definition pair_of (kv : string) : string * string :=
  let '(k, v) := cut "="%char kv in (k, default "" v).

Definition query_of (raw : string) : list (string * string) :=
  if bool_decide (raw = "") then [] else map pair_of (fields "&"%char raw).

Fixpoint lookup_first (key : string) (q : list (string * string)) : string :=
  match q with
  | [] => ""
  | (k, v) :: rest => if bool_decide (k = key) then v else lookup_first key rest
  end.

Definition parse (s : string) : option Url :=
  if String.prefix "https://" s then
    let body := String.substring 8 (String.length s - 8) s in
    let '(location, q) := cut "?"%char body in
    let '(h, p) := cut "/"%char location in
    if bool_decide (h = "") then None
    else Some {| host := h; path := "/" +:+ default "" p; rawquery := default "" q |}
  else None.

Definition print (u : Url) : string :=
  "https://" +:+ host u +:+ path u +:+
  (if bool_decide (rawquery u = "") then "" else "?" +:+ rawquery u).

#[global] Instance externals : Externals := {
  URL := Url;
  Values := list (string * string);
  IsValidURL := parse;
  GetHostname := "api.example";
  SetHost u h := {| host := h; path := path u; rawquery := rawquery u |};
  URLString := print;
  Query u := query_of (rawquery u);
  ValuesGet q key := lookup_first key q;
  QueryEscape s := s;
  replaceOptions s := s;
  GetDataFromURL s := query_of ∘ rawquery <$> parse s;
  FormatDuration := Itoa;
}.

Definition no_events (n : nat) : EventHandler :=
  {| FileNumber := Chan n []; ErrorNumber := Chan n [];
     ErrorEvent := Chan n []; FileLoadedEvent := Chan n [];
     DataEvent := Chan n [] |}.

Definition live_player : Player :=
  {| closed := false; props := ∅; shows := plain; refused := fun _ => false |}.

(** A fresh session with a live player and channels of capacity [n]. *)
Definition fresh (n : nat) : World Player :=
  {| Connection := Some live_player; monitor := ∅; Events := no_events n;
     fs := ∅; trace := [] |}.

(** A session whose player has exited. *)
Definition dead (n : nat) : World Player :=
  {| Connection := Some {| closed := true; props := ∅; shows := plain;
                           refused := fun _ => false |};
     monitor := ∅; Events := no_events n; fs := ∅; trace := [] |}.


Definition with_file (plpath : string) (f : File) (w : World Player) : World Player :=
  {| Connection := Connection w; monitor := monitor w; Events := Events w;
     fs := <[plpath := f]> (fs w); trace := trace w |}.

Definition with_pending (ids : list Z) (w : World Player) : World Player :=
  with_Events (with_FileNumber (Chan (cap (FileNumber (Events w))) ids) (Events w)) w.

End Sim.

(** * The vocabulary of the properties *)

(** ** Outcomes, frames and courses of events *)

Section Observations.

Context {C : Type} `{!Transport C} `{!Externals}.

Local Abbreviation World := (World C).
Local Abbreviation M := (M (C := C)).

Definition panics {A} (o : Outcome C A) : bool :=
  match o with
  | Panic _ => true
  | _ => false
  end.

Definition returns {A} (o : Outcome C A) : bool :=
  match o with
  | Ret _ _ => true
  | _ => false
  end.

(** [w'] has the map, the [ErrorEvent] channel and the errors shown of
    [w]. *)
Definition frame (w w' : World) : Prop :=
  monitor w' = monitor w ∧
  ErrorEvent (Events w') = ErrorEvent (Events w) ∧
  ∀ msg, AShowError msg ∈ trace w' → AShowError msg ∈ trace w.

(** Where a computation leaves the world, if it does not panic. *)
Definition reaches {A} (o : Outcome C A) (P : World → Prop) : Prop :=
  match o with
  | Ret _ w' => P w'
  | Block w' => P w'
  | Panic _ => True
  end.

Definition quiet {A} (m : M A) : Prop := ∀ w, reaches (m w) (frame w).

(** What can happen next around the monitor: a title is handed to it, it
    is cleared, the listener handles an event of the player, the monitor
    takes its turn, the user interface shows the next error. *)
Inductive Step :=
| SAdd (title : string)
| SClear
| SEvent (event : Event)
| SMonitor
| SShow.

Definition step (s : Step) : M unit :=
  match s with
  | SAdd title => addToMonitor title
  | SClear => clearMonitor
  | SEvent event => handleEvent event
  | SMonitor => startMonitor_step
  | SShow => monitorMPVEvents_error
  end.

Fixpoint run (steps : list Step) : M unit :=
  match steps with
  | [] => ret tt
  | s :: rest => step s ;; run rest
  end.

Definition shown (title : string) : Action :=
  AShowError ("Player: Unable to play " +:+ title).

(** No id is recorded with the title, and no error naming it is waiting
    or has been shown. *)
Definition unattributed (X : string) (w : World) : Prop :=
  (∀ id, monitor w !! id ≠ Some X) ∧
  (X ∉ buf (ErrorEvent (Events w))) ∧
  (shown X ∉ trace w).

End Observations.

(** ** The progress bar *)

(** The number of filled cells [updateProgressAndInfo] computes for a view
    of the given width, from the position and the duration it has read. *)
Definition progressFill (width elapsed duration : Z) : Z :=
  let '(timepos, duration) := clampTimes elapsed duration in
  (barLengths width timepos duration).1.

(** ** The loop mode, against the player of [Sim] *)

Module Loop.

Local Abbreviation World := (World Sim.Player).

(** What the player prints for a property, nil when it has none. *)
Definition printed (prop : string) (p : Sim.Player) : Value :=
  match Sim.props p !! prop with
  | Some v => VString (Sim.shows p v)
  | None => VNil
  end.

Definition file_on (w : World) : bool :=
  match Connection w with
  | Some p => is_on (printed "loop-file" p)
  | None => false
  end.

Definition playlist_on (w : World) : bool :=
  match Connection w with
  | Some p => is_on (printed "loop-playlist" p)
  | None => false
  end.

(** The loop mode as the code reads it. *)
Definition loopMode (w : World) : string :=
  match LoopMode w with
  | Ret mode _ => mode
  | _ => ""
  end.

(** A player that is running, refuses no command, has both loop
    properties, and prints yes as yes or inf and no as neither. *)
Definition answers (p : Sim.Player) : Prop :=
  Sim.closed p = false ∧
  (∀ args, Sim.refused p args = false) ∧
  is_Some (Sim.props p !! "loop-file") ∧
  is_Some (Sim.props p !! "loop-playlist") ∧
  is_on (VString (Sim.shows p (VString "yes"))) = true ∧
  is_on (VString (Sim.shows p (VString "no"))) = false.

Definition responsive (w : World) : Prop :=
  ∃ p, Connection w = Some p ∧ answers p.

Definition mode_of (p : Sim.Player) : string :=
  if is_on (printed "loop-file" p) then "loop-file"
  else if is_on (printed "loop-playlist" p) then "loop-playlist"
  else "".

(** [ToggleLoopMode] any number of times. *)
Fixpoint toggles (n : nat) : M (C := Sim.Player) unit :=
  match n with
  | O => ret tt
  | S n' => ToggleLoopMode ;; toggles n'
  end.

(** The two writes of a branch of [ToggleLoopMode]. *)
Definition written (file playlist : string) (p : Sim.Player) : Sim.Player :=
  Sim.store "loop-playlist" (VString playlist) (Sim.store "loop-file" (VString file) p).

Definition next (p : Sim.Player) : Sim.Player :=
  if is_on (printed "loop-file" p) then written "no" "yes" p
  else if is_on (printed "loop-playlist" p) then written "no" "no" p
  else written "yes" "no" p.

Definition exclusive (p : Sim.Player) : Prop :=
  ¬ (is_on (printed "loop-file" p) = true ∧ is_on (printed "loop-playlist" p) = true).

(** A session whose player holds the two loop properties. *)
Definition started (file playlist : string) : World :=
  with_Connection (Some (written file playlist Sim.live_player)) (Sim.fresh 1).

End Loop.

(** ** Events and sessions for the examples *)

(** A failed and a started file, as the player announces them. *)
Definition end_file (id : Z) (reason : string) : Event :=
  {| ID := 0; Name := "end-file"; Data := VNil;
     ExtraData := {[ "file_error" := VString reason;
                     "playlist_entry_id" := VFloat id ]} |}.

Definition start_file (id : Z) : Event :=
  {| ID := 0; Name := "start-file"; Data := VNil;
     ExtraData := {[ "playlist_entry_id" := VFloat id ]} |}.

Definition playlist_changed (names : list string) : Event :=
  {| ID := 1; Name := "property-change";
     Data := VList (map (λ n, VMap [("filename", VString n)]) names);
     ExtraData := ∅ |}.

(** A session whose [DataEvent] has the given capacity and holds the given
    playlists. *)
Definition with_playlists (n : nat) (waiting : list PlaylistData)
    (w : World Sim.Player) : World Sim.Player :=
  with_Events (with_DataEvent (Chan n waiting) (Events w)) w.

(** ** What a playlist asks for *)

(** What is seen of loading in a trace: the [loadfile] requests with
    whether they succeeded, and the titles handed to the monitor. *)
Inductive Loading :=
| Issued (uri options : string) (ok : bool)
| Registered (title : string).

Definition loading (t : list Action) : list Loading :=
  omap (λ a,
    match a with
    | ACall [VString "loadfile"; VString uri; VString "append-play"; VString options] r =>
        Some (Issued uri options (bool_decide (r.2 = None)))
    | AMonitor title => Some (Registered title)
    | _ => None
    end) t.

Section Entries.

Context {C : Type} `{!Transport C} `{!Externals}.

(** What a line of a playlist asks for, in the words of the
    specification: nothing if it is a comment, empty or not a URI;
    otherwise the URI with the host replaced, the title, the options with
    a title directive, and whether it is a live stream and audio only. *)
Record Entry := {
  uri : string;
  title : string;
  options : string;
  live : bool;
  audio : bool;
}.

Definition is_content (line : string) : bool :=
  negb (HasPrefix line "#") && negb (bool_decide (line = "")).

Definition entry_of (line : string) : option Entry :=
  if is_content line then
    u ← IsValidURL line;
    let u := SetHost u GetHostname in
    let q := Query u in
    let title := ValuesGet q "title" in
    let given :=
      if bool_decide (ValuesGet q "options" = "") then ""
      else replaceOptions (ValuesGet q "options") in
    Some {| uri := URLString u;
            title := title;
            options :=
              if Contains given "force-media-title" then given
              else given +:+ ",force-media-title=%" +:+ Itoa (len title)
                     +:+ "%" +:+ title;
            live := bool_decide (ValuesGet q "length" = "Live");
            audio := bool_decide (ValuesGet q "mediatype" = "Audio") |}
  else None.

(** The trace of an entry that is loaded. *)
Definition loaded (e : Entry) : list Loading :=
  [Issued (uri e) (options e) true; Registered (title e)].


(** The callback answers [b] for this entry, in whatever world it is
    called, and makes no request and hands over no title of its own. *)
Definition reports (renewLiveURL : string → bool → M (C := C) bool)
    (uri : string) (audio b : bool) : Prop :=
  ∀ w, ∃ w', renewLiveURL uri audio w = Ret b w' ∧
             loading (trace w') = loading (trace w).


(** The callback reports this entry renewed, in whatever world it is
    called and whatever it does there. *)
Definition renews (renewLiveURL : string → bool → M (C := C) bool)
    (uri : string) (audio : bool) : Prop :=
  ∀ w, ∃ w', renewLiveURL uri audio w = Ret true w'.

(** The line is passed over: a comment, empty, not a URI, or a live
    entry reported renewed. *)
Definition skipped (renewLiveURL : string → bool → M (C := C) bool)
    (line : string) : Prop :=
  match entry_of line with
  | None => True
  | Some e => live e = true ∧ renews renewLiveURL (uri e) (audio e)
  end.

(** What [LoadPlaylist] does before it opens the file. *)
Definition before_scan (replace : bool) : M (C := C) unit :=
  if replace then
    Call [VString "playlist-clear"] ;;
    Call [VString "playlist-remove"; VString "current"] ;;
    clearMonitor
  else ret tt.

(** The calls of the callback for these entries and nothing else: one
    call after the other, each noted in the trace with its answer. *)
Fixpoint renewing (renewLiveURL : string → bool → M (C := C) bool)
    (entries : list Entry) : M (C := C) unit :=
  match entries with
  | [] => ret tt
  | e :: entries =>
      renewed <- renewLiveURL (uri e) (audio e) ;;
      log (ARenew (uri e) (audio e) renewed) ;;
      renewing renewLiveURL entries
  end.

(** What [LoadPlaylist] returns when the scan has added nothing. *)
Definition nothing_added (pl : File) : error :=
  match scanErr pl with
  | Some err => if bool_decide (err = EOF) then no_files_error else err
  | None => no_files_error
  end.

End Entries.

(** * More of the package *)

(** ** What a scan leaves *)

Section Scanning.

Context {C : Type} `{!Transport C} `{!Externals}.

(** The entry of a line that is loaded: a line that asks for something and
    is not a live entry that [verdict] reports renewed. *)
Definition accepted (verdict : string → bool → bool) (line : string) : option Entry :=
  e ← entry_of line;
  if live e && verdict (uri e) (audio e) then None else Some e.

(** For the live entries of the lines, the callback answers what
    [verdict] says and makes no request of its own. *)
Definition decided (renewLiveURL : string → bool → M (C := C) bool)
    (verdict : string → bool → bool) (lines : list string) : Prop :=
  ∀ line e, line ∈ lines → entry_of line = Some e → live e = true →
            reports renewLiveURL (uri e) (audio e) (verdict (uri e) (audio e)).

(** The end of [LoadPlaylist], after a scan in which no request failed:
    the error of the scanner first, then the count of the files added. *)
Definition scan_result (pl : File) (filesAdded : Z) : option error :=
  match scanErr pl with
  | Some err =>
      if bool_decide (err = EOF) then
        if filesAdded =? 0 then Some no_files_error else None
      else Some err
  | None => if filesAdded =? 0 then Some no_files_error else None
  end.

(** The options [LoadFile] builds for a file. *)
Definition file_options (title : string) (duration : Z) (audio : bool)
    (files : list string) : string :=
  let options := "force-media-title=%" +:+ Itoa (len title) +:+ "%" +:+ title in
  let options :=
    if 0 <? duration then options +:+ ",length=" +:+ Itoa duration else options in
  let options := if audio then options +:+ ",vid=no" else options in
  match files with
  | [_; f1] => options +:+ ",audio-file=" +:+ f1
  | _ => options
  end.

End Scanning.

(** ** The controls *)

Section Controls.

Context {C : Type} `{!Transport C} `{!Externals}.

Local Abbreviation M := (M (C := C)).

Local Open Scope go_scope.

(** [Play]. *)
Definition Play : M unit :=
  Set_ "pause" (VString "no") ;; ret tt.

(** [Stop]. *)
Definition Stop : M unit :=
  Call [VString "stop"] ;; ret tt.

(** [Next]. *)
Definition Next : M unit :=
  Call [VString "playlist-next"] ;; ret tt.

(** [Prev]. *)
Definition Prev : M unit :=
  Call [VString "playlist-prev"] ;; ret tt.

(** [SeekForward]. *)
Definition SeekForward : M unit :=
  Call [VString "seek"; VInt 1] ;; ret tt.

(** [SeekBackward]. *)
Definition SeekBackward : M unit :=
  Call [VString "seek"; VInt (-1)] ;; ret tt.

(** [TogglePaused]: [&&] does not ask whether the playback is paused when
    it is not finished. *)
Definition TogglePaused : M unit :=
  finished <- Finished ;;
  both <- (if finished then Paused else ret false) ;;
  (if both
   then Call [VString "seek"; VInt 0; VString "absolute-percent"] ;; ret tt
   else ret tt) ;;
  Call [VString "cycle"; VString "pause"] ;; ret tt.

(** [ToggleShuffled]. *)
Definition ToggleShuffled : M unit :=
  Call [VString "cycle"; VString "shuffle"] ;; ret tt.

(** [ToggleMuted]. *)
Definition ToggleMuted : M unit :=
  Call [VString "cycle"; VString "mute"] ;; ret tt.

(** [QueueDelete]. *)
Definition QueueDelete (number : Z) : M unit :=
  Call [VString "playlist-remove"; VInt number] ;; ret tt.

(** [QueueMove]. *)
Definition QueueMove (before after : Z) : M unit :=
  Call [VString "playlist-move"; VInt after; VInt before] ;; ret tt.

(** [QueueSwitchToTrack]. *)
Definition QueueSwitchToTrack (number : Z) : M unit :=
  Set_ "playlist-pos" (VInt number) ;; ret tt.

(** [QueueData]. *)
Definition QueueData : M string :=
  r <- Call [VString "get_property_string"; VString "playlist"] ;;
  match r.2 with
  | Some _ => ret ""
  | None => as_string r.1
  end.

(** [QueuePlayLatest]. *)
Definition QueuePlayLatest : M unit :=
  count <- QueueCount ;;
  Set_ "playlist-pos" (VInt (GoInt.sub count 1)) ;;
  Play.

(** An exchange that never reached the player: answered by [Call], [Get]
    or [Set] themselves with the error of a closed connection. *)
Definition refused_locally (a : Action) : bool :=
  match a with
  | ACall _ (VNil, Some (Err "MPV: Connection closed")) => true
  | AGet _ (VNil, Some (Err "MPV: Connection closed")) => true
  | ASet _ _ (Some (Err "MPV: Connection closed")) => true
  | _ => false
  end.

(** [m] returns [a] from every world whose player has exited, and leaves
    that world as it was but for a trace of exchanges that were refused
    locally. *)
Definition fails_fast {A} (m : M A) (a : A) : Prop :=
  ∀ w, Exited w = true →
    ∃ t, m w = Ret a (with_trace (trace w ++ t) w) ∧
         Forall (λ x, refused_locally x = true) t.

End Controls.

(** ** Starting the player *)

(** The result of [strconv.ParseUint]: a syntax error, a range error, or
    the number. *)
Inductive Scanned :=
| Syntax
| Range
| Parsed (n : Z).

Definition maxUint64 : Z := 2 ^ 64 - 1.

(** The loop of [strconv.ParseUint] for base 10 and 64 bits, from the
    number [n] read so far: the bytes are taken from the left, and the
    first byte that is no digit, or the first digit that takes the number
    out of the range of [uint64], ends the loop with its error. *)
Fixpoint ParseUint_digits (s : string) (n : Z) : Scanned :=
  match s with
  | EmptyString => Parsed n
  | String c rest =>
      match digit c with
      | None => Syntax
      | Some d =>
          if maxUint64 / 10 + 1 <=? n then Range
          else if maxUint64 <? 10 * n + d then Range
          else ParseUint_digits rest (10 * n + d)
      end
  end.

(** [strconv.ParseUint(s, 10, 64)]. *)
Definition ParseUint (s : string) : Scanned :=
  match s with
  | EmptyString => Syntax
  | _ => ParseUint_digits s 0
  end.

(** The number [strconv.ParseInt(s, 10, 0)] returns, whatever the error
    that comes with it: 0 with a syntax error, the nearest bound of
    [int] with a range error. *)
Definition ParseInt_value (s : string) : Z :=
  match s with
  | EmptyString => 0
  | _ =>
      let '(neg, body) :=
        match s with
        | String "+"%char rest => (false, rest)
        | String "-"%char rest => (true, rest)
        | _ => (false, s)
        end in
      match ParseUint body with
      | Syntax => 0
      | Range => if neg then GoInt.min_int else GoInt.max_int
      | Parsed un =>
          if negb neg && (2 ^ 63 <=? un) then GoInt.max_int
          else if neg && (2 ^ 63 <? un) then GoInt.min_int
          else if neg then - un else un
      end
  end.

(** [strconv.Atoi] as [connect] uses it, with the error dropped: the fast
    path for a text of 1 to 18 bytes, which reads the sign and the digits
    itself and gives 0 for anything else, and [strconv.ParseInt] for the
    empty text and for longer ones. *)
Definition Atoi (s : string) : Z :=
  if (0 <? len s) && (len s <? 19) then
    let '(neg, body) :=
      match s with
      | String "+"%char rest => (false, rest)
      | String "-"%char rest => (true, rest)
      | _ => (false, s)
      end in
    match body with
    | EmptyString => 0
    | _ =>
        match digits body 0 with
        | Some n => if neg then - n else n
        | None => 0
        end
    end
  else ParseInt_value s.

Section Connecting.

Context {C : Type} `{!Transport C} `{!Externals}.

Local Abbreviation World := (World C).

(** What [connect] meets outside the program: whether the command starts,
    and what each call of [conn.Open] gives, counted from 0: the opened
    connection, or nothing when it fails. *)
Record Host := { starts : bool; opens : nat → option C }.

(** The loop of [connect] from the counter [i], after [tried] calls of
    [Open].  The result is the error returned, the number of calls of
    [Open] made, and the world left; it is [None] when the loop is still
    running after [fuel] turns. *)
Fixpoint connect_from (fuel : nat) (h : Host) (retries i : Z) (tried : nat)
    (w : World) : option (option error * nat * World) :=
  match fuel with
  | O => None
  | S fuel =>
      if i <=? retries then
        match opens h tried with
        | None => connect_from fuel h retries (GoInt.add i 1) (S tried) w
        | Some conn => Some (None, S tried, with_Connection (Some conn) w)
        end
      else Some (Some (Err "MPV: Could not connect to socket"), tried, w)
  end.

(** [connect]. *)
Definition connect (fuel : nat) (h : Host) (numretries : string) (w : World) :
    option (option error * nat * World) :=
  if starts h then connect_from fuel h (Atoi numretries) 0 0 w
  else Some (Some (Err "MPV: Could not start"), 0%nat, w).

End Connecting.

Arguments Host C : clear implicits.

(** * The player bar of the user interface *)

Module UI.

(** The fields of [Player] that carry the status of the player, and the
    number of times [player.flex] is an item of the layout
    ([Layout.AddItem] adds one, [Layout.RemoveItem] removes them all). *)
Record Player := {
  playing : bool;
  channel : chan bool;
  events : chan unit;
  flex_items : nat;
}.

Definition with_playing (b : bool) (p : Player) : Player :=
  {| playing := b; channel := channel p; events := events p;
     flex_items := flex_items p |}.

Definition with_channel (c : chan bool) (p : Player) : Player :=
  {| playing := playing p; channel := c; events := events p;
     flex_items := flex_items p |}.

Definition with_events (c : chan unit) (p : Player) : Player :=
  {| playing := playing p; channel := channel p; events := c;
     flex_items := flex_items p |}.

Definition with_flex_items (n : nat) (p : Player) : Player :=
  {| playing := playing p; channel := channel p; events := events p;
     flex_items := n |}.

(** The player [setup] leaves when it runs for the first time. *)
Definition setup : Player :=
  {| playing := false; channel := Chan 10 []; events := Chan 100 [];
     flex_items := 0 |}.

(** [sendPlayingStatus]. *)
Definition sendPlayingStatus (status : bool) (p : Player) : Player :=
  with_channel (Channel.try_send status (channel p)) p.

(** [sendPlayerEvents]. *)
Definition sendPlayerEvents (p : Player) : Player :=
  with_events (Channel.try_send tt (events p)) p.

(** [Show]. *)
Definition Show (p : Player) : Player :=
  if playing p then p
  else
    p |> with_playing true
      |> sendPlayingStatus true
      |> (λ p, with_flex_items (S (flex_items p)) p).

(** The contexts [playingStatusCheck] has made, the last one first, each
    with whether it has been cancelled: [ctx] and [cancel] are those of
    the first, and [ctx] is nil while there is none.  One
    [playerUpdateLoop] was started on each and runs until it is
    cancelled. *)
Definition cancel (ctxs : list bool) : list bool :=
  match ctxs with
  | _ :: older => true :: older
  | [] => []
  end.

(** One turn of the loop of [playingStatusCheck], for a status received
    from [player.channel]. *)
Definition playingStatusCheck_turn (ctxs : list bool) (status : bool) : list bool :=
  let ctxs :=
    if negb (bool_decide (ctxs = [])) && negb status then cancel ctxs else ctxs in
  if negb status then ctxs else false :: ctxs.

(** [playingStatusCheck] up to the point where it parks on an empty
    channel. *)
Definition playingStatusCheck (p : Player) (ctxs : list bool) : Player * list bool :=
  (with_channel (Chan (cap (channel p)) []) p,
   foldl playingStatusCheck_turn ctxs (buf (channel p))).

(** The update loops that have not been cancelled. *)
Definition loops (ctxs : list bool) : nat := length (filter (λ c, negb c) ctxs).

(** What asks for a change of the status: [Show], [Hide], and the bare
    [sendPlayingStatus(false)] of [Stop] and of the key that stops the
    player. *)
Inductive Request := RShow | RHide | RStatusOff.

(** The fields of [inv.VideoData] that are read here. *)
Record VideoData := {
  Title : string;
  LengthSeconds : Z;
  LiveNow : bool;
}.

Section Renewal.

Context {C : Type} `{!Transport C} `{!Externals}.

Local Abbreviation M := (M (C := C)).

Local Open Scope go_scope.

(** [inv.CheckLiveURL] and [inv.VideoLoadParams], which ask the network:
    the id of the video with whether its URL has expired, and the video
    with its URLs or an error.  What they answer is taken to depend on
    what they are asked only. *)
Variable CheckLiveURL : string → bool → string * bool.
Variable VideoLoadParams : string → bool → error + VideoData * list string.

(** [loadVideo].  [currentVideo] keeps the video in [player.videos], a
    store that nothing embedded here reads; the error of [LoadFile] is
    dropped, as in the source. *)
Definition loadVideo (id : string) (audio : bool) : M (string * option error) :=
  match VideoLoadParams id audio with
  | inl err => ret ("", Some err)
  | inr (video, urls) =>
      LoadFile (Title video) (LengthSeconds video) (audio && LiveNow video) urls ;;
      ret (Title video, None)
  end.

(** [checkLiveURL], the callback [openPlaylist] passes to
    [LoadPlaylist]. *)
Definition checkLiveURL (uri : string) (audio : bool) : M bool :=
  let '(id, expired) := CheckLiveURL uri audio in
  (if expired then
     r <- loadVideo id audio ;;
     match r.2 with
     | Some _ =>
         log (AShowError ("Player: Unable to renew live URL for video " +:+ id))
     | None => ret tt
     end
   else ret tt) ;;
  ret expired.

End Renewal.

Section Bar.

Context {C : Type} `{!Transport C} `{!Externals}.

Local Abbreviation M := (M (C := C)).

Local Open Scope go_scope.

(** [Hide]. *)
Definition Hide (p : Player) : M Player :=
  if negb (playing p) then ret p
  else
    let p := p |> with_playing false
               |> sendPlayingStatus false
               |> with_flex_items 0 in
    Stop ;;
    QueueClear ;;
    ret p.

(** The [FileLoadedEvent] case of the loop of [monitorMPVEvents]. *)
Definition monitorMPVEvents_loaded (p : Player) : M Player :=
  recv FileLoadedEvent with_FileLoadedEvent ;;
  ret (Show p).

Definition request (r : Request) (p : Player) : M Player :=
  match r with
  | RShow => ret (Show p)
  | RHide => Hide p
  | RStatusOff => ret (sendPlayingStatus false p)
  end.

Fixpoint requests (rs : list Request) (p : Player) : M Player :=
  match rs with
  | [] => ret p
  | r :: rs => p <- request r p ;; requests rs p
  end.

End Bar.

(** The bar is in the layout once while the player is playing, and not at
    all while it is not. *)
Definition laid_out (p : Player) : Prop :=
  flex_items p = if playing p then 1%nat else 0%nat.

(** No status of playing is sent straight after another: [statuses] are
    the statuses sent after [last]. *)
Fixpoint spaced (last : bool) (statuses : list bool) : bool :=
  match statuses with
  | [] => true
  | s :: rest => negb (last && s) && spaced s rest
  end.

End UI.

(** * The tables of the application *)

Module App.

Section Tables.

(** [inv.SearchData], which the source compares with [==]. *)
Context {SearchData : Type} `{!EqDecision SearchData}.

(** What a cell holds as its reference: nothing, an entry, or a value of
    another type. *)
Inductive Reference :=
| RNil
| RData (d : SearchData)
| ROther.

Record Cell := { text : string; reference : Reference }.

(** The first column of a table, row by row; [None] where
    [table.GetCell(i, 0)] is nil. *)
Definition Table : Type := list (option Cell).

(** The loop of [ModifyReference] from row [i] on, the rows before it
    already passed; [None] is a panic (an index out of the range of
    [info], or a reference that is no [SearchData]). *)
Fixpoint modify_rows (title : string) (add : bool) (info : list SearchData)
    (passed rows : Table) : option Table :=
  match rows with
  | [] => Some passed
  | None :: rest => modify_rows title add info (passed ++ [None]) rest
  | Some cell :: rest =>
      match reference cell with
      | RNil => modify_rows title add info (passed ++ [Some cell]) rest
      | ROther => None
      | RData ref =>
          match info with
          | [] => None
          | info0 :: info' =>
              if bool_decide (info0 = ref) then
                if add then
                  match info' with
                  | [] => None
                  | info1 :: _ =>
                      Some (passed
                              ++ Some {| text := title; reference := RData info1 |}
                              :: rest)
                  end
                else Some (passed ++ rest)
              else modify_rows title add info (passed ++ [Some cell]) rest
          end
      end
  end.

(** [ModifyReference], for the table that has the focus if one has: the
    error returned and the table left. *)
Definition ModifyReference (title : string) (add : bool) (info : list SearchData)
    (focused : option Table) : option (option error * option Table) :=
  match focused with
  | None => Some (Some (Err "Application: Cannot modify list entry"), None)
  | Some table =>
      match modify_rows title add info [] table with
      | Some table' => Some (None, Some table')
      | None => None
      end
  end.

(** The row holds the entry [d]. *)
Definition holds (d : SearchData) (row : option Cell) : bool :=
  match row with
  | Some cell =>
      match reference cell with
      | RData ref => bool_decide (d = ref)
      | _ => false
      end
  | None => false
  end.

(** The row holds a reference that is no entry. *)
Definition foreign (row : option Cell) : bool :=
  match row with
  | Some cell =>
      match reference cell with
      | ROther => true
      | _ => false
      end
  | None => false
  end.

End Tables.

Arguments Reference SearchData : clear implicits.
Arguments Cell SearchData : clear implicits.
Arguments Table SearchData : clear implicits.

End App.

(** * Properties *)

(** ** Go integers *)

Lemma wrap_in_range z : GoInt.in_range z -> GoInt.wrap z = z.
Proof.
  unfold GoInt.in_range, GoInt.min_int, GoInt.max_int, GoInt.wrap. intros Hz.
  rewrite Z.mod_small; lia.
Qed.

Lemma wrap_range z : GoInt.in_range (GoInt.wrap z).
Proof.
  unfold GoInt.in_range, GoInt.min_int, GoInt.max_int, GoInt.wrap.
  pose proof (Z.mod_pos_bound (z + 2 ^ 63) (2 ^ 64)). lia.
Qed.

(** ** Strings *)

Example Contains_inside : Contains "a,force-media-title=%1%b" "force-media-title" = true.
Proof. reflexivity. Qed.

Example Contains_absent : Contains "vid=no" "force-media-title" = false.
Proof. reflexivity. Qed.

Example ParseInt_decimal : ParseInt "180" = Some 180 ∧ ParseInt "-5" = Some (-5).
Proof. split; reflexivity. Qed.

Example ParseInt_refuses :
  ParseInt "" = None ∧ ParseInt "-" = None ∧ ParseInt "3m" = None ∧
  ParseInt "9223372036854775808" = None.
Proof. repeat split; reflexivity. Qed.

Example Repeat_negative : Repeat " " (-2) = None ∧ Repeat "ab" 2 = Some "abab".
Proof. split; reflexivity. Qed.

(** ** The connection and the monitor, step by step *)

Section Steps.

Context {C : Type} `{!Transport C} `{!Externals}.

Local Abbreviation World := (World C).

(** A request never panics or blocks; it adds itself to the trace and
    leaves the monitor, the channels and the files alone. *)
Lemma Call_ret (args : list Value) (w : World) :
  ∃ r w', Call args w = Ret r w' ∧
    trace w' = trace w ++ [ACall args r] ∧
    monitor w' = monitor w ∧ Events w' = Events w ∧ fs w' = fs w.
Proof.
  unfold Call.
  destruct (match Connection w with Some _ => _ | None => _ end) as [r conn].
  exists r. eexists. split; [reflexivity|]. simpl. auto.
Qed.

Lemma Get_ret (prop : string) (w : World) :
  ∃ r w', Get prop w = Ret r w' ∧
    trace w' = trace w ++ [AGet prop r] ∧
    monitor w' = monitor w ∧ Events w' = Events w ∧ fs w' = fs w.
Proof.
  unfold Get.
  destruct (match Connection w with Some _ => _ | None => _ end) as [r conn].
  exists r. eexists. split; [reflexivity|]. simpl. auto.
Qed.

(** With the player gone, every request fails with [closed_error] and
    changes nothing but the trace. *)
Lemma Call_exited (args : list Value) (w : World) :
  Exited w = true →
  Call args w =
    Ret (VNil, Some closed_error)
        (with_trace (trace w ++ [ACall args (VNil, Some closed_error)]) w).
Proof.
  unfold Exited, Call. destruct w as [[c|] m e f t]; simpl.
  - intros ->. reflexivity.
  - reflexivity.
Qed.

Lemma Get_exited (prop : string) (w : World) :
  Exited w = true →
  Get prop w =
    Ret (VNil, Some closed_error)
        (with_trace (trace w ++ [AGet prop (VNil, Some closed_error)]) w).
Proof.
  unfold Exited, Get. destruct w as [[c|] m e f t]; simpl.
  - intros ->. reflexivity.
  - reflexivity.
Qed.

Lemma Exited_with_trace (t : list Action) (w : World) :
  Exited (with_trace t w) = Exited w.
Proof. reflexivity. Qed.

(** [addToMonitor] always returns. *)
Lemma addToMonitor_ret (title : string) (w : World) :
  ∃ w', addToMonitor title w = Ret tt w' ∧
    trace w' = trace w ++ [AMonitor title] ∧
    Connection w' = Connection w ∧ fs w' = fs w.
Proof.
  unfold addToMonitor, bind, log, modify, try_recv. simpl.
  destruct (Channel.pop _) as [[id c]|]; simpl; eexists; (split; [reflexivity|]); auto.
Qed.

(** *** Loading a file *)

(** C9. [LoadFile] panics exactly when it is given no file: with at least
    one file every index it reads is in range and the call returns, with
    none the read of [files[0]] is out of range. *)
Theorem LoadFile_needs_a_file (title : string) (duration : Z) (audio : bool)
    (files : list string) (w : World) :
  panics (LoadFile title duration audio files w) = bool_decide (length files = 0%nat) ∧
  returns (LoadFile title duration audio files w) = bool_decide (1 ≤ length files)%nat.
Proof.
  unfold LoadFile.
  destruct files as [|f0 [|f1 [|f2 rest]]]; simpl; unfold bind, ret, panic; simpl;
    try (split; reflexivity).
  all: match goal with
       | |- context [Call ?a ?w0] =>
           destruct (Call_ret a w0) as (r & w' & -> & _)
       end.
  all: destruct r as [v [e|]]; simpl; try (split; reflexivity).
  all: destruct (addToMonitor_ret title w') as (w'' & -> & _); split; reflexivity.
Qed.

(** *** The volume *)

(** C8. When the query of the volume fails, [Volume] returns -1 and
    [VolumeIncrease] and [VolumeDecrease] return at once: the world they
    leave is the one the failed query left, whose trace has grown by that
    query alone, so no write of the volume is issued. *)
Theorem Volume_failure_writes_nothing (w w' : World) (v : Value) (e : error) :
  Get "volume" w = Ret (v, Some e) w' →
  Volume w = Ret (-1) w' ∧
  VolumeIncrease w = Ret tt w' ∧
  VolumeDecrease w = Ret tt w' ∧
  trace w' = trace w ++ [AGet "volume" (v, Some e)].
Proof.
  intros Hget.
  assert (HV : Volume w = Ret (-1) w').
  { unfold Volume, int_property, bind. rewrite Hget. reflexivity. }
  repeat split.
  - exact HV.
  - unfold VolumeIncrease, bind. rewrite HV. reflexivity.
  - unfold VolumeDecrease, bind. rewrite HV. reflexivity.
  - destruct (Get_ret "volume" w) as (r & w1 & Heq & Ht & _).
    rewrite Heq in Hget. injection Hget as -> ->. exact Ht.
Qed.

(** *** Queries against a player that has exited *)

Lemma bool_property_failure (prop : string) (fallback : bool)
    (w w' : World) (v : Value) (e : error) :
  Get prop w = Ret (v, Some e) w' →
  bool_property prop fallback w = Ret fallback w'.
Proof. intros Hget. unfold bool_property, bind. rewrite Hget. reflexivity. Qed.

Lemma bool_property_exited (prop : string) (fallback : bool) (w : World) :
  Exited w = true →
  ∃ w', bool_property prop fallback w = Ret fallback w' ∧ Exited w' = true.
Proof.
  intros Hx. eexists. split.
  - eapply bool_property_failure. apply Get_exited, Hx.
  - exact Hx.
Qed.

Lemma int_property_exited (prop : string) (fallback : Z) (w : World) :
  Exited w = true →
  ∃ w', int_property prop fallback w = Ret fallback w' ∧ Exited w' = true.
Proof.
  intros Hx. eexists. split.
  - unfold int_property, bind. rewrite (Get_exited _ _ Hx). reflexivity.
  - exact Hx.
Qed.

Lemma Title_exited (pos : Z) (w : World) :
  Exited w = true →
  ∃ w', Title pos w = Ret "-" w' ∧ Exited w' = true.
Proof.
  intros Hx. eexists. split.
  - unfold Title, bind. rewrite (Call_exited _ _ Hx). reflexivity.
  - exact Hx.
Qed.

Lemma LoopMode_exited (w : World) :
  Exited w = true →
  ∃ w', LoopMode w = Ret "" w' ∧ Exited w' = true.
Proof.
  intros Hx. eexists. split.
  - unfold LoopMode, bind. rewrite (Call_exited _ _ Hx). reflexivity.
  - exact Hx.
Qed.

Lemma Duration_exited (w : World) :
  Exited w = true →
  ∃ w', Duration w = Ret 0 w' ∧ Exited w' = true.
Proof.
  intros Hx. eexists. split.
  - unfold Duration, bind. rewrite (Get_exited _ _ Hx). simpl.
    rewrite Get_exited by exact Hx. reflexivity.
  - exact Hx.
Qed.

Lemma MediaType_exited (w : World) :
  Exited w = true →
  ∃ w', MediaType w = Ret "Audio" w' ∧ Exited w' = true.
Proof.
  intros Hx. eexists. split.
  - unfold MediaType, bind. rewrite (Get_exited _ _ Hx). reflexivity.
  - exact Hx.
Qed.

(** The progress line of a player that has exited. *)
Lemma updateProgressAndInfo_exited (width : Z) (w : World) :
  Exited w = true →
  0 <= width <= GoInt.max_int →
  ∃ title totaltime mtype blank w',
    Repeat " " (width ÷ 2) = Some blank ∧
    updateProgressAndInfo width w =
      Ret (title,
           " " +:+ stateGlyph false false true +:+ " "
             +:+ (FormatDuration 0 +:+ " |" +:+ blank +:+ "| " +:+ totaltime)
             +:+ " 0% (" +:+ mtype +:+ ")",
           ["volume 0"], None) w'.
Proof.
  intros Hx Hwidth.
  assert (Hhalf : 0 <= width ÷ 2 <= GoInt.max_int).
  { pose proof (Z.quot_pos width 2). pose proof (Z.quot_le_upper_bound width 2 width).
    unfold GoInt.max_int in *. lia. }
  assert (Hbar : barLengths width 0 1 = (0, width ÷ 2)).
  { unfold barLengths, GoInt.quot, GoInt.mul, GoInt.sub.
    rewrite (wrap_in_range (width ÷ 2)) by (unfold GoInt.in_range, GoInt.min_int; lia).
    rewrite Z.mul_0_r. change (GoInt.wrap 0) with 0. rewrite Z.quot_0_l by lia.
    change (GoInt.wrap 0) with 0. rewrite Z.sub_0_r.
    rewrite wrap_in_range by (unfold GoInt.in_range, GoInt.min_int; lia).
    destruct (Z.ltb_spec (width ÷ 2) 0); [lia | reflexivity]. }
  assert (Hblank : ∃ blank, Repeat " " (width ÷ 2) = Some blank).
  { unfold Repeat. destruct (Z.ltb_spec (width ÷ 2) 0); [lia | eauto]. }
  destruct Hblank as [blank Hblank].
  unfold updateProgressAndInfo, bind.
  destruct (int_property_exited "playlist-playing-pos" 0 w Hx) as (w1 & E1 & Hx1).
  unfold QueuePosition. rewrite E1. change (0 =? -1) with false. cbv iota.
  destruct (Title_exited 0 w1 Hx1) as (w2 & E2 & Hx2). rewrite E2.
  destruct (bool_property_exited "eof-reached" false w2 Hx2) as (w3 & E3 & Hx3).
  unfold Finished. rewrite E3.
  destruct (bool_property_exited "pause" false w3 Hx3) as (w4 & E4 & Hx4).
  unfold Paused. rewrite E4.
  destruct (bool_property_exited "paused-for-cache" true w4 Hx4) as (w5 & E5 & Hx5).
  unfold Buffering. rewrite E5.
  destruct (bool_property_exited "shuffle" false w5 Hx5) as (w6 & E6 & Hx6).
  unfold Shuffled. rewrite E6.
  destruct (LoopMode_exited w6 Hx6) as (w7 & E7 & Hx7). rewrite E7.
  destruct (bool_property_exited "mute" false w7 Hx7) as (w8 & E8 & Hx8).
  unfold Muted. rewrite E8.
  destruct (int_property_exited "volume" (-1) w8 Hx8) as (w9 & E9 & Hx9).
  unfold Volume. rewrite E9.
  destruct (Duration_exited w9 Hx9) as (w10 & E10 & Hx10). rewrite E10.
  destruct (int_property_exited "playback-time" 0 w10 Hx10) as (w11 & E11 & Hx11).
  unfold Position. rewrite E11.
  change (clampTimes 0 0) with (0, 1). cbv iota beta.
  destruct (GetDataFromURL "-") as [data|].
  - unfold renderInfo, log, modify, ret.
    set (w12 := with_trace _ w11).
    assert (Hx12 : Exited w12 = true) by exact Hx11.
    destruct (MediaType_exited w12 Hx12) as (w13 & E13 & Hx13).
    set (title := if bool_decide (ValuesGet data "title" = "") then "-"
                  else ValuesGet data "title").
    set (totaltime := if bool_decide (ValuesGet data "length" = "")
                      then FormatDuration 1 else ValuesGet data "length").
    destruct (bool_decide (ValuesGet data "mediatype" = "")).
    + rewrite E13, Hbar. cbv iota beta. rewrite Hblank.
      exists title, totaltime, "Audio", blank, w13.
      split; [reflexivity|]. reflexivity.
    + rewrite Hbar. cbv iota beta. rewrite Hblank.
      exists title, totaltime, (ValuesGet data "mediatype"), blank, w12.
      split; [reflexivity|]. reflexivity.
  - destruct (MediaType_exited w11 Hx11) as (w13 & E13 & Hx13).
    rewrite E13. unfold ret. rewrite Hbar. cbv iota beta. rewrite Hblank.
    exists "-", (FormatDuration 1), "Audio", blank, w13.
    split; [reflexivity|]. reflexivity.
Qed.

(** *** Buffering *)

(** C10. When the query of paused-for-cache fails [Buffering] returns
    true, whereas [Paused], [Muted] and [Shuffled] return false when
    theirs fail; so for a player that has exited the progress line shows
    the buffering glyph B (the playing glyph is [>]). *)
Theorem Buffering_falls_back_to_true (w : World) :
  (∀ v e w', Get "paused-for-cache" w = Ret (v, Some e) w' →
             Buffering w = Ret true w') ∧
  (∀ v e w', Get "pause" w = Ret (v, Some e) w' → Paused w = Ret false w') ∧
  (∀ v e w', Get "mute" w = Ret (v, Some e) w' → Muted w = Ret false w') ∧
  (∀ v e w', Get "shuffle" w = Ret (v, Some e) w' → Shuffled w = Ret false w') ∧
  (∀ width, Exited w = true → 0 <= width <= GoInt.max_int →
     ∃ title totaltime mtype blank w',
       Repeat " " (width ÷ 2) = Some blank ∧
       updateProgressAndInfo width w =
         Ret (title,
              " B " +:+ (FormatDuration 0 +:+ " |" +:+ blank +:+ "| " +:+ totaltime)
                +:+ " 0% (" +:+ mtype +:+ ")",
              ["volume 0"], None) w').
Proof.
  repeat split.
  - intros v e w'. apply bool_property_failure.
  - intros v e w'. apply bool_property_failure.
  - intros v e w'. apply bool_property_failure.
  - intros v e w'. apply bool_property_failure.
  - intros width Hx Hwidth. exact (updateProgressAndInfo_exited width w Hx Hwidth).
Qed.

End Steps.

Lemma Volume_failure_writes_nothing_witness :
  VolumeIncrease (Sim.dead 1) =
    Ret tt (with_trace [AGet "volume" (VNil, Some closed_error)] (Sim.dead 1)) ∧
  VolumeDecrease (Sim.dead 1) =
    Ret tt (with_trace [AGet "volume" (VNil, Some closed_error)] (Sim.dead 1)).
Proof.
  pose proof (Volume_failure_writes_nothing (Sim.dead 1)
                (with_trace [AGet "volume" (VNil, Some closed_error)] (Sim.dead 1))
                VNil closed_error eq_refl) as (_ & Hinc & Hdec & _).
  split; [exact Hinc | exact Hdec].
Defined.

Lemma Buffering_falls_back_to_true_witness :
  Buffering (Sim.dead 1) =
    Ret true (with_trace [AGet "paused-for-cache" (VNil, Some closed_error)] (Sim.dead 1)) ∧
  Paused (Sim.dead 1) =
    Ret false (with_trace [AGet "pause" (VNil, Some closed_error)] (Sim.dead 1)) ∧
  ∃ title totaltime mtype blank w',
    Repeat " " (20 ÷ 2) = Some blank ∧
    updateProgressAndInfo 20 (Sim.dead 1) =
      Ret (title,
           " B " +:+ (FormatDuration 0 +:+ " |" +:+ blank +:+ "| " +:+ totaltime)
             +:+ " 0% (" +:+ mtype +:+ ")",
           ["volume 0"], None) w'.
Proof.
  destruct (Buffering_falls_back_to_true (Sim.dead 1)) as (Hb & Hp & _ & _ & Hline).
  split; [|split].
  - exact (Hb VNil closed_error _ eq_refl).
  - exact (Hp VNil closed_error _ eq_refl).
  - apply Hline; [reflexivity | unfold GoInt.max_int; lia].
Defined.

(** ** The progress bar *)

Lemma clampTimes_spec (elapsed D : Z) :
  0 < D →
  clampTimes elapsed D = (Z.min (Z.max elapsed 0) D, D).
Proof.
  intros HD. unfold clampTimes.
  destruct (Z.ltb_spec elapsed 0); destruct (Z.leb_spec D 0); try lia.
  - destruct (Z.ltb_spec D 0); try lia. f_equal. lia.
  - destruct (Z.ltb_spec D elapsed); f_equal; lia.
Qed.

Lemma half_in_range (W D : Z) :
  0 < D → GoInt.in_range (W ÷ 2 * D) → GoInt.in_range (W ÷ 2).
Proof.
  unfold GoInt.in_range, GoInt.min_int, GoInt.max_int. intros HD Hr. nia.
Qed.

Example progressFill_half : progressFill 80 30 60 = 20.
Proof. reflexivity. Qed.

(** C4, as the code has it. For a duration [D > 0] and a width [W] whose
    half times [D] fits a 64-bit integer, the fill is 0 at position 0, is
    the width of the bar ([W / 2]) from position [D] on, a negative position
    counts as 0, and for [W >= 0] the fill is never negative nor more than
    the width of the bar. *)
Theorem progressFill_clamped (W D elapsed : Z) :
  0 < D →
  GoInt.in_range (W ÷ 2 * D) →
  progressFill W 0 D = 0 ∧
  (D <= elapsed → progressFill W elapsed D = W ÷ 2) ∧
  (elapsed < 0 → progressFill W elapsed D = progressFill W 0 D) ∧
  (0 <= W → 0 <= progressFill W elapsed D <= W ÷ 2).
Proof.
  intros HD Hr. pose proof (half_in_range W D HD Hr) as Hh.
  unfold progressFill. rewrite !clampTimes_spec by exact HD.
  unfold barLengths, GoInt.quot, GoInt.mul. cbn [fst].
  rewrite (wrap_in_range (W ÷ 2)) by exact Hh.
  split; [|split; [|split]].
  - rewrite Z.max_id, Z.min_l by lia.
    rewrite Z.mul_0_r. change (GoInt.wrap 0) with 0.
    rewrite Z.quot_0_l by lia. reflexivity.
  - intros He. rewrite Z.min_r by lia.
    rewrite (wrap_in_range _ Hr), Z.quot_mul by lia.
    apply wrap_in_range, Hh.
  - intros He. rewrite Z.max_r by lia. rewrite Z.max_id. reflexivity.
  - intros HW0.
    set (t := Z.min (Z.max elapsed 0) D).
    assert (Ht : 0 <= t <= D) by (unfold t; lia).
    assert (Hw : 0 <= W ÷ 2) by (apply Z.quot_pos; lia).
    assert (Hm : GoInt.in_range (W ÷ 2 * t)).
    { unfold GoInt.in_range, GoInt.min_int, GoInt.max_int in *. nia. }
    rewrite (wrap_in_range _ Hm).
    assert (Hq : 0 <= (W ÷ 2 * t) ÷ D) by (apply Z.quot_pos; nia).
    assert (Hq' : (W ÷ 2 * t) ÷ D <= W ÷ 2).
    { rewrite Z.quot_div_nonneg by nia.
      apply Z.div_le_upper_bound; [lia|].
      rewrite (Z.mul_comm D). apply Z.mul_le_mono_nonneg_l; lia. }
    rewrite wrap_in_range; [lia|].
    unfold GoInt.in_range, GoInt.min_int, GoInt.max_int in *. lia.
Qed.

Lemma progressFill_clamped_witness :
  progressFill 80 0 60 = 0 ∧
  (60 <= 75 → progressFill 80 75 60 = 80 ÷ 2) ∧
  (75 < 0 → progressFill 80 75 60 = progressFill 80 0 60) ∧
  (0 <= 80 → 0 <= progressFill 80 75 60 <= 80 ÷ 2).
Proof.
  apply (progressFill_clamped 80 60 75).
  - lia.
  - vm_compute. split; discriminate.
Defined.

(** C4, as the specification states it, fails when the product overflows:
    a view 8 cells wide and a position at the end of a duration of 2^62
    seconds give an empty bar, not the full one of 4 cells. *)
Lemma progressFill_overflow :
  0 < 2 ^ 62 ∧
  progressFill 8 (2 ^ 62) (2 ^ 62) = 0 ∧
  progressFill 8 (2 ^ 62) (2 ^ 62) ≠ 8 ÷ 2.
Proof. split; [lia|]. split; [reflexivity | discriminate]. Qed.

(** ** The loop mode *)

Module LoopFacts.

Import Loop.

Local Abbreviation World := (World Sim.Player).

Lemma LoopMode_answers (w : World) (p : Sim.Player) :
  Connection w = Some p → answers p →
  ∃ w', LoopMode w = Ret (mode_of p) w' ∧ Connection w' = Some p.
Proof.
  intros Hc (Hlive & Hacc & [vf Hf] & [vp Hp] & _).
  unfold LoopMode, bind, Call. rewrite Hc. simpl. rewrite Hlive.
  unfold Sim.run. rewrite Hacc, Hf. simpl. rewrite Hlive.
  unfold Sim.run. rewrite Hacc, Hp. simpl.
  unfold mode_of, printed. rewrite Hf, Hp.
  destruct (is_on (VString (Sim.shows p vf)));
    [|destruct (is_on (VString (Sim.shows p vp)))];
    eexists; split; reflexivity.
Qed.

Lemma Set_answers (prop : string) (v : Value) (w : World) (p : Sim.Player) :
  Connection w = Some p → Sim.closed p = false →
  ∃ w', Set_ prop v w = Ret None w' ∧ Connection w' = Some (Sim.store prop v p).
Proof.
  intros Hc Hlive. unfold Set_. rewrite Hc. simpl. rewrite Hlive.
  eexists. split; reflexivity.
Qed.

Lemma ToggleLoopMode_answers (w : World) (p : Sim.Player) :
  Connection w = Some p → answers p →
  ∃ w', ToggleLoopMode w = Ret tt w' ∧ Connection w' = Some (next p).
Proof.
  intros Hc Ha.
  destruct (LoopMode_answers w p Hc Ha) as (w0 & Hmode & Hc0).
  pose proof Ha as (Hlive & _).
  unfold ToggleLoopMode, bind. rewrite Hmode.
  unfold mode_of, next.
  destruct (is_on (printed "loop-file" p));
    [|destruct (is_on (printed "loop-playlist" p))]; simpl;
    unfold bind;
    do 2 (match goal with
          | Hc : Connection ?w = Some ?p |- context [Set_ ?prop ?v ?w] =>
              let w' := fresh "w" in
              let Hc' := fresh "Hc" in
              destruct (Set_answers prop v w p Hc Hlive) as (w' & -> & Hc')
          end);
    eexists; (split; [reflexivity | eassumption]).
Qed.

Lemma printed_written_file (a b : string) (p : Sim.Player) :
  printed "loop-file" (written a b p) = VString (Sim.shows p (VString a)).
Proof.
  unfold printed, written, Sim.store. simpl.
  rewrite lookup_insert_ne by done. rewrite lookup_insert_eq. reflexivity.
Qed.

Lemma printed_written_playlist (a b : string) (p : Sim.Player) :
  printed "loop-playlist" (written a b p) = VString (Sim.shows p (VString b)).
Proof.
  unfold printed, written, Sim.store. simpl.
  rewrite lookup_insert_eq. reflexivity.
Qed.

Lemma answers_written (a b : string) (p : Sim.Player) :
  answers p → answers (written a b p).
Proof.
  intros (Hlive & Hacc & _ & _ & Hyes & Hno).
  unfold answers, written, Sim.store. simpl.
  repeat split; try assumption.
  - rewrite lookup_insert_ne by done. rewrite lookup_insert_eq. eauto.
  - rewrite lookup_insert_eq. eauto.
Qed.

(** The three branches of [ToggleLoopMode], by the mode it reads. *)
Lemma next_cases (p : Sim.Player) :
  (mode_of p = "" ∧ next p = written "yes" "no" p) ∨
  (mode_of p = "loop-file" ∧ next p = written "no" "yes" p) ∨
  (mode_of p = "loop-playlist" ∧ next p = written "no" "no" p).
Proof.
  unfold mode_of, next.
  destruct (is_on (printed "loop-file" p));
    [|destruct (is_on (printed "loop-playlist" p))]; auto.
Qed.

Lemma mode_of_written (a b : string) (p : Sim.Player) :
  mode_of (written a b p) =
    if is_on (VString (Sim.shows p (VString a))) then "loop-file"
    else if is_on (VString (Sim.shows p (VString b))) then "loop-playlist"
    else "".
Proof.
  unfold mode_of. rewrite printed_written_file, printed_written_playlist.
  reflexivity.
Qed.

Lemma next_exclusive (p : Sim.Player) : answers p → exclusive (next p).
Proof.
  intros (_ & _ & _ & _ & Hyes & Hno). unfold exclusive.
  destruct (next_cases p) as [[_ ->]|[[_ ->]|[_ ->]]];
    rewrite printed_written_file, printed_written_playlist;
    rewrite ?Hyes, ?Hno; intros [? ?]; discriminate.
Qed.

Lemma answers_next (p : Sim.Player) : answers p → answers (next p).
Proof.
  intros Ha.
  destruct (next_cases p) as [[_ ->]|[[_ ->]|[_ ->]]]; apply answers_written, Ha.
Qed.

Lemma loopMode_answers (w : World) (p : Sim.Player) :
  Connection w = Some p → answers p → loopMode w = mode_of p.
Proof.
  intros Hc Ha. unfold loopMode.
  destruct (LoopMode_answers w p Hc Ha) as (w' & -> & _). reflexivity.
Qed.

Lemma toggles_exclusive (n : nat) (w : World) (p : Sim.Player) :
  Connection w = Some p → answers p → exclusive p →
  ∃ wn pn, toggles n w = Ret tt wn ∧ Connection wn = Some pn ∧
           answers pn ∧ exclusive pn.
Proof.
  revert w p. induction n as [|n IH]; intros w p Hc Ha Hex.
  - exists w, p. split; [reflexivity | auto].
  - destruct (ToggleLoopMode_answers w p Hc Ha) as (w1 & Hrun & Hc1).
    destruct (IH w1 (next p) Hc1 (answers_next p Ha) (next_exclusive p Ha))
      as (wn & pn & Hn & Hcn & Han & Hexn).
    exists wn, pn. simpl. unfold bind. rewrite Hrun. auto.
Qed.

(** What each branch leaves in the player. *)
Lemma next_spec (p : Sim.Player) :
  answers p →
  answers (next p) ∧
  (mode_of p = "" →
     is_on (printed "loop-file" (next p)) = true ∧
     is_on (printed "loop-playlist" (next p)) = false ∧
     mode_of (next p) = "loop-file") ∧
  (mode_of p = "loop-file" →
     is_on (printed "loop-file" (next p)) = false ∧
     is_on (printed "loop-playlist" (next p)) = true ∧
     mode_of (next p) = "loop-playlist") ∧
  (mode_of p = "loop-playlist" →
     is_on (printed "loop-file" (next p)) = false ∧
     is_on (printed "loop-playlist" (next p)) = false ∧
     mode_of (next p) = "").
Proof.
  intros Ha. split; [apply answers_next, Ha|].
  destruct Ha as (_ & _ & _ & _ & Hyes & Hno).
  destruct (next_cases p) as [[Hm ->]|[[Hm ->]|[Hm ->]]]; rewrite Hm;
    rewrite mode_of_written, printed_written_file, printed_written_playlist,
      ?Hyes, ?Hno;
    repeat split; intros; try discriminate; reflexivity.
Qed.

(** C3. Against a player that answers, [ToggleLoopMode] takes the mode
    the code reads from off to loop-file, from loop-file to loop-playlist
    and from loop-playlist to off, switching the two properties as it
    goes; after one or more toggles the two are never both on; and three
    toggles from off end in off. *)
Theorem ToggleLoopMode_three_cycle (w : World) :
  responsive w →
  ∃ w1, ToggleLoopMode w = Ret tt w1 ∧ responsive w1 ∧
    (loopMode w = "" →
       file_on w1 = true ∧ playlist_on w1 = false ∧ loopMode w1 = "loop-file") ∧
    (loopMode w = "loop-file" →
       file_on w1 = false ∧ playlist_on w1 = true ∧ loopMode w1 = "loop-playlist") ∧
    (loopMode w = "loop-playlist" →
       file_on w1 = false ∧ playlist_on w1 = false ∧ loopMode w1 = "") ∧
    (∀ n, ∃ wn, toggles n w1 = Ret tt wn ∧ responsive wn ∧
                ¬ (file_on wn = true ∧ playlist_on wn = true)) ∧
    (loopMode w = "" →
       ∃ w3, toggles 3 w = Ret tt w3 ∧
             loopMode w3 = "" ∧ file_on w3 = false ∧ playlist_on w3 = false).
Proof.
  intros (p & Hc & Ha).
  destruct (ToggleLoopMode_answers w p Hc Ha) as (w1 & Hrun & Hc1).
  destruct (next_spec p Ha) as (Ha1 & Hoff & Hfile & Hlist).
  exists w1. split; [exact Hrun|]. split; [exists (next p); auto|].
  rewrite (loopMode_answers w p Hc Ha), (loopMode_answers w1 _ Hc1 Ha1).
  unfold file_on at 1 2 3, playlist_on at 1 2 3. rewrite Hc1.
  split; [exact Hoff|]. split; [exact Hfile|]. split; [exact Hlist|]. split.
  - intros n.
    destruct (toggles_exclusive n w1 (next p) Hc1 Ha1 (next_exclusive p Ha))
      as (wn & pn & Hn & Hcn & Han & Hexn).
    exists wn. split; [exact Hn|]. split; [exists pn; auto|].
    unfold file_on, playlist_on. rewrite Hcn. exact Hexn.
  - intros Hm. destruct (Hoff Hm) as (_ & _ & Hm1).
    destruct (ToggleLoopMode_answers w1 _ Hc1 Ha1) as (w2 & Hrun2 & Hc2).
    destruct (next_spec _ Ha1) as (Ha2 & _ & Hfile2 & _).
    destruct (Hfile2 Hm1) as (_ & _ & Hm2).
    destruct (ToggleLoopMode_answers w2 _ Hc2 Ha2) as (w3 & Hrun3 & Hc3).
    destruct (next_spec _ Ha2) as (Ha3 & _ & _ & Hlist3).
    destruct (Hlist3 Hm2) as (Hf3 & Hp3 & Hm3).
    exists w3. simpl. unfold bind. rewrite Hrun, Hrun2, Hrun3.
    split; [reflexivity|].
    rewrite (loopMode_answers w3 _ Hc3 Ha3).
    unfold file_on, playlist_on. rewrite Hc3. auto.
Qed.

End LoopFacts.

Lemma ToggleLoopMode_three_cycle_witness :
  ∃ w3, Loop.toggles 3 (Loop.started "no" "no") = Ret tt w3 ∧
        Loop.loopMode w3 = "" ∧ Loop.file_on w3 = false ∧ Loop.playlist_on w3 = false.
Proof.
  assert (Hresp : Loop.responsive (Loop.started "no" "no")).
  { eexists. split; [reflexivity|].
    unfold Loop.answers. repeat split; try reflexivity.
    - exists (VString "no"). reflexivity.
    - exists (VString "no"). reflexivity. }
  destruct (LoopFacts.ToggleLoopMode_three_cycle _ Hresp) as (w1 & _ & _ & _ & _ & _ & _ & Hthree).
  apply Hthree. reflexivity.
Defined.

(** ** The track monitor *)

Section Monitor.

Context {C : Type} `{!Transport C} `{!Externals}.

Local Abbreviation World := (World C).
Local Abbreviation M := (M (C := C)).
Local Abbreviation quiet := (quiet (C := C)).

(** The body of the loop of [startMonitor] always returns: it reads the
    title under the id, empty if there is none, forgets the id, and
    publishes the title if [ErrorEvent] has room. *)
Lemma monitorError_ret (id : Z) (w : World) :
  ∃ w', monitorError id w = Ret tt w' ∧
    monitor w' = delete id (monitor w) ∧
    ErrorEvent (Events w') =
      Channel.try_send (default "" (monitor w !! id)) (ErrorEvent (Events w)) ∧
    ErrorNumber (Events w') = ErrorNumber (Events w) ∧
    FileNumber (Events w') = FileNumber (Events w) ∧
    trace w' = trace w.
Proof. eexists. split; [reflexivity|]. simpl. auto. Qed.

Lemma clearMonitor_ret (w : World) :
  clearMonitor w = Ret tt (with_monitor ∅ w).
Proof. reflexivity. Qed.

(** With an empty map every turn of [startMonitor] publishes the empty
    title, if there is room for it. *)
Lemma startMonitor_turns_empty (ids : list Z) (w : World) :
  monitor w = ∅ →
  buf (ErrorNumber (Events w)) = ids →
  ∃ w', startMonitor_turns (length ids) w = Ret tt w' ∧
    monitor w' = ∅ ∧
    buf (ErrorNumber (Events w')) = [] ∧
    ErrorEvent (Events w') =
      Nat.iter (length ids) (Channel.try_send "") (ErrorEvent (Events w)) ∧
    trace w' = trace w.
Proof.
  revert w. induction ids as [|id ids IH]; intros w Hm Hids.
  - exists w. simpl. auto.
  - cbn [length startMonitor_turns]. unfold bind, startMonitor_step, bind, recv.
    unfold Channel.pop. rewrite Hids.
    set (w0 := with_Events _ w).
    destruct (monitorError_ret id w0) as (w1 & -> & Hm1 & Hee & Hen & _ & Ht).
    destruct (IH w1) as (w' & Hrun & Hm' & Hb' & He' & Ht').
    + rewrite Hm1. subst w0. simpl. rewrite Hm. apply delete_empty.
    + rewrite Hen. reflexivity.
    + exists w'. split; [exact Hrun|]. split; [exact Hm'|]. split; [exact Hb'|].
      split.
      * rewrite He', Hee. cbn [length]. rewrite Nat.iter_succ_r.
        subst w0. simpl. rewrite Hm, lookup_empty. reflexivity.
      * rewrite Ht', Ht. reflexivity.
Qed.

(** C5, as the code has it. After [clearMonitor] the map is empty and
    stays so, and each error id that was waiting is still reported: the
    lookup misses, and the empty title it yields is published to
    [ErrorEvent] whenever the channel has room.  No title recorded before
    the clear is published. *)
Theorem clearMonitor_then_errors (w : World) :
  ∃ w1 w2,
    clearMonitor w = Ret tt w1 ∧
    startMonitor w1 = Ret tt w2 ∧
    monitor w2 = ∅ ∧
    buf (ErrorNumber (Events w2)) = [] ∧
    ErrorEvent (Events w2) =
      Nat.iter (length (buf (ErrorNumber (Events w))))
               (Channel.try_send "") (ErrorEvent (Events w)).
Proof.
  exists (with_monitor ∅ w).
  destruct (startMonitor_turns_empty (buf (ErrorNumber (Events w))) (with_monitor ∅ w))
    as (w2 & Hrun & Hm & Hb & He & _); [reflexivity | reflexivity |].
  exists w2. split; [reflexivity|]. split; [exact Hrun|]. auto.
Qed.

(** *** Steps that leave the monitor alone *)

Lemma frame_refl (w : World) : frame w w.
Proof. unfold frame. auto. Qed.

Lemma frame_trans (w1 w2 w3 : World) : frame w1 w2 → frame w2 w3 → frame w1 w3.
Proof.
  intros (Hm & He & Ht) (Hm' & He' & Ht'). unfold frame.
  rewrite Hm', He'. auto.
Qed.

Lemma quiet_ret {A} (a : A) : quiet (ret a).
Proof. intros w. apply frame_refl. Qed.

Lemma quiet_panic {A} (msg : string) : quiet (panic (A := A) msg).
Proof. intros w. exact I. Qed.

Lemma quiet_bind {A B} (m : M A) (k : A → M B) :
  quiet m → (∀ a, quiet (k a)) → quiet (bind m k).
Proof.
  intros Hm Hk w. unfold bind. specialize (Hm w).
  destruct (m w) as [a w1| |w1]; simpl in *; auto.
  specialize (Hk a w1).
  destruct (k a w1) as [b w2| |w2]; simpl in *; eauto using frame_trans.
Qed.

Lemma quiet_Set (prop : string) (v : Value) : quiet (Set_ prop v).
Proof.
  intros w. unfold Set_.
  destruct (match Connection w with Some _ => _ | None => _ end) as [e conn].
  simpl. unfold frame. simpl. repeat split; auto.
  intros msg Hin. apply elem_of_app in Hin as [Hin|Hin]; [exact Hin|].
  apply list_elem_of_singleton in Hin. discriminate.
Qed.

Lemma quiet_as_float (v : Value) : quiet (as_float v).
Proof. destruct v; first [apply quiet_ret | apply quiet_panic]. Qed.

Lemma quiet_as_string (v : Value) : quiet (as_string v).
Proof. destruct v; first [apply quiet_ret | apply quiet_panic]. Qed.

Lemma quiet_send_DataEvent (v : PlaylistData) : quiet (send DataEvent with_DataEvent v).
Proof.
  intros w. unfold send. destruct (Channel.has_room _); simpl; unfold frame; auto.
Qed.

Lemma quiet_send_FileNumber (v : Z) : quiet (send FileNumber with_FileNumber v).
Proof.
  intros w. unfold send. destruct (Channel.has_room _); simpl; unfold frame; auto.
Qed.

Lemma quiet_send_ErrorNumber (v : Z) : quiet (send ErrorNumber with_ErrorNumber v).
Proof.
  intros w. unfold send. destruct (Channel.has_room _); simpl; unfold frame; auto.
Qed.

Lemma quiet_send_FileLoadedEvent (v : unit) :
  quiet (send FileLoadedEvent with_FileLoadedEvent v).
Proof.
  intros w. unfold send. destruct (Channel.has_room _); simpl; unfold frame; auto.
Qed.

(** The event listener never touches the map, [ErrorEvent] or the
    screen, whatever the event. *)
Lemma quiet_handleEvent (event : Event) : quiet (handleEvent event).
Proof.
  unfold handleEvent.
  destruct (playlist_of event); [apply quiet_send_DataEvent|].
  repeat first
    [ apply quiet_ret
    | apply quiet_Set
    | apply quiet_as_float
    | apply quiet_as_string
    | apply quiet_send_FileNumber
    | apply quiet_send_ErrorNumber
    | apply quiet_send_FileLoadedEvent
    | apply quiet_bind; [|intros ?]
    | match goal with |- quiet (if ?b then _ else _) => destruct b end ].
Qed.

(** *** Any later course of events *)

Lemma shown_inj (a b : string) : shown a = shown b → a = b.
Proof. unfold shown. simpl. intros Heq. injection Heq. auto. Qed.

Lemma unattributed_frame (X : string) (w w' : World) :
  frame w w' → unattributed X w → unattributed X w'.
Proof.
  intros (Hm & He & Ht) (Hmap & Hbuf & Htr). unfold unattributed.
  rewrite Hm, He. split; [exact Hmap|]. split; [exact Hbuf|].
  intros Hin. apply Htr, Ht, Hin.
Qed.

Lemma step_unattributed (X : string) (s : Step) (w : World) :
  X ≠ "" → s ≠ SAdd X → unattributed X w →
  reaches (step s w) (unattributed X).
Proof.
  intros HX Hs (Hmap & Hbuf & Htr).
  assert (Hlog : ∀ a, a ≠ shown X → shown X ∉ trace w ++ [a]).
  { intros a Ha. rewrite elem_of_app, list_elem_of_singleton.
    intros [Hin|Heq]; [exact (Htr Hin) | exact (Ha (eq_sym Heq))]. }
  destruct s as [title| |event| |]; simpl.
  - assert (Hne : title ≠ X) by congruence.
    unfold addToMonitor, bind, log, modify, try_recv. simpl.
    destruct (Channel.pop _) as [[id c]|]; simpl;
      (split; [|split; [exact Hbuf | apply Hlog; discriminate]]); simpl.
    + intros id'. destruct (decide (id = id')) as [->|Hid].
      * rewrite lookup_insert_eq. congruence.
      * rewrite lookup_insert_ne by exact Hid. apply Hmap.
    + exact Hmap.
  - split; [|split; [exact Hbuf | exact Htr]]. simpl.
    intros id. rewrite lookup_empty. discriminate.
  - pose proof (quiet_handleEvent event w) as Hq.
    assert (Hun : unattributed X w) by (split; [|split]; assumption).
    destruct (handleEvent event w) as [[] w'| |w']; simpl in *;
      eauto using unattributed_frame.
  - unfold startMonitor_step, bind, recv.
    destruct (Channel.pop _) as [[id c]|]; simpl;
      [|split; [|split]; assumption].
    split; [|split; [|exact Htr]]; simpl.
    + intros id'. destruct (decide (id = id')) as [->|Hid].
      * rewrite lookup_delete_eq. discriminate.
      * rewrite lookup_delete_ne by exact Hid. apply Hmap.
    + unfold Channel.try_send.
      destruct (Channel.has_room _); [|exact Hbuf].
      simpl. rewrite elem_of_app, list_elem_of_singleton. intros [Hin|Heq]; [auto|].
      destruct (monitor w !! id) as [t|] eqn:Hl; simpl in Heq.
      * apply (Hmap id). congruence.
      * congruence.
  - unfold monitorMPVEvents_error, bind, recv, Channel.pop.
    destruct (buf (ErrorEvent (Events w))) as [|msg rest] eqn:Hb; simpl.
    + split; [exact Hmap|]. split; [|exact Htr]. rewrite Hb. apply not_elem_of_nil.
    + rewrite not_elem_of_cons in Hbuf. destruct Hbuf as [Hmsg Hrest].
      split; [exact Hmap|]. split; [exact Hrest|]. simpl.
      apply Hlog. intros Heq. apply shown_inj in Heq. congruence.
Qed.

Lemma run_unattributed (X : string) (steps : list Step) (w : World) :
  X ≠ "" → SAdd X ∉ steps → unattributed X w →
  reaches (run steps w) (unattributed X).
Proof.
  intros HX. revert w. induction steps as [|s rest IH]; intros w Hno Hun.
  - exact Hun.
  - rewrite not_elem_of_cons in Hno. destruct Hno as [Hs Hrest].
    simpl. unfold bind.
    pose proof (step_unattributed X s w HX ltac:(congruence) Hun) as Hstep.
    destruct (step s w) as [[] w1| |w1]; simpl in *; auto.
Qed.

(** C7. With no id waiting in [FileNumber], [addToMonitor X] returns
    without blocking and leaves the map and the channels as they were.
    An error drained next for any id reports the title recorded under
    that very id before the call (the empty title if there was none).
    And if X is a title and was not recorded or reported before, then
    whatever happens afterwards, short of handing X to the monitor again,
    no id is ever recorded with X and no error names X. *)
Theorem addToMonitor_without_slot (X : string) (w : World) :
  buf (FileNumber (Events w)) = [] →
  ∃ w1, addToMonitor X w = Ret tt w1 ∧
    monitor w1 = monitor w ∧
    Events w1 = Events w ∧
    (∀ id, ∃ w2, monitorError id w1 = Ret tt w2 ∧
       ErrorEvent (Events w2) =
         Channel.try_send (default "" (monitor w !! id)) (ErrorEvent (Events w))) ∧
    (∀ steps, X ≠ "" → unattributed X w → SAdd X ∉ steps →
       reaches (run steps w1) (unattributed X)).
Proof.
  intros Hnone.
  exists (with_trace (trace w ++ [AMonitor X]) w).
  split.
  { unfold addToMonitor, bind, log, modify, try_recv, Channel.pop. simpl.
    rewrite Hnone. reflexivity. }
  split; [reflexivity|]. split; [reflexivity|]. split.
  - intros id. eexists. split; reflexivity.
  - intros steps HX (Hmap & Hbuf & Htr) Hsteps.
    apply run_unattributed; [exact HX | exact Hsteps |].
    split; [exact Hmap|]. split; [exact Hbuf|]. simpl.
    rewrite elem_of_app, list_elem_of_singleton.
    intros [Hin|Heq]; [exact (Htr Hin) | discriminate].
Qed.

End Monitor.

(** C5, as the specification states it, fails: with the title of id 7
    recorded and an error for 7 waiting, [ClearMonitor] followed by the
    monitor's turn publishes the empty title, which the user interface then
    shows as an error. *)
Lemma clearMonitor_error_is_published :
  let w := Sim.fresh 1
           |> with_monitor {[ 7 := "Song A" ]}
           |> with_Events (with_ErrorNumber (Chan 1 [7]) (Sim.no_events 1)) in
  ∃ w2 w3,
    (clearMonitor ;; startMonitor) w = Ret tt w2 ∧
    buf (ErrorEvent (Events w)) = [] ∧
    buf (ErrorEvent (Events w2)) = [""] ∧
    monitorMPVEvents_error w2 = Ret tt w3 ∧
    trace w3 = [AShowError "Player: Unable to play "].
Proof. do 2 eexists. repeat split; reflexivity. Qed.

Lemma addToMonitor_without_slot_witness :
  let w := with_monitor {[ 3 := "Song A" ]} (Sim.fresh 4) in
  let later := [SEvent (end_file 3 "loading failed"); SMonitor; SShow;
                SEvent (start_file 4); SAdd "Song B";
                SEvent (end_file 9 "loading failed"); SMonitor; SShow] in
  ∃ w1, addToMonitor "X" w = Ret tt w1 ∧
        monitor w1 = monitor w ∧
        reaches (run later w1) (unattributed "X").
Proof.
  intros w later.
  destruct (addToMonitor_without_slot "X" w eq_refl) as (w1 & Hrun & Hm & _ & _ & Hlater).
  exists w1. split; [exact Hrun|]. split; [exact Hm|].
  apply Hlater.
  - discriminate.
  - split; [|split].
    + intros id. simpl. destruct (decide (id = 3)) as [->|Hid].
      * rewrite lookup_singleton_eq. discriminate.
      * rewrite lookup_singleton_ne by congruence. discriminate.
    + apply not_elem_of_nil.
    + apply not_elem_of_nil.
  - unfold later. rewrite !not_elem_of_cons.
    repeat split; try discriminate. apply not_elem_of_nil.
Defined.

(** The same course of events, run: the error for id 3 names Song A, the
    error for the unknown id 9 names nothing, and X is nowhere. *)
Example monitor_course :
  (λ w', (errors_shown (trace w'), map_to_list (monitor w'))) <$>
    final ((addToMonitor "X" ;;
            run [SEvent (end_file 3 "loading failed"); SMonitor; SShow;
                 SEvent (start_file 4); SAdd "Song B";
                 SEvent (end_file 9 "loading failed"); SMonitor; SShow])
             (with_monitor {[ 3 := "Song A" ]} (Sim.fresh 4)))
  = Some (["Player: Unable to play Song A"; "Player: Unable to play "],
          [(4, "Song B")]).
Proof. vm_compute. reflexivity. Qed.

(** ** The event listener *)

Section Listener.

Context {C : Type} `{!Transport C} `{!Externals}.

Local Abbreviation World := (World C).

(** C6, as the code has it. A change of the playlist (an event with id 1
    whose data is a list) is sent whole, one entry per element, with a
    plain channel send: if [DataEvent] has room the playlist is queued
    behind the ones not yet received, and nothing else changes; if it is
    full the listener blocks there. *)
Theorem playlist_event_is_sent (event : Event) (data : list Value) (w : World) :
  ID event = 1 →
  Data event = VList data →
  let pldata := map (λ d, match d with VMap p => Some p | _ => None end) data in
  length pldata = length data ∧
  handleEvent event w =
    if Channel.has_room (DataEvent (Events w))
    then Ret tt (with_Events
                   (with_DataEvent (Chan (cap (DataEvent (Events w)))
                                         (buf (DataEvent (Events w)) ++ [pldata]))
                                   (Events w)) w)
    else Block w.
Proof.
  intros Hid Hdata pldata. split; [apply length_map|].
  unfold handleEvent, playlist_of. rewrite Hid, Hdata. reflexivity.
Qed.

End Listener.

Lemma playlist_event_is_sent_witness :
  let w := with_playlists 2 [[Some [("filename", VString "a")]]] (Sim.fresh 1) in
  handleEvent (playlist_changed ["a"; "b"]) w =
    Ret tt (with_playlists 2 [[Some [("filename", VString "a")]];
                              [Some [("filename", VString "a")];
                               Some [("filename", VString "b")]]] w).
Proof.
  intros w.
  destruct (playlist_event_is_sent (playlist_changed ["a"; "b"])
              [VMap [("filename", VString "a")]; VMap [("filename", VString "b")]]
              w eq_refl eq_refl) as [_ Hrun].
  exact Hrun.
Defined.

(** C6, as the specification states it, fails: with a playlist waiting in a
    [DataEvent] of capacity 1 the listener blocks on the next change, and
    the playlist that was waiting is still the one to be received. *)
Lemma playlist_event_blocks :
  let w := with_playlists 1 [[Some [("filename", VString "a")]]] (Sim.fresh 1) in
  handleEvent (playlist_changed ["a"; "b"]) w = Block w ∧
  buf (DataEvent (Events w)) = [[Some [("filename", VString "a")]]].
Proof. split; reflexivity. Qed.

(** ** The playlist loader *)

Section Playlist.

Context {C : Type} `{!Transport C} `{!Externals}.

Local Abbreviation World := (World C).
Local Abbreviation M := (M (C := C)).

Lemma loading_app (t1 t2 : list Action) :
  loading (t1 ++ t2) = loading t1 ++ loading t2.
Proof. apply omap_app. Qed.

Lemma title_default (t : string) :
  (if bool_decide (t = "") then "" else t) = t.
Proof. case_bool_decide; congruence. Qed.

(** One turn of the scanning loop, by what the line asks for. *)
Lemma scanPlaylist_cons (renewLiveURL : string → bool → M bool)
    (line : string) (rest : list string) (filesAdded : Z) (w : World) :
  scanPlaylist renewLiveURL (line :: rest) filesAdded w =
    match entry_of line with
    | None => scanPlaylist renewLiveURL rest filesAdded w
    | Some e =>
        (renewed <-
           (if live e then
              renewed <- renewLiveURL (uri e) (audio e) ;;
              log (ARenew (uri e) (audio e) renewed) ;;
              ret renewed
            else ret false) ;;
         if renewed : bool then scanPlaylist renewLiveURL rest filesAdded
         else
           r <- Call (loadfile_args (uri e) (options e)) ;;
           match r.2 with
           | Some err => ret (inl err)
           | None =>
               addToMonitor (title e) ;;
               scanPlaylist renewLiveURL rest (GoInt.add filesAdded 1)
           end) w
    end.
Proof.
  unfold entry_of, is_content. cbn [scanPlaylist].
  destruct (HasPrefix line "#"); [reflexivity|].
  destruct (bool_decide (line = "")); [reflexivity|].
  cbn [orb negb andb].
  destruct (IsValidURL line) as [u|]; [|reflexivity].
  cbn [mbind option_bind live uri audio options title].
  rewrite title_default. reflexivity.
Qed.

Lemma log_ret (a : Action) (w : World) :
  log a w = Ret tt (with_trace (trace w ++ [a]) w).
Proof. reflexivity. Qed.

(** A call of the callback as the scan makes it, when the callback
    answers [b] and makes no request of its own. *)
Lemma renewal_reports (renewLiveURL : string → bool → M bool) (e : Entry)
    (b : bool) (w : World) :
  reports renewLiveURL (uri e) (audio e) b →
  ∃ w1,
    (renewed <- renewLiveURL (uri e) (audio e) ;;
     log (ARenew (uri e) (audio e) renewed) ;;
     ret renewed) w = Ret b w1 ∧
    loading (trace w1) = loading (trace w).
Proof.
  intros Ha. destruct (Ha w) as (w' & Hrun & Ht).
  unfold bind. rewrite Hrun, log_ret. eexists. split; [reflexivity|].
  simpl. rewrite loading_app, Ht. simpl. apply app_nil_r.
Qed.

(** Over lines that are passed over, the scan is the calls of the
    callback and nothing else, and it adds nothing to the count. *)
Lemma scanPlaylist_skipped (renewLiveURL : string → bool → M bool)
    (rest : list string) (filesAdded : Z) (w : World) :
  Forall (skipped renewLiveURL) rest →
  ∃ w', renewing renewLiveURL (omap entry_of rest) w = Ret tt w' ∧
        scanPlaylist renewLiveURL rest filesAdded w = Ret (inr filesAdded) w'.
Proof.
  revert w. induction rest as [|line rest IH]; intros w Hall.
  - exists w. split; reflexivity.
  - apply Forall_cons in Hall as [Hline Hrest].
    rewrite scanPlaylist_cons. cbn [omap list_omap]. unfold skipped in Hline.
    destruct (entry_of line) as [e|]; [|apply IH, Hrest].
    destruct Hline as [Hlive Hrenews]. destruct (Hrenews w) as (w1 & Hrun).
    destruct (IH (with_trace (trace w1 ++ [ARenew (uri e) (audio e) true]) w1) Hrest)
      as (w' & Hr & Hs).
    exists w'. split.
    + cbn [renewing]. unfold bind. rewrite Hrun. exact Hr.
    + rewrite Hlive. unfold bind. rewrite Hrun. exact Hs.
Qed.

(** Calls of a callback that makes no request leave no loading behind. *)
Lemma renewing_silent (renewLiveURL : string → bool → M bool)
    (entries : list Entry) :
  ∀ (w w' : World),
    Forall (λ e, reports renewLiveURL (uri e) (audio e) true) entries →
    renewing renewLiveURL entries w = Ret tt w' →
    loading (trace w') = loading (trace w).
Proof.
  induction entries as [|e entries IH]; intros w w' Hall Hrun.
  - injection Hrun as <-. reflexivity.
  - apply Forall_cons in Hall as [He Hall].
    destruct (He w) as (w1 & Hcall & Ht1).
    cbn [renewing] in Hrun. unfold bind in Hrun. rewrite Hcall in Hrun.
    apply (IH _ _ Hall) in Hrun. rewrite Hrun. simpl.
    rewrite loading_app, Ht1. simpl. apply app_nil_r.
Qed.

(** What comes before the scan leaves no loading behind. *)
Lemma replacing_ret (replace : bool) (w : World) :
  ∃ w0,
    before_scan replace w = Ret tt w0 ∧
    loading (trace w0) = loading (trace w) ∧
    fs w0 = fs w.
Proof.
  unfold before_scan. destruct replace; [|exists w; auto].
  unfold bind.
  destruct (Call_ret [VString "playlist-clear"] w) as (r1 & w1 & -> & Ht1 & _ & _ & Hf1).
  destruct (Call_ret [VString "playlist-remove"; VString "current"] w1)
    as (r2 & w2 & -> & Ht2 & _ & _ & Hf2).
  eexists. split; [reflexivity|]. simpl.
  rewrite Ht2, Ht1, !loading_app, Hf2, Hf1. simpl. rewrite !app_nil_r. auto.
Qed.

(** [LoadPlaylist] on a file that opens: what comes before the scan, then
    the scan. *)
Lemma LoadPlaylist_opened (plpath : string) (pl : File) (replace : bool)
    (renewLiveURL : string → bool → M bool) (w w0 : World) :
  fs w !! plpath = Some pl →
  before_scan replace w = Ret tt w0 →
  fs w0 = fs w →
  LoadPlaylist plpath replace renewLiveURL w =
    (scanned <- scanPlaylist renewLiveURL (lines pl) 0 ;;
     match scanned with
     | inl err => ret (Some err)
     | inr filesAdded =>
         match scanErr pl with
         | Some err =>
             if bool_decide (err = EOF) then
               if filesAdded =? 0 then ret (Some no_files_error) else ret None
             else ret (Some err)
         | None =>
             if filesAdded =? 0 then ret (Some no_files_error) else ret None
         end
     end) w0.
Proof.
  intros Hopen Hpre Hf0. unfold LoadPlaylist. unfold before_scan in Hpre.
  unfold bind at 1. rewrite Hpre.
  unfold bind at 1. unfold gets. rewrite Hf0, Hopen. reflexivity.
Qed.

(** C2, as the code has it. When every line the scanner yields is passed
    over, [LoadPlaylist] issues no [loadfile] request of its own: the
    world it leaves is the one left by what comes before the scan and
    then by the calls of the renewal callback, one for each live entry in
    the order of the lines, so the only requests made are those the
    callback makes, and there is none at all if the callback makes none.
    It returns an error: the one the scanner ended with if there is one,
    and the no-files error only when the scanner ended cleanly. *)
Theorem LoadPlaylist_nothing_added (plpath : string) (pl : File) (replace : bool)
    (renewLiveURL : string → bool → M bool) (w : World) :
  fs w !! plpath = Some pl →
  Forall (skipped renewLiveURL) (lines pl) →
  ∃ w0 w',
    before_scan replace w = Ret tt w0 ∧
    renewing renewLiveURL (omap entry_of (lines pl)) w0 = Ret tt w' ∧
    LoadPlaylist plpath replace renewLiveURL w = Ret (Some (nothing_added pl)) w' ∧
    loading (trace w0) = loading (trace w) ∧
    (Forall (λ e, reports renewLiveURL (uri e) (audio e) true)
            (omap entry_of (lines pl)) →
     loading (trace w') = loading (trace w)) ∧
    (scanErr pl = None → nothing_added pl = no_files_error).
Proof.
  intros Hopen Hall.
  destruct (replacing_ret replace w) as (w0 & Hpre & Ht0 & Hf0).
  destruct (scanPlaylist_skipped renewLiveURL (lines pl) 0 w0 Hall) as (w' & Hr & Hscan).
  exists w0, w'. split; [exact Hpre|]. split; [exact Hr|]. split; [|split; [|split]].
  - rewrite (LoadPlaylist_opened plpath pl replace renewLiveURL w w0 Hopen Hpre Hf0).
    unfold bind. rewrite Hscan. change (0 =? 0) with true. cbv iota.
    unfold nothing_added. destruct (scanErr pl) as [err|]; [|reflexivity].
    destruct (bool_decide (err = EOF)); reflexivity.
  - exact Ht0.
  - intros Hsilent. rewrite <- Ht0. exact (renewing_silent _ _ _ _ Hsilent Hr).
  - unfold nothing_added. intros ->. reflexivity.
Qed.

(** *** Lines that are all loaded *)


Lemma loading_call (uri options : string) (r : Reply) :
  loading [ACall (loadfile_args uri options) r] =
    [Issued uri options (bool_decide (r.2 = None))].
Proof. reflexivity. Qed.



(** *** Loading one file *)

(** [LoadFile] with at least one file: one request, then the title handed
    to the monitor if it succeeded; no error is shown. *)
Lemma LoadFile_loads (title : string) (duration : Z) (audio : bool)
    (f0 : string) (more : list string) (w : World) :
  let options := file_options title duration audio (f0 :: more) in
  let request ok := Issued (f0 +:+ "&options=" +:+ QueryEscape options) options ok in
  ∃ r w', LoadFile title duration audio (f0 :: more) w = Ret r w' ∧
    errors_shown (trace w') = errors_shown (trace w) ∧
    ((r = None ∧
      loading (trace w') = loading (trace w) ++ [request true; Registered title])
     ∨
     (r = Some (Err ("MPV: Unable to load " +:+ title)) ∧
      loading (trace w') = loading (trace w) ++ [request false] ∧
      monitor w' = monitor w ∧ Events w' = Events w)).
Proof.
  intros options request.
  assert (Hrun : LoadFile title duration audio (f0 :: more) w =
    (r <- Call (loadfile_args (f0 +:+ "&options=" +:+ QueryEscape options) options) ;;
     match r.2 with
     | Some _ => ret (Some (Err ("MPV: Unable to load " +:+ title)))
     | None => addToMonitor title ;; ret None
     end) w).
  { unfold LoadFile, options, file_options.
    destruct more as [|f1 [|f2 rest]]; reflexivity. }
  rewrite Hrun. unfold bind at 1.
  destruct (Call_ret (loadfile_args (f0 +:+ "&options=" +:+ QueryEscape options) options) w)
    as ([v err] & w1 & -> & Ht1 & Hm1 & He1 & _).
  assert (Hs1 : errors_shown (trace w1) = errors_shown (trace w)).
  { rewrite Ht1. unfold errors_shown. rewrite omap_app. simpl. apply app_nil_r. }
  cbn [snd]. destruct err as [err|].
  - exists (Some (Err ("MPV: Unable to load " +:+ title))), w1.
    split; [reflexivity|]. split; [exact Hs1|]. right. split; [reflexivity|].
    rewrite Ht1, loading_app, loading_call. auto.
  - unfold bind.
    destruct (addToMonitor_ret title w1) as (w2 & -> & Ht2 & _).
    exists None, w2. split; [reflexivity|]. split.
    + rewrite Ht2. unfold errors_shown in *. rewrite omap_app, Hs1. simpl.
      apply app_nil_r.
    + left. split; [reflexivity|].
      rewrite Ht2, loading_app, Ht1, loading_app, loading_call, <- app_assoc.
      reflexivity.
Qed.

End Playlist.

(** *** The callback of the user interface *)

Section Renewal.

Context {C : Type} `{!Transport C} `{!Externals}.

Variable CheckLiveURL : string → bool → string * bool.
Variable VideoLoadParams : string → bool → error + UI.VideoData * list string.

Local Abbreviation World := (World C).
Local Abbreviation checkLiveURL := (UI.checkLiveURL CheckLiveURL VideoLoadParams).

(** A URL that has not expired: nothing happens. *)
Lemma checkLiveURL_fresh (uri id : string) (audio : bool) (w : World) :
  CheckLiveURL uri audio = (id, false) →
  checkLiveURL uri audio w = Ret false w.
Proof. intros Hc. unfold UI.checkLiveURL. rewrite Hc. reflexivity. Qed.


(** A URL that has expired, by what is found of the video. *)
Lemma checkLiveURL_expired (uri id : string) (audio : bool) (w : World) :
  CheckLiveURL uri audio = (id, true) →
  match VideoLoadParams id audio with
  | inl _ =>
      checkLiveURL uri audio w =
        Ret true
          (with_trace
             (trace w ++ [AShowError ("Player: Unable to renew live URL for video "
                                      +:+ id)]) w)
  | inr (video, []) => panics (checkLiveURL uri audio w) = true
  | inr (video, f0 :: more) =>
      let options :=
        file_options (UI.Title video) (UI.LengthSeconds video)
          (audio && UI.LiveNow video) (f0 :: more) in
      ∃ ok w', checkLiveURL uri audio w = Ret true w' ∧
        errors_shown (trace w') = errors_shown (trace w) ∧
        loading (trace w') =
          loading (trace w)
            ++ Issued (f0 +:+ "&options=" +:+ QueryEscape options) options ok
            :: (if ok then [Registered (UI.Title video)] else [])
  end.
Proof.
  intros Hc. unfold UI.checkLiveURL, UI.loadVideo. rewrite Hc.
  destruct (VideoLoadParams id audio) as [err|[video [|f0 more]]].
  - reflexivity.
  - reflexivity.
  - cbv zeta.
    destruct (LoadFile_loads (UI.Title video) (UI.LengthSeconds video)
                (audio && UI.LiveNow video) f0 more w)
      as (r & w' & Hrun & Hs & Hres).
    unfold bind, ret. rewrite Hrun. cbn [snd].
    destruct Hres as [[_ Ht]|(_ & Ht & _)].
    + exists true, w'. split; [reflexivity|]. split; [exact Hs | exact Ht].
    + exists false, w'. split; [reflexivity|]. split; [exact Hs | exact Ht].
Qed.

Lemma checkLiveURL_renews (uri id : string) (audio : bool) :
  CheckLiveURL uri audio = (id, true) →
  (∀ video, VideoLoadParams id audio ≠ inr (video, [])) →
  renews checkLiveURL uri audio.
Proof.
  intros Hc Hurls w. pose proof (checkLiveURL_expired uri id audio w Hc) as Hrun.
  destruct (VideoLoadParams id audio) as [err|[video [|f0 more]]].
  - eexists. exact Hrun.
  - exfalso. exact (Hurls video eq_refl).
  - destruct Hrun as (ok & w' & Hrun & _). exists w'. exact Hrun.
Qed.

End Renewal.

(** C2, as the specification states it, fails when the scanner ends with
    an error: a playlist of one comment line followed by a line too long
    for the scanner returns the scanner's error, not the no-files error. *)
Lemma LoadPlaylist_scanner_error :
  let pl := {| lines := ["#EXTM3U"];
               scanErr := Some (Err "bufio.Scanner: token too long") |} in
  let renew : string → bool → M (C := Sim.Player) bool := λ _ _, ret false in
  let w := Sim.with_file "list.m3u8" pl (Sim.fresh 1) in
  Forall (skipped renew) (lines pl) ∧
  (λ o, fst <$> (match o with Ret r w' => Some (r, w') | _ => None end))
    (LoadPlaylist "list.m3u8" false renew w)
  = Some (Some (Err "bufio.Scanner: token too long")) ∧
  Some (Err "bufio.Scanner: token too long") ≠ Some no_files_error.
Proof.
  split; [|split].
  - constructor; [exact I | constructor].
  - vm_compute. reflexivity.
  - discriminate.
Qed.

Lemma LoadPlaylist_nothing_added_witness :
  let pl := {| lines := ["#EXTM3U"; ""; "not a uri";
                         "https://host/watch?v=def&length=Live&mediatype=Audio"];
               scanErr := None |} in
  let renew : string → bool → M (C := Sim.Player) bool :=
    UI.checkLiveURL
      (λ _ _, ("def", true))
      (λ _ _, inr ({| UI.Title := "Fresh title"; UI.LengthSeconds := 0;
                      UI.LiveNow := true |},
                   ["https://cdn.example/def"])) in
  let w := Sim.with_file "list.m3u8" pl (Sim.fresh 1) in
  ∃ w0 w',
    before_scan true w = Ret tt w0 ∧
    renewing renew (omap entry_of (lines pl)) w0 = Ret tt w' ∧
    LoadPlaylist "list.m3u8" true renew w = Ret (Some no_files_error) w' ∧
    loading (trace w0) = loading (trace w) ∧
    (Forall (λ e, reports renew (uri e) (audio e) true) (omap entry_of (lines pl)) →
     loading (trace w') = loading (trace w)) ∧
    (scanErr pl = None → nothing_added pl = no_files_error).
Proof.
  intros pl renew w.
  assert (Hall : ∀ uri audio, renews renew uri audio).
  { intros uri audio. apply (checkLiveURL_renews _ _ uri "def" audio).
    - reflexivity.
    - intros video. discriminate. }
  apply (LoadPlaylist_nothing_added "list.m3u8" pl true renew w).
  - reflexivity.
  - repeat (constructor;
      [unfold skipped; destruct (entry_of _) as [e|] eqn:He;
       [vm_compute in He;
        first [discriminate He
              | injection He as <-; split; [reflexivity | apply Hall]]
       | exact I]|]).
    constructor.
Defined.

(** The same playlist, run: [LoadPlaylist] reports that no files were
    added, and the request in the trace is the one the callback made for
    the renewed video. *)
Example LoadPlaylist_renewed_by_callback :
  (λ o, match o with
        | Ret r w' => Some (r, loading (trace w'))
        | _ => None
        end)
    (LoadPlaylist "list.m3u8" true
       (UI.checkLiveURL
          (λ _ _, ("def", true))
          (λ _ _, inr ({| UI.Title := "Fresh title"; UI.LengthSeconds := 0;
                          UI.LiveNow := true |},
                       ["https://cdn.example/def"])))
       (Sim.with_file "list.m3u8"
          {| lines := ["#EXTM3U"; ""; "not a uri";
                       "https://host/watch?v=def&length=Live&mediatype=Audio"];
             scanErr := None |}
          (Sim.fresh 1)))
  = Some (Some no_files_error,
          [Issued "https://cdn.example/def&options=force-media-title=%11%Fresh title,vid=no"
                  "force-media-title=%11%Fresh title,vid=no" true;
           Registered "Fresh title"]).
Proof. vm_compute. reflexivity. Qed.



(** The same playlist, run against a live player with ids 7 and 8 waiting:
    two requests in the order of the lines, each title recorded. *)
Example LoadPlaylist_course :
  (λ w', (loading (trace w'), map_to_list (monitor w'))) <$>
    final (LoadPlaylist "list.m3u8" true
             (UI.checkLiveURL (λ _ _, ("def", false)) (λ _ _, inl (Err "not asked")))
             (Sim.with_pending [7; 8]
                (Sim.with_file "list.m3u8"
                   {| lines := ["#EXTM3U"; "";
                                "https://host/watch?v=abc&title=SongA&length=180";
                                "https://host/watch?v=def&length=Live&mediatype=Audio"];
                      scanErr := None |}
                   (Sim.fresh 4))))
  = Some ([Issued "https://api.example/watch?v=abc&title=SongA&length=180"
                  ",force-media-title=%5%SongA" true;
           Registered "SongA";
           Issued "https://api.example/watch?v=def&length=Live&mediatype=Audio"
                  ",force-media-title=%0%" true;
           Registered ""],
          [(7, "SongA"); (8, "")]).
Proof. vm_compute. reflexivity. Qed.

(** * Further properties *)

(** ** Strings *)



Lemma Contains_append_r (a b sub : string) :
  Contains b sub = true → Contains (a +:+ b) sub = true.
Proof.
  intros Hb. induction a as [|c a IH]; [exact Hb|].
  change (String c a +:+ b) with (String c (a +:+ b)). cbn [Contains].
  rewrite IH. apply orb_true_r.
Qed.

Lemma wrap_add_wrap (a b : Z) : GoInt.wrap (GoInt.wrap a + b) = GoInt.wrap (a + b).
Proof.
  unfold GoInt.wrap.
  replace ((a + 2 ^ 63) `mod` 2 ^ 64 - 2 ^ 63 + b + 2 ^ 63)
    with ((a + 2 ^ 63) `mod` 2 ^ 64 + b) by lia.
  rewrite Zplus_mod_idemp_l. f_equal. f_equal. lia.
Qed.

(** ** The playlist loader, for every file *)

Section PlaylistOutcome.

Context {C : Type} `{!Transport C} `{!Externals}.

Local Abbreviation World := (World C).
Local Abbreviation M := (M (C := C)).

Lemma accepted_entry (verdict : string → bool → bool) (line : string) (e : Entry) :
  accepted verdict line = Some e → entry_of line = Some e.
Proof.
  unfold accepted. destruct (entry_of line) as [e'|]; [|discriminate].
  cbn [mbind option_bind]. destruct (live e' && _); [discriminate|]. congruence.
Qed.

(** The scan, whatever the lines, for a callback that answers as
    [verdict] says and makes no request of its own: the entries accepted
    are requested in order, to the end or to the first request that
    fails, and the count grows by one for each. *)
Lemma scanPlaylist_accepted (renewLiveURL : string → bool → M bool)
    (verdict : string → bool → bool)
    (rest : list string) (filesAdded : Z) (w : World) :
  decided renewLiveURL verdict rest →
  GoInt.in_range filesAdded →
  ∃ res w', scanPlaylist renewLiveURL rest filesAdded w = Ret res w' ∧
    ((res = inr (GoInt.wrap (filesAdded
                             + Z.of_nat (length (omap (accepted verdict) rest)))) ∧
      loading (trace w') =
        loading (trace w) ++ flat_map loaded (omap (accepted verdict) rest))
     ∨
     (∃ k e v err, omap (accepted verdict) rest !! k = Some e ∧ res = inl err ∧
        last (trace w') =
          Some (ACall (loadfile_args (uri e) (options e)) (v, Some err)) ∧
        loading (trace w') =
          loading (trace w)
            ++ flat_map loaded (take k (omap (accepted verdict) rest))
            ++ [Issued (uri e) (options e) false])).
Proof.
  revert filesAdded w. induction rest as [|line rest IH]; intros filesAdded w Hdec Hn.
  - exists (inr filesAdded), w. split; [reflexivity|]. left.
    cbn [omap list_omap length flat_map]. rewrite Z.add_0_r, app_nil_r.
    rewrite wrap_in_range by exact Hn. auto.
  - assert (Hrest : decided renewLiveURL verdict rest).
    { intros l e Hl. apply Hdec. right. exact Hl. }
    specialize (Hdec line).
    rewrite scanPlaylist_cons. cbn [omap list_omap].
    assert (Hacc : accepted verdict line =
                     e ← entry_of line;
                     if live e && verdict (uri e) (audio e) then None else Some e)
      by reflexivity.
    destruct (entry_of line) as [e|]; cbn [mbind option_bind] in Hacc;
      [|rewrite Hacc; apply IH; assumption].
    specialize (Hdec e ltac:(left) eq_refl).
    assert (Hpre : ∃ w1,
      (if live e then
         renewed <- renewLiveURL (uri e) (audio e) ;;
         log (ARenew (uri e) (audio e) renewed) ;;
         ret renewed
       else ret false) w = Ret (live e && verdict (uri e) (audio e)) w1 ∧
      loading (trace w1) = loading (trace w)).
    { destruct (live e).
      - apply renewal_reports, Hdec. reflexivity.
      - exists w. auto. }
    destruct Hpre as (w1 & Hpre & Ht1).
    unfold bind at 1. rewrite Hpre.
    destruct (live e && verdict (uri e) (audio e)); rewrite Hacc.
    { destruct (IH filesAdded w1 Hrest Hn) as (res & w' & Hrun & Hres).
      exists res, w'. split; [exact Hrun|].
      rewrite Ht1 in Hres. exact Hres. }
    destruct (Call_ret (loadfile_args (uri e) (options e)) w1)
      as ([v err] & w2 & Hcall & Ht2 & _).
    unfold bind at 1. rewrite Hcall. cbn [snd].
    destruct err as [err|].
    + exists (inl err), w2. split; [reflexivity|]. right.
      exists 0%nat, e, v, err. split; [reflexivity|]. split; [reflexivity|].
      split; [rewrite Ht2; apply last_snoc|].
      rewrite Ht2, loading_app, loading_call, Ht1. reflexivity.
    + destruct (addToMonitor_ret (title e) w2) as (w3 & Hadd & Ht3 & _).
      unfold bind at 1. rewrite Hadd.
      destruct (IH (GoInt.add filesAdded 1) w3 Hrest (wrap_range _))
        as (res & w' & Hrun & Hres).
      exists res, w'. split; [exact Hrun|].
      assert (Hhere : loading (trace w3) = loading (trace w) ++ loaded e).
      { rewrite Ht3, loading_app, Ht2, loading_app, loading_call, Ht1.
        rewrite <- app_assoc. reflexivity. }
      destruct Hres as [[Hn' Ht]|(k & e' & v' & err & Hk & Hr & Hlast & Ht)].
      * left. split.
        -- rewrite Hn'. unfold GoInt.add. rewrite wrap_add_wrap.
           cbn [length]. do 2 f_equal. lia.
        -- rewrite Ht, Hhere. cbn [flat_map]. rewrite <- app_assoc. reflexivity.
      * right. exists (S k), e', v', err. split; [exact Hk|]. split; [exact Hr|].
        split; [exact Hlast|].
        rewrite Ht, Hhere. cbn [take flat_map]. rewrite <- !app_assoc. reflexivity.
Qed.

Lemma LoadPlaylist_scanned (plpath : string) (pl : File) (replace : bool)
    (renewLiveURL : string → bool → M bool) (verdict : string → bool → bool)
    (w : World) :
  fs w !! plpath = Some pl →
  decided renewLiveURL verdict (lines pl) →
  ∃ r w', LoadPlaylist plpath replace renewLiveURL w = Ret r w' ∧
    ((r = scan_result pl
            (GoInt.wrap (Z.of_nat (length (omap (accepted verdict) (lines pl))))) ∧
      loading (trace w') =
        loading (trace w) ++ flat_map loaded (omap (accepted verdict) (lines pl)))
     ∨
     (∃ k e v err, omap (accepted verdict) (lines pl) !! k = Some e ∧ r = Some err ∧
        last (trace w') =
          Some (ACall (loadfile_args (uri e) (options e)) (v, Some err)) ∧
        loading (trace w') =
          loading (trace w)
            ++ flat_map loaded (take k (omap (accepted verdict) (lines pl)))
            ++ [Issued (uri e) (options e) false])).
Proof.
  intros Hopen Hdec.
  destruct (replacing_ret replace w) as (w0 & Hpre & Ht0 & Hf0).
  rewrite (LoadPlaylist_opened plpath pl replace renewLiveURL w w0 Hopen Hpre Hf0).
  destruct (scanPlaylist_accepted renewLiveURL verdict (lines pl) 0 w0 Hdec)
    as (res & w' & Hscan & Hres).
  { unfold GoInt.in_range, GoInt.min_int, GoInt.max_int. lia. }
  unfold bind. rewrite Hscan. rewrite Ht0 in Hres.
  destruct Hres as [[-> Ht]|(k & e & v & err & Hk & -> & Hlast & Ht)].
  - rewrite Z.add_0_l. unfold scan_result.
    destruct (scanErr pl) as [err|].
    + destruct (bool_decide (err = EOF)); [destruct (_ =? 0)|];
        eexists _, w'; (split; [reflexivity|]); left; auto.
    + destruct (_ =? 0); eexists _, w'; (split; [reflexivity|]); left; auto.
  - exists (Some err), w'. split; [reflexivity|]. right. exists k, e, v, err. auto.
Qed.

(** X1. For every playlist that opens and a renewal callback that answers as
    [verdict] says without a request of its own, [LoadPlaylist] requests
    the accepted entries in the order of their lines and hands each title
    to the monitor.  If no request fails it requests them all and returns
    the error of the scanner if it ended with one, else the no-files
    error if the count of the files added is zero, else nil; if a request
    fails it stops there, that request being the last thing it did, and
    returns the error the request was answered with. *)
Theorem LoadPlaylist_outcome (plpath : string) (pl : File) (replace : bool)
    (renewLiveURL : string → bool → M bool) (verdict : string → bool → bool)
    (w : World) :
  fs w !! plpath = Some pl →
  decided renewLiveURL verdict (lines pl) →
  ∃ r w', LoadPlaylist plpath replace renewLiveURL w = Ret r w' ∧
    ((r = scan_result pl
            (GoInt.wrap (Z.of_nat (length (omap (accepted verdict) (lines pl))))) ∧
      loading (trace w') =
        loading (trace w) ++ flat_map loaded (omap (accepted verdict) (lines pl)))
     ∨
     (∃ k e v err, omap (accepted verdict) (lines pl) !! k = Some e ∧ r = Some err ∧
        last (trace w') =
          Some (ACall (loadfile_args (uri e) (options e)) (v, Some err)) ∧
        loading (trace w') =
          loading (trace w)
            ++ flat_map loaded (take k (omap (accepted verdict) (lines pl)))
            ++ [Issued (uri e) (options e) false])).
Proof. apply LoadPlaylist_scanned. Qed.

(** X2. When [LoadPlaylist] returns nil, for a renewal callback that answers
    as [verdict] says without a request of its own: the scanner ended
    cleanly, at least one entry was accepted, and every accepted entry
    was requested with success, in order, and its title handed to the
    monitor. *)
Theorem LoadPlaylist_nil (plpath : string) (pl : File) (replace : bool)
    (renewLiveURL : string → bool → M bool) (verdict : string → bool → bool)
    (w w' : World) :
  fs w !! plpath = Some pl →
  decided renewLiveURL verdict (lines pl) →
  LoadPlaylist plpath replace renewLiveURL w = Ret None w' →
  omap (accepted verdict) (lines pl) ≠ [] ∧
  (scanErr pl = None ∨ scanErr pl = Some EOF) ∧
  loading (trace w') =
    loading (trace w) ++ flat_map loaded (omap (accepted verdict) (lines pl)).
Proof.
  intros Hopen Hdec Hrun.
  destruct (LoadPlaylist_scanned plpath pl replace renewLiveURL verdict w Hopen Hdec)
    as (r & w1 & Hrun1 & Hres).
  rewrite Hrun in Hrun1. injection Hrun1 as <- <-.
  destruct Hres as [[Hr Ht]|(k & e & v & err & _ & Hr & _)]; [|discriminate].
  split; [|split; [|exact Ht]].
  - intros Hnil. rewrite Hnil in Hr. unfold scan_result in Hr. simpl in Hr.
    destruct (scanErr pl) as [err|]; [destruct (bool_decide (err = EOF))|];
      discriminate.
  - unfold scan_result in Hr. destruct (scanErr pl) as [err|]; [|auto].
    case_bool_decide; [subst; auto|discriminate].
Qed.

(** X3. An error of the scanner does not undo what was loaded: for a renewal
    callback that answers as [verdict] says without a request of its own,
    if the scanner ends with an error after lines whose requests all
    succeeded, [LoadPlaylist] returns that error and the entries stay
    requested. *)
Theorem LoadPlaylist_scanner_error_keeps_loads (plpath : string) (pl : File)
    (replace : bool) (renewLiveURL : string → bool → M bool)
    (verdict : string → bool → bool) (w w' : World)
    (err : error) (r : option error) :
  fs w !! plpath = Some pl →
  decided renewLiveURL verdict (lines pl) →
  scanErr pl = Some err → err ≠ EOF →
  LoadPlaylist plpath replace renewLiveURL w = Ret r w' →
  (∀ uri options, Issued uri options false ∉ loading (trace w')) →
  r = Some err ∧
  loading (trace w') =
    loading (trace w) ++ flat_map loaded (omap (accepted verdict) (lines pl)).
Proof.
  intros Hopen Hdec Herr Hne Hrun Hok.
  destruct (LoadPlaylist_scanned plpath pl replace renewLiveURL verdict w Hopen Hdec)
    as (r1 & w1 & Hrun1 & Hres).
  rewrite Hrun in Hrun1. injection Hrun1 as <- <-.
  destruct Hres as [[Hr Ht]|(k & e & v & err' & _ & _ & _ & Ht)].
  - split; [|exact Ht]. rewrite Hr. unfold scan_result. rewrite Herr.
    rewrite bool_decide_eq_false_2 by exact Hne. reflexivity.
  - exfalso. apply (Hok (uri e) (options e)). rewrite Ht.
    rewrite !elem_of_app. right. right. apply list_elem_of_singleton. reflexivity.
Qed.

(** X4. If the file cannot be opened [LoadPlaylist] requests nothing and
    returns the open error; but with [replace] the queue has been cleared
    and the monitor emptied by then. *)
Theorem LoadPlaylist_unopened (plpath : string) (replace : bool)
    (renewLiveURL : string → bool → M bool) (w : World) :
  fs w !! plpath = None →
  ∃ w', LoadPlaylist plpath replace renewLiveURL w =
          Ret (Some (Err ("MPV: Unable to open " +:+ plpath))) w' ∧
        loading (trace w') = loading (trace w) ∧
        monitor w' = (if replace then ∅ else monitor w) ∧
        (if replace then
           ∃ r1 r2, trace w' = trace w ++ [ACall [VString "playlist-clear"] r1;
                                           ACall [VString "playlist-remove";
                                                  VString "current"] r2]
         else trace w' = trace w).
Proof.
  intros Hopen. unfold LoadPlaylist. destruct replace.
  - unfold bind at 1. unfold bind at 1.
    destruct (Call_ret [VString "playlist-clear"] w) as (r1 & w1 & -> & Ht1 & Hm1 & _ & Hf1).
    unfold bind at 1.
    destruct (Call_ret [VString "playlist-remove"; VString "current"] w1)
      as (r2 & w2 & -> & Ht2 & Hm2 & _ & Hf2).
    unfold bind, gets, clearMonitor, modify. simpl. rewrite Hf2, Hf1, Hopen.
    eexists. split; [reflexivity|]. simpl.
    rewrite Ht2, Ht1, !loading_app. simpl. rewrite !app_nil_r.
    split; [reflexivity|]. split; [reflexivity|].
    exists r1, r2. rewrite <- app_assoc. reflexivity.
  - unfold bind, gets, ret. rewrite Hopen. exists w. auto.
Qed.

End PlaylistOutcome.

(** A callback for the examples: the one of the user interface, for a
    network where the URLs of the audio streams have expired and no video
    is found to renew them. *)
Lemma checkLiveURL_audio_expired :
  let renew : string → bool → M (C := Sim.Player) bool :=
    UI.checkLiveURL (λ _ audio, ("def", audio)) (λ _ _, inl (Err "not found")) in
  ∀ lines, decided renew (λ _ audio, audio) lines.
Proof.
  intros renew lines line e _ _ _ w. destruct (audio e) eqn:Ha.
  - eexists. split.
    + exact (checkLiveURL_expired (λ _ audio, ("def", audio))
               (λ _ _, inl (Err "not found")) (uri e) "def" true w eq_refl).
    + simpl. rewrite loading_app. simpl. apply app_nil_r.
  - exists w. split; reflexivity.
Qed.

Lemma LoadPlaylist_outcome_witness :
  let pl := {| lines := ["#EXTM3U";
                         "https://host/watch?v=abc&title=SongA&length=180";
                         "https://host/watch?v=def&length=Live&mediatype=Audio";
                         "https://host/watch?v=ghi&title=SongC"];
               scanErr := None |} in
  let renew : string → bool → M (C := Sim.Player) bool :=
    UI.checkLiveURL (λ _ audio, ("def", audio)) (λ _ _, inl (Err "not found")) in
  let verdict := λ (_ : string) (audio : bool), audio in
  let w := Sim.with_file "list.m3u8" pl (Sim.fresh 4) in
  ∃ r w', LoadPlaylist "list.m3u8" false renew w = Ret r w' ∧
    ((r = scan_result pl
            (GoInt.wrap (Z.of_nat (length (omap (accepted verdict) (lines pl))))) ∧
      loading (trace w') =
        loading (trace w) ++ flat_map loaded (omap (accepted verdict) (lines pl)))
     ∨
     (∃ k e v err, omap (accepted verdict) (lines pl) !! k = Some e ∧ r = Some err ∧
        last (trace w') =
          Some (ACall (loadfile_args (uri e) (options e)) (v, Some err)) ∧
        loading (trace w') =
          loading (trace w)
            ++ flat_map loaded (take k (omap (accepted verdict) (lines pl)))
            ++ [Issued (uri e) (options e) false])).
Proof.
  intros pl renew verdict w.
  apply (LoadPlaylist_outcome "list.m3u8" pl false renew verdict w).
  - reflexivity.
  - apply checkLiveURL_audio_expired.
Defined.

(** The same playlist, run: the live audio entry is reported renewed and
    left out, the renewal error is shown, the two others are requested. *)
Example LoadPlaylist_renewed_course :
  (λ o, match o with
        | Ret r w' => Some (r, loading (trace w'), errors_shown (trace w'))
        | _ => None
        end)
    (LoadPlaylist "list.m3u8" false
       (UI.checkLiveURL (λ _ audio, ("def", audio)) (λ _ _, inl (Err "not found")))
       (Sim.with_file "list.m3u8"
          {| lines := ["#EXTM3U";
                       "https://host/watch?v=abc&title=SongA&length=180";
                       "https://host/watch?v=def&length=Live&mediatype=Audio";
                       "https://host/watch?v=ghi&title=SongC"];
             scanErr := None |}
          (Sim.fresh 4)))
  = Some (None,
          [Issued "https://api.example/watch?v=abc&title=SongA&length=180"
                  ",force-media-title=%5%SongA" true;
           Registered "SongA";
           Issued "https://api.example/watch?v=ghi&title=SongC"
                  ",force-media-title=%5%SongC" true;
           Registered "SongC"],
          ["Player: Unable to renew live URL for video def"]).
Proof. vm_compute. reflexivity. Qed.

Lemma LoadPlaylist_nil_witness :
  let pl := {| lines := ["#EXTM3U";
                         "https://host/watch?v=abc&title=SongA&length=180";
                         "https://host/watch?v=def&length=Live&mediatype=Audio"];
               scanErr := Some EOF |} in
  let renew : string → bool → M (C := Sim.Player) bool :=
    UI.checkLiveURL (λ _ audio, ("def", audio)) (λ _ _, inl (Err "not found")) in
  let verdict := λ (_ : string) (audio : bool), audio in
  let w := Sim.with_file "list.m3u8" pl (Sim.fresh 4) in
  ∃ w', LoadPlaylist "list.m3u8" false renew w = Ret None w' ∧
    omap (accepted verdict) (lines pl) ≠ [] ∧
    (scanErr pl = None ∨ scanErr pl = Some EOF) ∧
    loading (trace w') =
      loading (trace w) ++ flat_map loaded (omap (accepted verdict) (lines pl)).
Proof.
  intros pl renew verdict w.
  assert (Hres : (λ o, match o with Ret r _ => Some r | _ => None end)
                   (LoadPlaylist "list.m3u8" false renew w) = Some None)
    by (vm_compute; reflexivity).
  destruct (LoadPlaylist "list.m3u8" false renew w) as [[err|] w'| |] eqn:Hrun;
    try discriminate Hres.
  exists w'. split; [reflexivity|].
  exact (LoadPlaylist_nil "list.m3u8" pl false renew verdict w w' eq_refl
           (checkLiveURL_audio_expired (lines pl)) Hrun).
Defined.

Lemma LoadPlaylist_scanner_error_keeps_loads_witness :
  let pl := {| lines := ["https://host/watch?v=abc&title=SongA&length=180";
                         "https://host/watch?v=def&length=Live&mediatype=Audio"];
               scanErr := Some (Err "bufio.Scanner: token too long") |} in
  let renew : string → bool → M (C := Sim.Player) bool :=
    UI.checkLiveURL (λ _ audio, ("def", audio)) (λ _ _, inl (Err "not found")) in
  let verdict := λ (_ : string) (audio : bool), audio in
  let w := Sim.with_file "list.m3u8" pl (Sim.fresh 4) in
  ∃ w', LoadPlaylist "list.m3u8" false renew w =
          Ret (Some (Err "bufio.Scanner: token too long")) w' ∧
    loading (trace w') =
      loading (trace w) ++ flat_map loaded (omap (accepted verdict) (lines pl)).
Proof.
  intros pl renew verdict w.
  assert (Hres : (λ o, match o with
                       | Ret _ w' => Some (loading (trace w'))
                       | _ => None
                       end)
                   (LoadPlaylist "list.m3u8" false renew w)
                 = Some [Issued "https://api.example/watch?v=abc&title=SongA&length=180"
                                ",force-media-title=%5%SongA" true;
                         Registered "SongA"])
    by (vm_compute; reflexivity).
  destruct (LoadPlaylist "list.m3u8" false renew w) as [r w'| |] eqn:Hrun;
    try discriminate Hres.
  injection Hres as Hres.
  destruct (LoadPlaylist_scanner_error_keeps_loads "list.m3u8" pl false renew verdict
              w w' (Err "bufio.Scanner: token too long") r) as [-> Ht].
  - reflexivity.
  - apply checkLiveURL_audio_expired.
  - reflexivity.
  - discriminate.
  - exact Hrun.
  - intros uri options. rewrite Hres, !not_elem_of_cons.
    split; [discriminate|]. split; [discriminate|]. apply not_elem_of_nil.
  - exists w'. split; [reflexivity | exact Ht].
Defined.

Lemma LoadPlaylist_unopened_witness :
  let w := with_monitor {[ 3 := "Song A" ]} (Sim.fresh 4) in
  ∃ w', LoadPlaylist "missing.m3u8" true (λ _ _, ret false) w =
          Ret (Some (Err ("MPV: Unable to open " +:+ "missing.m3u8"))) w' ∧
        loading (trace w') = loading (trace w) ∧
        monitor w' = ∅ ∧
        ∃ r1 r2, trace w' = trace w ++ [ACall [VString "playlist-clear"] r1;
                                        ACall [VString "playlist-remove";
                                               VString "current"] r2].
Proof.
  intros w.
  apply (LoadPlaylist_unopened "missing.m3u8" true (λ _ _, ret false) w). reflexivity.
Defined.

(** ** The renewal callback of the user interface *)

Section RenewalOutcome.

Context {C : Type} `{!Transport C} `{!Externals}.

Variable CheckLiveURL : string → bool → string * bool.
Variable VideoLoadParams : string → bool → error + UI.VideoData * list string.

Local Abbreviation World := (World C).
Local Abbreviation checkLiveURL := (UI.checkLiveURL CheckLiveURL VideoLoadParams).

(** X5. [checkLiveURL] answers what [inv.CheckLiveURL] reports.  For a URL
    that has not expired nothing happens.  For one that has, the video is
    looked up: if that fails the renewal error is shown and nothing is
    requested; if it gives no URL the call panics in [LoadFile]; else the
    renewed video is requested through [LoadFile], its title handed to
    the monitor if the request succeeded, and no error is shown even if
    it did not. *)
Theorem checkLiveURL_outcome (uri : string) (audio : bool) (w : World) :
  match CheckLiveURL uri audio with
  | (id, false) => checkLiveURL uri audio w = Ret false w
  | (id, true) =>
      match VideoLoadParams id audio with
      | inl _ =>
          checkLiveURL uri audio w =
            Ret true
              (with_trace
                 (trace w ++ [AShowError ("Player: Unable to renew live URL for video "
                                          +:+ id)]) w)
      | inr (video, []) => panics (checkLiveURL uri audio w) = true
      | inr (video, f0 :: more) =>
          let options :=
            file_options (UI.Title video) (UI.LengthSeconds video)
              (audio && UI.LiveNow video) (f0 :: more) in
          ∃ ok w', checkLiveURL uri audio w = Ret true w' ∧
            errors_shown (trace w') = errors_shown (trace w) ∧
            loading (trace w') =
              loading (trace w)
                ++ Issued (f0 +:+ "&options=" +:+ QueryEscape options) options ok
                :: (if ok then [Registered (UI.Title video)] else [])
      end
  end.
Proof.
  destruct (CheckLiveURL uri audio) as [id [|]] eqn:Hc.
  - exact (checkLiveURL_expired CheckLiveURL VideoLoadParams uri id audio w Hc).
  - exact (checkLiveURL_fresh CheckLiveURL VideoLoadParams uri id audio w Hc).
Qed.

End RenewalOutcome.

(** ** Loading a file *)

Section LoadingFiles.

Context {C : Type} `{!Transport C} `{!Externals}.

Local Abbreviation World := (World C).




End LoadingFiles.

(** ** The track monitor, id by id *)

Section MonitorRoundTrip.

Context {C : Type} `{!Transport C} `{!Externals}.

Local Abbreviation World := (World C).

(** X7. With ids waiting in [FileNumber], [addToMonitor] takes the oldest,
    records the title under it in place of whatever was there, and leaves
    the other ids waiting; an error for that id then publishes this title
    and forgets the id. *)
Theorem addToMonitor_takes_oldest (title : string) (id : Z) (waiting : list Z)
    (w : World) :
  buf (FileNumber (Events w)) = id :: waiting →
  ∃ w1, addToMonitor title w = Ret tt w1 ∧
    monitor w1 = <[id := title]> (monitor w) ∧
    buf (FileNumber (Events w1)) = waiting ∧
    ErrorNumber (Events w1) = ErrorNumber (Events w) ∧
    ErrorEvent (Events w1) = ErrorEvent (Events w) ∧
    ∃ w2, monitorError id w1 = Ret tt w2 ∧
      ErrorEvent (Events w2) = Channel.try_send title (ErrorEvent (Events w)) ∧
      monitor w2 = delete id (monitor w).
Proof.
  intros Hbuf.
  unfold addToMonitor, bind, log, modify, try_recv, Channel.pop. simpl.
  rewrite Hbuf. eexists. split; [reflexivity|]. simpl.
  repeat (split; [reflexivity|]).
  eexists. split; [reflexivity|]. simpl.
  rewrite lookup_insert_eq, delete_insert_eq. auto.
Qed.

(** X8. An error consumes its id and no other: the title recorded under the id
    is published once, a second error for the same id publishes the empty
    title, and the titles under other ids stay. *)
Theorem monitorError_consumes (id : Z) (w : World) :
  ∃ w1 w2, monitorError id w = Ret tt w1 ∧ monitorError id w1 = Ret tt w2 ∧
    ErrorEvent (Events w1) =
      Channel.try_send (default "" (monitor w !! id)) (ErrorEvent (Events w)) ∧
    ErrorEvent (Events w2) = Channel.try_send "" (ErrorEvent (Events w1)) ∧
    monitor w1 !! id = None ∧
    (∀ other, other ≠ id → monitor w1 !! other = monitor w !! other) ∧
    monitor w2 = monitor w1.
Proof.
  do 2 eexists. split; [reflexivity|]. split; [reflexivity|]. simpl.
  rewrite lookup_delete_eq. simpl. repeat split.
  - intros other Hne. apply lookup_delete_ne. congruence.
  - apply delete_id. apply lookup_delete_eq.
Qed.

(** X9. A published title is dropped when [ErrorEvent] is full: the id is
    forgotten all the same, so that error is never reported. *)
Theorem monitorError_full (id : Z) (w : World) :
  Channel.has_room (ErrorEvent (Events w)) = false →
  ∃ w1, monitorError id w = Ret tt w1 ∧
    ErrorEvent (Events w1) = ErrorEvent (Events w) ∧
    monitor w1 !! id = None.
Proof.
  intros Hfull. eexists. split; [reflexivity|]. simpl.
  unfold Channel.try_send. rewrite Hfull. split; [reflexivity|].
  apply lookup_delete_eq.
Qed.

End MonitorRoundTrip.

Lemma addToMonitor_takes_oldest_witness :
  let w := Sim.with_pending [7; 8] (with_monitor {[ 7 := "Song A" ]} (Sim.fresh 4)) in
  ∃ w1, addToMonitor "Song B" w = Ret tt w1 ∧
    monitor w1 = <[7 := "Song B"]> (monitor w) ∧
    buf (FileNumber (Events w1)) = [8] ∧
    ErrorNumber (Events w1) = ErrorNumber (Events w) ∧
    ErrorEvent (Events w1) = ErrorEvent (Events w) ∧
    ∃ w2, monitorError 7 w1 = Ret tt w2 ∧
      ErrorEvent (Events w2) = Channel.try_send "Song B" (ErrorEvent (Events w)) ∧
      monitor w2 = delete 7 (monitor w).
Proof.
  intros w. apply (addToMonitor_takes_oldest "Song B" 7 [8] w). reflexivity.
Defined.

Lemma monitorError_full_witness :
  let w := Sim.fresh 1
           |> with_monitor {[ 7 := "Song A" ]}
           |> with_Events (with_ErrorEvent (Chan 1 ["Song Z"]) (Sim.no_events 1)) in
  ∃ w1, monitorError 7 w = Ret tt w1 ∧
    ErrorEvent (Events w1) = ErrorEvent (Events w) ∧
    monitor w1 !! 7 = None.
Proof.
  intros w. apply (monitorError_full 7 w). reflexivity.
Defined.

(** ** The event listener, event by event *)

Section Events.

Context {C : Type} `{!Transport C} `{!Externals}.

Local Abbreviation World := (World C).

Lemma Set_ret (prop : string) (v : Value) (w : World) :
  ∃ e w', Set_ prop v w = Ret e w' ∧
    trace w' = trace w ++ [ASet prop v e] ∧
    monitor w' = monitor w ∧ Events w' = Events w ∧ fs w' = fs w.
Proof.
  unfold Set_.
  destruct (match Connection w with Some _ => _ | None => _ end) as [e conn].
  exists e. eexists. split; [reflexivity|]. simpl. auto.
Qed.

Lemma extra_data_size (event : Event) (key : string) (v : Value) :
  ExtraData event !! key = Some v → (0 <? size (ExtraData event))%nat = true.
Proof.
  intros Hl. apply Nat.ltb_lt.
  destruct (size (ExtraData event)) eqn:Hs; [|lia].
  apply map_size_empty_iff in Hs. rewrite Hs, lookup_empty in Hl. discriminate.
Qed.

(** The two writes every start-file event begins with. *)
Lemma pause_cycle (w : World) (k : M (C := C) unit) :
  ∃ e1 e2 w1,
    (Set_ "pause" (VString "yes") ;; Set_ "pause" (VString "no") ;; k) w = k w1 ∧
    trace w1 = trace w ++ [ASet "pause" (VString "yes") e1;
                           ASet "pause" (VString "no") e2] ∧
    monitor w1 = monitor w ∧ Events w1 = Events w.
Proof.
  destruct (Set_ret "pause" (VString "yes") w) as (e1 & wa & Ha & Hta & Hma & Hea & _).
  destruct (Set_ret "pause" (VString "no") wa) as (e2 & wb & Hb & Htb & Hmb & Heb & _).
  exists e1, e2, wb. unfold bind. rewrite Ha, Hb.
  split; [reflexivity|]. rewrite Htb, Hta, <- app_assoc. split; [reflexivity|].
  split; congruence.
Qed.

Lemma handleEvent_start_file_id (event : Event) (id : Z) (w : World) :
  Name event = "start-file" →
  playlist_of event = None →
  ExtraData event !! "playlist_entry_id" = Some (VFloat id) →
  ∃ e1 e2 w1,
    trace w1 = trace w ++ [ASet "pause" (VString "yes") e1;
                           ASet "pause" (VString "no") e2] ∧
    monitor w1 = monitor w ∧ Events w1 = Events w ∧
    handleEvent event w =
      if Channel.has_room (FileNumber (Events w))
      then Ret tt (with_Events
                     (with_FileNumber (Channel.push id (FileNumber (Events w)))
                                      (Events w)) w1)
      else Block w1.
Proof.
  intros Hname Hpl Hid. unfold handleEvent. rewrite Hpl, Hname.
  rewrite bool_decide_eq_true_2 by reflexivity.
  rewrite (extra_data_size _ _ _ Hid).
  unfold extra. rewrite Hid. cbn [default as_float].
  match goal with
  | |- context [bind (Set_ "pause" (VString "yes")) (λ _, bind _ (λ _, ?k)) w] =>
      destruct (pause_cycle w k) as (e1 & e2 & w1 & Hrun & Ht & Hm & He)
  end.
  exists e1, e2, w1. split; [exact Ht|]. split; [exact Hm|]. split; [exact He|].
  rewrite Hrun. unfold bind, ret, send. simpl. rewrite He. reflexivity.
Qed.

(** X10. A start-file event that carries the id of its playlist entry: the
    listener writes pause yes, then pause no, then hands the id to
    [FileNumber], behind the ids already waiting; if [FileNumber] is full
    it blocks there, the two writes done. *)
Theorem start_file_hands_over_id (event : Event) (id : Z) (w : World) :
  Name event = "start-file" →
  playlist_of event = None →
  ExtraData event !! "playlist_entry_id" = Some (VFloat id) →
  ∃ e1 e2 w1,
    trace w1 = trace w ++ [ASet "pause" (VString "yes") e1;
                           ASet "pause" (VString "no") e2] ∧
    monitor w1 = monitor w ∧ Events w1 = Events w ∧
    handleEvent event w =
      if Channel.has_room (FileNumber (Events w))
      then Ret tt (with_Events
                     (with_FileNumber (Channel.push id (FileNumber (Events w)))
                                      (Events w)) w1)
      else Block w1.
Proof. apply handleEvent_start_file_id. Qed.

(** X11. A start-file event with extra data but no number under
    playlist_entry_id makes the listener panic: the type assertion is not
    guarded. *)
Theorem start_file_without_id_panics (event : Event) (w : World) :
  Name event = "start-file" →
  playlist_of event = None →
  ExtraData event ≠ ∅ →
  (∀ id, ExtraData event !! "playlist_entry_id" ≠ Some (VFloat id)) →
  panics (handleEvent event w) = true.
Proof.
  intros Hname Hpl Hne Hid. unfold handleEvent. rewrite Hpl, Hname.
  rewrite bool_decide_eq_true_2 by reflexivity.
  assert (Hsize : (0 <? size (ExtraData event))%nat = true).
  { apply Nat.ltb_lt. destruct (size (ExtraData event)) eqn:Hs; [|lia].
    apply map_size_empty_iff in Hs. contradiction. }
  rewrite Hsize.
  match goal with
  | |- context [bind (Set_ "pause" (VString "yes")) (λ _, bind _ (λ _, ?k)) w] =>
      destruct (pause_cycle w k) as (e1 & e2 & w1 & Hrun & _)
  end.
  rewrite Hrun. unfold bind, extra.
  destruct (ExtraData event !! "playlist_entry_id") as [[]|] eqn:Hl;
    try reflexivity.
  exfalso. exact (Hid _ eq_refl).
Qed.

(** X12. A start-file event with no extra data only cycles the pause. *)
Theorem start_file_bare (event : Event) (w : World) :
  Name event = "start-file" →
  playlist_of event = None →
  ExtraData event = ∅ →
  ∃ e1 e2 w1, handleEvent event w = Ret tt w1 ∧
    trace w1 = trace w ++ [ASet "pause" (VString "yes") e1;
                           ASet "pause" (VString "no") e2] ∧
    monitor w1 = monitor w ∧ Events w1 = Events w.
Proof.
  intros Hname Hpl Hempty. unfold handleEvent. rewrite Hpl, Hname, Hempty.
  rewrite bool_decide_eq_true_2 by reflexivity.
  rewrite map_size_empty. cbn [Nat.ltb Nat.leb].
  match goal with
  | |- context [bind (Set_ "pause" (VString "yes")) (λ _, bind _ (λ _, ?k)) w] =>
      destruct (pause_cycle w k) as (e1 & e2 & w1 & Hrun & Ht & Hm & He)
  end.
  exists e1, e2, w1. rewrite Hrun. auto.
Qed.

(** X13. An end-file event reports an error only when it carries a non-empty
    error string and an id: without either, or with the empty string, the
    listener does nothing at all. *)
Theorem end_file_without_error (event : Event) (w : World) :
  Name event = "end-file" →
  playlist_of event = None →
  ExtraData event = ∅ ∨
  extra event "file_error" = VNil ∨
  extra event "playlist_entry_id" = VNil ∨
  extra event "file_error" = VString "" →
  handleEvent event w = Ret tt w.
Proof.
  intros Hname Hpl Hcase. unfold handleEvent. rewrite Hpl, Hname.
  rewrite bool_decide_eq_false_2 by discriminate.
  rewrite bool_decide_eq_true_2 by reflexivity.
  destruct Hcase as [Hempty|Hcase].
  { rewrite Hempty, map_size_empty. reflexivity. }
  destruct (0 <? size (ExtraData event))%nat; [|reflexivity].
  destruct Hcase as [Herr|[Hid|Herr]].
  - rewrite Herr. reflexivity.
  - rewrite Hid. rewrite andb_false_r. reflexivity.
  - rewrite Herr. cbn [is_nil negb andb as_string].
    destruct (is_nil (extra event "playlist_entry_id")); reflexivity.
Qed.

Lemma handleEvent_end_file_id (event : Event) (reason : string) (id : Z) (w : World) :
  Name event = "end-file" →
  playlist_of event = None →
  ExtraData event !! "file_error" = Some (VString reason) →
  reason ≠ "" →
  ExtraData event !! "playlist_entry_id" = Some (VFloat id) →
  handleEvent event w =
    if Channel.has_room (ErrorNumber (Events w))
    then Ret tt (with_Events
                   (with_ErrorNumber (Channel.push id (ErrorNumber (Events w)))
                                     (Events w)) w)
    else Block w.
Proof.
  intros Hname Hpl Herr Hreason Hid. unfold handleEvent. rewrite Hpl, Hname.
  rewrite bool_decide_eq_false_2 by discriminate.
  rewrite bool_decide_eq_true_2 by reflexivity.
  rewrite (extra_data_size _ _ _ Hid). unfold extra. rewrite Herr, Hid.
  simpl. unfold bind, ret. simpl.
  rewrite bool_decide_eq_false_2 by exact Hreason. reflexivity.
Qed.

(** X14. An end-file event with a non-empty error string and the id of its
    entry hands the id to [ErrorNumber] and touches nothing else; if
    [ErrorNumber] is full the listener blocks. *)
Theorem end_file_reports_id (event : Event) (reason : string) (id : Z) (w : World) :
  Name event = "end-file" →
  playlist_of event = None →
  ExtraData event !! "file_error" = Some (VString reason) →
  reason ≠ "" →
  ExtraData event !! "playlist_entry_id" = Some (VFloat id) →
  handleEvent event w =
    if Channel.has_room (ErrorNumber (Events w))
    then Ret tt (with_Events
                   (with_ErrorNumber (Channel.push id (ErrorNumber (Events w)))
                                     (Events w)) w)
    else Block w.
Proof. apply handleEvent_end_file_id. Qed.

(** X15. An event that is neither a change of the playlist nor one of the three
    named events is ignored. *)
Theorem other_events_ignored (event : Event) (w : World) :
  playlist_of event = None →
  Name event ≠ "start-file" → Name event ≠ "end-file" → Name event ≠ "file-loaded" →
  handleEvent event w = Ret tt w.
Proof.
  intros Hpl H1 H2 H3. unfold handleEvent. rewrite Hpl.
  rewrite !bool_decide_eq_false_2 by assumption. reflexivity.
Qed.

(** X16. From the start of a file to the error on the screen: the player
    announces the start of entry [id], the loader hands the title to the
    monitor, the player announces that the entry failed, the monitor takes
    its turn and the user interface shows the error.  The error names that
    title, the id is forgotten and the channels are empty again. *)
Theorem failed_entry_is_named (id : Z) (title reason : string) (w : World) :
  reason ≠ "" →
  FileNumber (Events w) = Chan (cap (FileNumber (Events w))) [] →
  ErrorNumber (Events w) = Chan (cap (ErrorNumber (Events w))) [] →
  ErrorEvent (Events w) = Chan (cap (ErrorEvent (Events w))) [] →
  (0 < cap (FileNumber (Events w)))%nat →
  (0 < cap (ErrorNumber (Events w)))%nat →
  (0 < cap (ErrorEvent (Events w)))%nat →
  ∃ w', run [SEvent (start_file id); SAdd title; SEvent (end_file id reason);
             SMonitor; SShow] w = Ret tt w' ∧
    errors_shown (trace w') =
      errors_shown (trace w) ++ ["Player: Unable to play " +:+ title] ∧
    monitor w' = delete id (monitor w) ∧
    Events w' = Events w.
Proof.
  intros Hreason HF HN HE HcF HcN HcE.
  destruct (handleEvent_start_file_id (start_file id) id w)
    as (e1 & e2 & w1 & Ht1 & Hm1 & He1 & Hrun1); [reflexivity..|].
  assert (HroomF : Channel.has_room (FileNumber (Events w)) = true).
  { unfold Channel.has_room. rewrite HF. apply bool_decide_eq_true_2. exact HcF. }
  rewrite HroomF in Hrun1.
  cbn [run step]. unfold bind at 1. rewrite Hrun1.
  set (w2 := with_Events _ w1).
  unfold bind at 1.
  assert (Hadd : addToMonitor title w2 =
    Ret tt (with_monitor (<[id := title]> (monitor w))
              (with_Events (Events w) (with_trace (trace w2 ++ [AMonitor title]) w2)))).
  { unfold addToMonitor, bind, log, modify, try_recv, Channel.pop. subst w2. simpl.
    rewrite HF. simpl. rewrite Hm1.
    rewrite <- HF. destruct (Events w); reflexivity. }
  rewrite Hadd. set (w3 := with_monitor _ _).
  unfold bind at 1.
  assert (Hend : handleEvent (end_file id reason) w3 =
    Ret tt (with_Events
              (with_ErrorNumber (Channel.push id (ErrorNumber (Events w))) (Events w))
              w3)).
  { rewrite (handleEvent_end_file_id (end_file id reason) reason id w3);
      [|reflexivity|reflexivity|reflexivity|exact Hreason|reflexivity].
    subst w3. cbn [Events with_monitor with_Events].
    unfold Channel.has_room. rewrite HN.
    rewrite bool_decide_eq_true_2 by exact HcN. reflexivity. }
  rewrite Hend. set (w4 := with_Events _ w3).
  unfold bind at 1. unfold startMonitor_step, bind, recv, Channel.pop.
  subst w4. cbn [Events with_Events with_ErrorNumber ErrorNumber Channel.push buf].
  rewrite HN. cbn [buf app cap].
  unfold monitorError, bind, gets, modify, try_send. cbn.
  rewrite lookup_insert_eq. cbn.
  unfold Channel.try_send, Channel.has_room. rewrite HE. cbn.
  rewrite bool_decide_eq_true_2 by exact HcE.
  unfold monitorMPVEvents_error, bind, recv, Channel.pop, log, modify, ret. cbn.
  eexists. split; [reflexivity|]. cbn.
  split; [|split].
  - unfold errors_shown. rewrite !omap_app. cbn. rewrite Ht1, omap_app. cbn.
    rewrite !app_nil_r. reflexivity.
  - apply delete_insert_eq.
  - rewrite <- HE, <- HN. clear. destruct (Events w); reflexivity.
Qed.

End Events.

Lemma start_file_hands_over_id_witness :
  let w := Sim.with_pending [7] (Sim.fresh 4) in
  ∃ e1 e2 w1,
    trace w1 = trace w ++ [ASet "pause" (VString "yes") e1;
                           ASet "pause" (VString "no") e2] ∧
    monitor w1 = monitor w ∧ Events w1 = Events w ∧
    handleEvent (start_file 8) w =
      if Channel.has_room (FileNumber (Events w))
      then Ret tt (with_Events
                     (with_FileNumber (Channel.push 8 (FileNumber (Events w)))
                                      (Events w)) w1)
      else Block w1.
Proof.
  intros w.
  apply (start_file_hands_over_id (start_file 8) 8 w); reflexivity.
Defined.

Lemma start_file_without_id_panics_witness :
  panics (handleEvent {| ID := 0; Name := "start-file"; Data := VNil;
                         ExtraData := {[ "playlist_entry_id" := VString "8" ]} |}
                      (Sim.fresh 4)) = true.
Proof.
  apply start_file_without_id_panics.
  - reflexivity.
  - reflexivity.
  - intros Hempty.
    apply (f_equal (λ m : gmap string Value, m !! "playlist_entry_id")) in Hempty.
    vm_compute in Hempty. discriminate Hempty.
  - intros id Hid. vm_compute in Hid. discriminate Hid.
Defined.

Lemma start_file_bare_witness :
  let w := Sim.fresh 4 in
  ∃ e1 e2 w1,
    handleEvent {| ID := 0; Name := "start-file"; Data := VNil; ExtraData := ∅ |} w
    = Ret tt w1 ∧
    trace w1 = trace w ++ [ASet "pause" (VString "yes") e1;
                           ASet "pause" (VString "no") e2] ∧
    monitor w1 = monitor w ∧ Events w1 = Events w.
Proof.
  intros w. apply start_file_bare; reflexivity.
Defined.

Lemma end_file_without_error_witness :
  handleEvent (end_file 7 "") (Sim.fresh 4) = Ret tt (Sim.fresh 4).
Proof.
  apply end_file_without_error.
  - reflexivity.
  - reflexivity.
  - right. right. right. reflexivity.
Defined.

Lemma end_file_reports_id_witness :
  let w := Sim.fresh 4 in
  handleEvent (end_file 7 "loading failed") w =
    if Channel.has_room (ErrorNumber (Events w))
    then Ret tt (with_Events
                   (with_ErrorNumber (Channel.push 7 (ErrorNumber (Events w)))
                                     (Events w)) w)
    else Block w.
Proof.
  intros w.
  apply (end_file_reports_id (end_file 7 "loading failed") "loading failed" 7 w).
  - reflexivity.
  - reflexivity.
  - reflexivity.
  - discriminate.
  - reflexivity.
Defined.

Lemma other_events_ignored_witness :
  handleEvent {| ID := 0; Name := "playback-restart"; Data := VNil;
                 ExtraData := {[ "playlist_entry_id" := VFloat 7 ]} |}
              (Sim.fresh 4)
  = Ret tt (Sim.fresh 4).
Proof.
  apply other_events_ignored.
  - reflexivity.
  - discriminate.
  - discriminate.
  - discriminate.
Defined.

Lemma failed_entry_is_named_witness :
  let w := with_monitor {[ 3 := "Song A" ]} (Sim.fresh 1) in
  ∃ w', run [SEvent (start_file 4); SAdd "Song B";
             SEvent (end_file 4 "loading failed"); SMonitor; SShow] w = Ret tt w' ∧
    errors_shown (trace w') =
      errors_shown (trace w) ++ ["Player: Unable to play " +:+ "Song B"] ∧
    monitor w' = delete 4 (monitor w) ∧
    Events w' = Events w.
Proof.
  intros w.
  apply (failed_entry_is_named 4 "Song B" "loading failed" w).
  - discriminate.
  - reflexivity.
  - reflexivity.
  - reflexivity.
  - simpl. lia.
  - simpl. lia.
  - simpl. lia.
Defined.

(** ** The progress line *)

(** X17. Whatever position and duration are read, the duration the bar divides
    by is at least 1 and the position lies between 0 and it; and for a view
    of width [W >= 0], as long as half of [W] times that duration fits an
    integer, the filled and the blank part are both non-negative and make
    up exactly [W / 2] cells. *)
Theorem bar_is_well_formed (W timepos duration : Z) :
  0 <= W <= GoInt.max_int →
  GoInt.in_range (W ÷ 2 * (clampTimes timepos duration).2) →
  1 <= (clampTimes timepos duration).2 ∧
  0 <= (clampTimes timepos duration).1 <= (clampTimes timepos duration).2 ∧
  0 <= (barLengths W (clampTimes timepos duration).1 (clampTimes timepos duration).2).1 ∧
  0 <= (barLengths W (clampTimes timepos duration).1 (clampTimes timepos duration).2).2 ∧
  (barLengths W (clampTimes timepos duration).1 (clampTimes timepos duration).2).1
  + (barLengths W (clampTimes timepos duration).1 (clampTimes timepos duration).2).2
  = W ÷ 2.
Proof.
  intros HW.
  assert (Hc : 1 <= (clampTimes timepos duration).2 ∧
               0 <= (clampTimes timepos duration).1 <= (clampTimes timepos duration).2).
  { unfold clampTimes.
    destruct (Z.ltb_spec timepos 0); destruct (Z.leb_spec duration 0); cbn [fst snd];
      match goal with |- context [?a <? ?b] => destruct (Z.ltb_spec a b) end;
      cbn [fst snd]; lia. }
  destruct (clampTimes timepos duration) as [t d]. cbn [fst snd] in *.
  intros Hr. destruct Hc as (Hd & Ht0 & Htd).
  split; [exact Hd|]. split; [lia|].
  assert (Hw : 0 <= W ÷ 2) by (apply Z.quot_pos; lia).
  assert (Hh : GoInt.in_range (W ÷ 2)) by (apply (half_in_range W d); [lia | exact Hr]).
  assert (Hm : GoInt.in_range (W ÷ 2 * t)).
  { unfold GoInt.in_range, GoInt.min_int, GoInt.max_int in *. nia. }
  assert (Hq : 0 <= (W ÷ 2 * t) ÷ d) by (apply Z.quot_pos; nia).
  assert (Hq' : (W ÷ 2 * t) ÷ d <= W ÷ 2).
  { rewrite Z.quot_div_nonneg by nia.
    apply Z.div_le_upper_bound; [lia|].
    rewrite (Z.mul_comm d). apply Z.mul_le_mono_nonneg_l; lia. }
  assert (Hlen : GoInt.in_range ((W ÷ 2 * t) ÷ d)).
  { unfold GoInt.in_range, GoInt.min_int, GoInt.max_int in *. lia. }
  unfold barLengths, GoInt.quot, GoInt.mul, GoInt.sub.
  rewrite (wrap_in_range (W ÷ 2)) by exact Hh.
  rewrite (wrap_in_range (W ÷ 2 * t)) by exact Hm.
  rewrite (wrap_in_range ((W ÷ 2 * t) ÷ d)) by exact Hlen.
  rewrite (wrap_in_range (W ÷ 2 - (W ÷ 2 * t) ÷ d))
    by (unfold GoInt.in_range, GoInt.min_int, GoInt.max_int in *; lia).
  destruct (Z.ltb_spec (W ÷ 2 - (W ÷ 2 * t) ÷ d) 0); cbn [fst snd]; lia.
Qed.

Lemma bar_is_well_formed_witness :
  1 <= (clampTimes (-3) 0).2 ∧
  0 <= (clampTimes (-3) 0).1 <= (clampTimes (-3) 0).2 ∧
  0 <= (barLengths 81 (clampTimes (-3) 0).1 (clampTimes (-3) 0).2).1 ∧
  0 <= (barLengths 81 (clampTimes (-3) 0).1 (clampTimes (-3) 0).2).2 ∧
  (barLengths 81 (clampTimes (-3) 0).1 (clampTimes (-3) 0).2).1
  + (barLengths 81 (clampTimes (-3) 0).1 (clampTimes (-3) 0).2).2
  = 81 ÷ 2.
Proof.
  apply (bar_is_well_formed 81 (-3) 0).
  - vm_compute. split; discriminate.
  - vm_compute. split; discriminate.
Defined.

Section ProgressLine.

Context {C : Type} `{!Transport C} `{!Externals}.

Local Abbreviation World := (World C).

(** X18. [updateProgressAndInfo] returns an error exactly when the position in
    the queue reads -1, and then it is the empty-playlist error, returned
    after that one query.  A query that fails does not count: it is read
    as position 0. *)
Theorem updateProgressAndInfo_error (width : Z) (w w' : World)
    (title line : string) (states : list string) (err : error) :
  updateProgressAndInfo width w = Ret (title, line, states, Some err) w' ↔
  QueuePosition w = Ret (-1) w' ∧
  title = "" ∧ line = "" ∧ states = [] ∧ err = Err "Player: Empty playlist".
Proof.
  split.
  - unfold updateProgressAndInfo. unfold bind at 1.
    destruct (QueuePosition w) as [ppos w1| |] eqn:Hpos; try discriminate.
    destruct (Z.eqb_spec ppos (-1)) as [->|Hne].
    + unfold ret. intros [= <- <- <- <- <-]. auto.
    + intros Hrun. exfalso. revert Hrun. unfold bind, ret.
      repeat match goal with
             | |- match ?m ?x with _ => _ end = _ → _ =>
                 destruct (m x) as [? ?| |]; try discriminate
             | |- (let '(_, _) := ?p in _) _ = _ → _ => destruct p
             | |- match ?o with Some _ => _ | None => _ end _ = _ → _ =>
                 destruct o
             | |- match ?o with Some _ => _ | None => _ end = _ → _ =>
                 destruct o; try discriminate
             | |- (if ?b then _ else _) _ = _ → _ => destruct b
             | |- match (if ?b then _ else _) _ with _ => _ end = _ → _ => destruct b
             | |- match (let '(_, _) := ?p in _) with _ => _ end = _ → _ => destruct p
             end; discriminate.
  - intros (Hpos & -> & -> & -> & ->).
    unfold updateProgressAndInfo. unfold bind at 1. rewrite Hpos. reflexivity.
Qed.

End ProgressLine.

(** ** A player that has exited *)

Section ExitedPlayer.

Context {C : Type} `{!Transport C} `{!Externals}.

Local Abbreviation World := (World C).
Local Abbreviation M := (M (C := C)).

Lemma with_trace_same (w : World) : with_trace (trace w ++ []) w = w.
Proof. destruct w. unfold with_trace. simpl. rewrite app_nil_r. reflexivity. Qed.

Lemma fails_fast_ret {A} (a : A) : fails_fast (ret a : M A) a.
Proof.
  intros w _. exists []. split; [|constructor].
  unfold ret. rewrite with_trace_same. reflexivity.
Qed.

Lemma fails_fast_bind {A B} (m : M A) (k : A → M B) (a : A) (b : B) :
  fails_fast m a → fails_fast (k a) b → fails_fast (bind m k) b.
Proof.
  intros Hm Hk w Hx. destruct (Hm w Hx) as (t1 & Hrun1 & Ht1).
  destruct (Hk (with_trace (trace w ++ t1) w)) as (t2 & Hrun2 & Ht2).
  { destruct w. exact Hx. }
  exists (t1 ++ t2). split; [|apply Forall_app; auto].
  unfold bind. rewrite Hrun1, Hrun2. destruct w. unfold with_trace. simpl.
  rewrite app_assoc. reflexivity.
Qed.

Lemma fails_fast_Call (args : list Value) :
  fails_fast (Call args) (VNil, Some closed_error).
Proof.
  intros w Hx. exists [ACall args (VNil, Some closed_error)].
  split; [apply Call_exited, Hx | repeat constructor].
Qed.

Lemma fails_fast_Get (prop : string) :
  fails_fast (Get prop) (VNil, Some closed_error).
Proof.
  intros w Hx. exists [AGet prop (VNil, Some closed_error)].
  split; [apply Get_exited, Hx | repeat constructor].
Qed.

Lemma fails_fast_Set (prop : string) (v : Value) :
  fails_fast (Set_ prop v) (Some closed_error).
Proof.
  intros w Hx. exists [ASet prop v (Some closed_error)].
  split; [|repeat constructor].
  revert Hx. unfold Exited, Set_. destruct w as [[c|] m e f t]; simpl.
  - intros ->. reflexivity.
  - reflexivity.
Qed.

Lemma fails_fast_bool (prop : string) (fallback : bool) :
  fails_fast (bool_property prop fallback) fallback.
Proof.
  eapply fails_fast_bind; [apply fails_fast_Get | apply fails_fast_ret].
Qed.

Lemma fails_fast_int (prop : string) (fallback : Z) :
  fails_fast (int_property prop fallback) fallback.
Proof.
  eapply fails_fast_bind; [apply fails_fast_Get | apply fails_fast_ret].
Qed.

(** X19. Once the player has exited, no query and no control reaches the
    transport: each is refused by [Call], [Get] or [Set] themselves, the
    connection, the monitor and the channels stay as they are, and every
    query answers with its fallback, so a dead player reads as audio that
    is buffering, not paused, at volume -1, in an empty queue at position
    0. *)
Theorem exited_player_fails_fast (pos before after : Z) :
  fails_fast (Title pos) "-" ∧
  fails_fast MediaType "Audio" ∧
  fails_fast Position 0 ∧
  fails_fast Duration 0 ∧
  fails_fast Paused false ∧
  fails_fast Shuffled false ∧
  fails_fast Muted false ∧
  fails_fast Idle false ∧
  fails_fast Finished false ∧
  fails_fast Buffering true ∧
  fails_fast Volume (-1) ∧
  fails_fast QueueCount 0 ∧
  fails_fast QueuePosition 0 ∧
  fails_fast LoopMode "" ∧
  fails_fast QueueData "" ∧
  fails_fast VolumeIncrease tt ∧
  fails_fast VolumeDecrease tt ∧
  fails_fast TogglePaused tt ∧
  fails_fast Play tt ∧
  fails_fast Stop tt ∧
  fails_fast (QueueMove before after) tt.
Proof.
  repeat split.
  - eapply fails_fast_bind; [apply fails_fast_Call | apply fails_fast_ret].
  - eapply fails_fast_bind; [apply fails_fast_Get | apply fails_fast_ret].
  - apply fails_fast_int.
  - eapply fails_fast_bind; [apply fails_fast_Get|]. cbn [snd].
    eapply fails_fast_bind; [apply fails_fast_Get | apply fails_fast_ret].
  - apply fails_fast_bool.
  - apply fails_fast_bool.
  - apply fails_fast_bool.
  - apply fails_fast_bool.
  - apply fails_fast_bool.
  - apply fails_fast_bool.
  - apply fails_fast_int.
  - apply fails_fast_int.
  - apply fails_fast_int.
  - eapply fails_fast_bind; [apply fails_fast_Call | apply fails_fast_ret].
  - eapply fails_fast_bind; [apply fails_fast_Call | apply fails_fast_ret].
  - eapply fails_fast_bind; [apply fails_fast_int | apply fails_fast_ret].
  - eapply fails_fast_bind; [apply fails_fast_int | apply fails_fast_ret].
  - eapply fails_fast_bind; [apply fails_fast_bool|].
    eapply fails_fast_bind; [apply fails_fast_ret|].
    eapply fails_fast_bind; [apply fails_fast_ret|].
    eapply fails_fast_bind; [apply fails_fast_Call | apply fails_fast_ret].
  - eapply fails_fast_bind; [apply fails_fast_Set | apply fails_fast_ret].
  - eapply fails_fast_bind; [apply fails_fast_Call | apply fails_fast_ret].
  - eapply fails_fast_bind; [apply fails_fast_Call | apply fails_fast_ret].
Qed.

End ExitedPlayer.

(** A dead player, asked: what it is asked is in the trace, refused. *)
Example exited_player_course :
  (λ o, match o with
        | Ret a w' => Some (a, trace w', Connection w', monitor w' = monitor (Sim.dead 1))
        | _ => None
        end) ((v <- Volume ;; b <- Buffering ;; ret (v, b))%go (Sim.dead 1))
  = Some ((-1, true),
          [AGet "volume" (VNil, Some closed_error);
           AGet "paused-for-cache" (VNil, Some closed_error)],
          Connection (Sim.dead 1), monitor (Sim.dead 1) = monitor (Sim.dead 1)).
Proof. reflexivity. Qed.

(** ** The controls *)

Section ControlsFacts.

Context {C : Type} `{!Transport C} `{!Externals}.

Local Abbreviation World := (World C).
Local Abbreviation M := (M (C := C)).

(** X20. When the volume is read, [VolumeIncrease] and [VolumeDecrease] write
    one more and one less than it, whatever it is: nothing keeps the
    value within the range of the player, so at 0 the decrease writes -1.
    The one exception is a volume that reads -1, which is taken for a
    failed query: then nothing is written. *)
Theorem volume_step_is_not_clamped (v : Z) (w w1 : World) :
  Get "volume" w = Ret (VFloat v, None) w1 →
  if v =? -1 then
    VolumeIncrease w = Ret tt w1 ∧ VolumeDecrease w = Ret tt w1
  else
    ∃ e1 e2 wi wd,
      VolumeIncrease w = Ret tt wi ∧
      trace wi = trace w1 ++ [ASet "volume" (VInt (GoInt.add v 1)) e1] ∧
      VolumeDecrease w = Ret tt wd ∧
      trace wd = trace w1 ++ [ASet "volume" (VInt (GoInt.sub v 1)) e2].
Proof.
  intros Hget.
  assert (HV : Volume w = Ret v w1).
  { unfold Volume, int_property, bind. rewrite Hget. reflexivity. }
  assert (Hinc : VolumeIncrease w =
            if v =? -1 then Ret tt w1
            else (Set_ "volume" (VInt (GoInt.add v 1)) ;; ret tt)%go w1).
  { unfold VolumeIncrease. unfold bind at 1. rewrite HV.
    destruct (v =? -1); reflexivity. }
  assert (Hdec : VolumeDecrease w =
            if v =? -1 then Ret tt w1
            else (Set_ "volume" (VInt (GoInt.sub v 1)) ;; ret tt)%go w1).
  { unfold VolumeDecrease. unfold bind at 1. rewrite HV.
    destruct (v =? -1); reflexivity. }
  rewrite Hinc, Hdec. destruct (v =? -1); [split; reflexivity|].
  destruct (Set_ret "volume" (VInt (GoInt.add v 1)) w1) as (e1 & wi & Hi & Hti & _).
  destruct (Set_ret "volume" (VInt (GoInt.sub v 1)) w1) as (e2 & wd & Hd & Htd & _).
  exists e1, e2, wi, wd. unfold bind, ret. rewrite Hi, Hd. auto.
Qed.

(** X21. [QueuePlayLatest] writes the count of the queue less one as the
    position, then starts the playback, whatever the two writes answer.
    The count of a failed query is 0, so then, as for an empty queue, the
    position written is -1. *)
Theorem QueuePlayLatest_writes (count : Z) (w w1 : World) :
  QueueCount w = Ret count w1 →
  ∃ e1 e2 w', QueuePlayLatest w = Ret tt w' ∧
    trace w' = trace w1 ++ [ASet "playlist-pos" (VInt (GoInt.sub count 1)) e1;
                            ASet "pause" (VString "no") e2] ∧
    monitor w' = monitor w1 ∧ Events w' = Events w1 ∧
    ((∃ v e, Get "playlist-count" w = Ret (v, Some e) w1) →
     GoInt.sub count 1 = -1).
Proof.
  intros Hcount.
  destruct (Set_ret "playlist-pos" (VInt (GoInt.sub count 1)) w1)
    as (e1 & wa & Ha & Hta & Hma & Hea & _).
  destruct (Set_ret "pause" (VString "no") wa) as (e2 & wb & Hb & Htb & Hmb & Heb & _).
  exists e1, e2, wb. unfold QueuePlayLatest, Play, bind, ret.
  rewrite Hcount, Ha, Hb. split; [reflexivity|].
  split; [rewrite Htb, Hta, <- app_assoc; reflexivity|].
  split; [congruence|]. split; [congruence|].
  intros (v & e & Hget). revert Hcount.
  unfold QueueCount, int_property, bind. rewrite Hget. cbn [snd].
  unfold ret. intros [= <-]. reflexivity.
Qed.

(** X22. [TogglePaused] always ends with one command to cycle the pause.  It
    seeks to the start first only when the playback reads both finished
    and paused; when it does not read finished, whether it is paused is
    not even asked. *)
Theorem TogglePaused_rewinds_at_end (finished paused : bool) (w w1 w2 : World) :
  Finished w = Ret finished w1 →
  (if finished then Paused w1 = Ret paused w2 else w2 = w1) →
  ∃ r1 r2 w', TogglePaused w = Ret tt w' ∧
    trace w' =
      trace w2 ++
      (if finished && paused
       then [ACall [VString "seek"; VInt 0; VString "absolute-percent"] r1]
       else []) ++
      [ACall [VString "cycle"; VString "pause"] r2].
Proof.
  intros Hfin Hp. unfold TogglePaused. unfold bind at 1. rewrite Hfin.
  destruct finished.
  - unfold bind at 1. rewrite Hp. destruct paused; cbn [andb].
    + destruct (Call_ret [VString "seek"; VInt 0; VString "absolute-percent"] w2)
        as (r1 & wa & Ha & Hta & _).
      destruct (Call_ret [VString "cycle"; VString "pause"] wa)
        as (r2 & wb & Hb & Htb & _).
      exists r1, r2, wb. unfold bind, ret. rewrite Ha, Hb. split; [reflexivity|].
      rewrite Htb, Hta, <- app_assoc. reflexivity.
    + destruct (Call_ret [VString "cycle"; VString "pause"] w2)
        as (r2 & wb & Hb & Htb & _).
      exists r2, r2, wb. unfold bind, ret. rewrite Hb. split; [reflexivity|].
      exact Htb.
  - subst w2. cbn [andb].
    destruct (Call_ret [VString "cycle"; VString "pause"] w1)
      as (r & wb & Hb & Htb & _).
    exists r, r, wb. unfold bind, ret. rewrite Hb. auto.
Qed.

End ControlsFacts.

Lemma volume_step_is_not_clamped_witness :
  let w := with_Connection (Some (Sim.store "volume" (VFloat 0) Sim.live_player))
             (Sim.fresh 1) in
  let w1 := with_trace [AGet "volume" (VFloat 0, None)] w in
  ∃ e1 e2 wi wd,
    VolumeIncrease w = Ret tt wi ∧
    trace wi = trace w1 ++ [ASet "volume" (VInt (GoInt.add 0 1)) e1] ∧
    VolumeDecrease w = Ret tt wd ∧
    trace wd = trace w1 ++ [ASet "volume" (VInt (GoInt.sub 0 1)) e2].
Proof.
  intros w w1. exact (volume_step_is_not_clamped 0 w w1 eq_refl).
Defined.

(** At volume 0 the decrease writes -1, and the player of the simulation
    stores it. *)
Example VolumeDecrease_below_zero :
  (λ o, match o with
        | Ret _ w' => Some (trace w')
        | _ => None
        end)
    (VolumeDecrease
       (with_Connection (Some (Sim.store "volume" (VFloat 0) Sim.live_player))
          (Sim.fresh 1)))
  = Some [AGet "volume" (VFloat 0, None); ASet "volume" (VInt (-1)) None].
Proof. vm_compute. reflexivity. Qed.

Lemma QueuePlayLatest_writes_witness :
  let w := Sim.fresh 1 in
  let w1 := with_trace [AGet "playlist-count" (VNil, Some Sim.unavailable)] w in
  ∃ e1 e2 w', QueuePlayLatest w = Ret tt w' ∧
    trace w' = trace w1 ++ [ASet "playlist-pos" (VInt (GoInt.sub 0 1)) e1;
                            ASet "pause" (VString "no") e2] ∧
    monitor w' = monitor w1 ∧ Events w' = Events w1 ∧
    ((∃ v e, Get "playlist-count" w = Ret (v, Some e) w1) →
     GoInt.sub 0 1 = -1).
Proof.
  intros w w1. exact (QueuePlayLatest_writes 0 w w1 eq_refl).
Defined.

Lemma TogglePaused_rewinds_at_end_witness :
  let w := with_Connection
             (Some (Sim.store "eof-reached" (VBool true)
                      (Sim.store "pause" (VBool true) Sim.live_player)))
             (Sim.fresh 1) in
  let w2 := with_trace [AGet "eof-reached" (VBool true, None);
                        AGet "pause" (VBool true, None)] w in
  ∃ r1 r2 w', TogglePaused w = Ret tt w' ∧
    trace w' =
      trace w2 ++
      [ACall [VString "seek"; VInt 0; VString "absolute-percent"] r1] ++
      [ACall [VString "cycle"; VString "pause"] r2].
Proof.
  intros w w2.
  exact (TogglePaused_rewinds_at_end true true w
           (with_trace [AGet "eof-reached" (VBool true, None)] w) w2
           eq_refl eq_refl).
Defined.

(** The same player, asked to toggle the pause: two reads, the seek, the
    cycle. *)
Example TogglePaused_course :
  (λ o, match o with
        | Ret _ w' => Some (trace w')
        | _ => None
        end)
    (TogglePaused
       (with_Connection
          (Some (Sim.store "eof-reached" (VBool true)
                   (Sim.store "pause" (VBool true) Sim.live_player)))
          (Sim.fresh 1)))
  = Some [AGet "eof-reached" (VBool true, None);
          AGet "pause" (VBool true, None);
          ACall [VString "seek"; VInt 0; VString "absolute-percent"] (VNil, None);
          ACall [VString "cycle"; VString "pause"] (VNil, None)].
Proof. vm_compute. reflexivity. Qed.

(** ** Starting the player *)

Lemma digit_range (c : ascii) (d : Z) : digit c = Some d → 0 <= d <= 9.
Proof.
  unfold digit.
  destruct (Z.leb_spec 48 (Z.of_nat (nat_of_ascii c)));
    destruct (Z.leb_spec (Z.of_nat (nat_of_ascii c)) 57); cbn [andb];
    try discriminate.
  intros [= <-]. lia.
Qed.

(** The number the digits of a text make, between the number read so far
    followed by zeros and the same followed by nines. *)
Lemma digits_bound (s : string) :
  ∀ acc n, digits s acc = Some n → 0 <= acc →
    acc * 10 ^ Z.of_nat (String.length s) <= n
    < (acc + 1) * 10 ^ Z.of_nat (String.length s).
Proof.
  induction s as [|c s IH]; intros acc n Hd Hacc.
  - injection Hd as <-. simpl. lia.
  - cbn [digits] in Hd. destruct (digit c) as [d|] eqn:Hc; [|discriminate].
    pose proof (digit_range c d Hc) as Hr.
    apply IH in Hd; [|lia].
    cbn [String.length]. rewrite Nat2Z.inj_succ, Z.pow_succ_r by lia.
    assert (Hp : 0 < 10 ^ Z.of_nat (String.length s)) by (apply Z.pow_pos_nonneg; lia).
    nia.
Qed.

Lemma ParseUint_digits_nonneg (s : string) :
  ∀ n un, ParseUint_digits s n = Parsed un → 0 <= n → 0 <= un.
Proof.
  induction s as [|c s IH]; intros n un Hp Hn.
  - injection Hp as <-. exact Hn.
  - cbn [ParseUint_digits] in Hp. destruct (digit c) as [d|] eqn:Hc; [|discriminate].
    pose proof (digit_range c d Hc) as Hr.
    destruct (maxUint64 / 10 + 1 <=? n); [discriminate|].
    destruct (maxUint64 <? 10 * n + d); [discriminate|].
    apply IH in Hp; lia.
Qed.

(** Where the digits make a number of [uint64], the loop of
    [strconv.ParseUint] gives that number. *)
Lemma ParseUint_digits_value (s : string) :
  ∀ acc n, digits s acc = Some n → 0 <= acc → n <= maxUint64 →
    ParseUint_digits s acc = Parsed n.
Proof.
  induction s as [|c s IH]; intros acc n Hd Hacc Hmax.
  - injection Hd as <-. reflexivity.
  - cbn [digits] in Hd. cbn [ParseUint_digits].
    destruct (digit c) as [d|] eqn:Hc; [|discriminate].
    pose proof (digit_range c d Hc) as Hr.
    pose proof (digits_bound s _ _ Hd ltac:(lia)) as Hb.
    assert (Hp : 0 < 10 ^ Z.of_nat (String.length s)) by (apply Z.pow_pos_nonneg; lia).
    assert (Hstep : 10 * acc + d <= maxUint64) by nia.
    destruct (Z.leb_spec (maxUint64 / 10 + 1) acc) as [Hcut|_].
    { exfalso. unfold maxUint64 in *.
      change ((2 ^ 64 - 1) / 10 + 1) with 1844674407370955162 in Hcut. lia. }
    destruct (Z.ltb_spec maxUint64 (10 * acc + d)); [lia|].
    apply IH; [exact Hd | lia | exact Hmax].
Qed.

Lemma Atoi_in_range (s : string) : GoInt.in_range (Atoi s).
Proof.
  assert (H0 : GoInt.in_range 0) by (vm_compute; split; discriminate).
  assert (Hmax : GoInt.in_range GoInt.max_int) by (vm_compute; split; discriminate).
  assert (Hmin : GoInt.in_range GoInt.min_int) by (vm_compute; split; discriminate).
  unfold Atoi.
  destruct ((0 <? len s) && (len s <? 19)) eqn:Hfast.
  - apply andb_true_iff in Hfast as [_ Hlen]. apply Z.ltb_lt in Hlen.
    assert (Hbody : ∀ neg body,
              (match s with
               | String "+"%char rest => (false, rest)
               | String "-"%char rest => (true, rest)
               | _ => (false, s)
               end) = (neg, body) →
              (String.length body <= String.length s)%nat).
    { intros neg body. destruct s as [|c rest]; [intros [= _ <-]; lia|].
      destruct c as [[] [] [] [] [] [] [] []]; intros [= _ <-]; cbn [String.length]; lia. }
    destruct (match s with
              | String "+"%char rest => (false, rest)
              | String "-"%char rest => (true, rest)
              | _ => (false, s)
              end) as [neg body] eqn:Hsplit.
    specialize (Hbody neg body eq_refl).
    destruct body as [|c body]; [exact H0|].
    destruct (digits (String c body) 0) as [n|] eqn:Hd; [|exact H0].
    pose proof (digits_bound _ _ _ Hd ltac:(lia)) as Hb.
    assert (Hpow : 10 ^ Z.of_nat (String.length (String c body)) <= 10 ^ 18).
    { apply Z.pow_le_mono_r; [lia|]. unfold len in Hlen. lia. }
    unfold GoInt.in_range, GoInt.min_int, GoInt.max_int.
    change (10 ^ 18) with 1000000000000000000 in Hpow.
    destruct neg; lia.
  - unfold ParseInt_value. destruct s as [|c0 s0]; [exact H0|].
    destruct (match String c0 s0 with
              | String "+"%char rest => (false, rest)
              | String "-"%char rest => (true, rest)
              | _ => (false, String c0 s0)
              end) as [neg body].
    destruct (ParseUint body) as [| |un] eqn:Hp; [exact H0 | destruct neg; assumption |].
    assert (Hun : 0 <= un).
    { unfold ParseUint in Hp. destruct body; [discriminate|].
      apply (ParseUint_digits_nonneg _ _ _ Hp). lia. }
    destruct neg; cbn [negb andb].
    + destruct (Z.ltb_spec (2 ^ 63) un); [exact Hmin|].
      unfold GoInt.in_range, GoInt.min_int, GoInt.max_int. lia.
    + destruct (Z.leb_spec (2 ^ 63) un); [exact Hmax|].
      unfold GoInt.in_range, GoInt.min_int, GoInt.max_int. lia.
Qed.

(** Where [strconv.ParseInt] gives a number without an error,
    [strconv.Atoi] gives the same number. *)
Lemma Atoi_ParseInt (s : string) (v : Z) : ParseInt s = Some v → Atoi s = v.
Proof.
  unfold ParseInt, Atoi, ParseInt_value.
  destruct ((0 <? len s) && (len s <? 19)).
  - destruct (match s with
              | String "+"%char rest => (false, rest)
              | String "-"%char rest => (true, rest)
              | _ => (false, s)
              end) as [neg body].
    destruct body as [|c body]; [discriminate|].
    destruct (digits (String c body) 0) as [n|]; [|discriminate].
    cbv zeta.
    destruct ((GoInt.min_int <=? (if neg then - n else n)) &&
              ((if neg then - n else n) <=? GoInt.max_int)); [|discriminate].
    intros [= <-]. reflexivity.
  - destruct s as [|c0 s0]; [discriminate|].
    destruct (match String c0 s0 with
              | String "+"%char rest => (false, rest)
              | String "-"%char rest => (true, rest)
              | _ => (false, String c0 s0)
              end) as [neg body].
    destruct body as [|c body]; [discriminate|].
    destruct (digits (String c body) 0) as [n|] eqn:Hd; [|discriminate].
    cbv zeta.
    destruct (Z.leb_spec GoInt.min_int (if neg then - n else n));
      destruct (Z.leb_spec (if neg then - n else n) GoInt.max_int);
      cbn [andb]; try discriminate.
    intros [= <-].
    pose proof (digits_bound _ _ _ Hd ltac:(lia)) as Hb.
    unfold ParseUint.
    rewrite (ParseUint_digits_value _ _ _ Hd ltac:(lia)).
    + unfold GoInt.min_int, GoInt.max_int in *.
      destruct neg; cbn [negb andb].
      * destruct (Z.ltb_spec (2 ^ 63) n); [lia | reflexivity].
      * destruct (Z.leb_spec (2 ^ 63) n); [lia | reflexivity].
    + unfold maxUint64, GoInt.min_int, GoInt.max_int in *. destruct neg; lia.
Qed.

(** Texts that are not numbers: 0 from the fast path and from a bad byte
    met before the digits overflow, a bound of [int] once they have. *)
Example Atoi_course :
  Atoi "" = 0 ∧ Atoi "+" = 0 ∧ Atoi "many" = 0 ∧ Atoi "12x" = 0 ∧
  Atoi "1_000" = 0 ∧ Atoi "-7" = -7 ∧ Atoi "+7" = 7 ∧
  Atoi "9223372036854775807" = GoInt.max_int ∧
  Atoi "9223372036854775808" = GoInt.max_int ∧
  Atoi "-9223372036854775808" = GoInt.min_int ∧
  Atoi "-9223372036854775809" = GoInt.min_int ∧
  Atoi "9223372036854775808x" = 0 ∧
  Atoi "18446744073709551616x" = GoInt.max_int ∧
  Atoi "99999999999999999999x" = GoInt.max_int ∧
  Atoi "-99999999999999999999x" = GoInt.min_int.
Proof. vm_compute. repeat split. Qed.

Section ConnectingFacts.

Context {C : Type} `{!Transport C} `{!Externals}.

Local Abbreviation World := (World C).

Lemma connect_from_success (h : Host C) (retries : Z) (conn : C) (w : World) (n : nat) :
  ∀ (tried fuel : nat),
    retries <= GoInt.max_int →
    Z.of_nat (tried + n) <= retries →
    opens h (tried + n)%nat = Some conn →
    (∀ j, (tried <= j < tried + n)%nat → opens h j = None) →
    (n < fuel)%nat →
    connect_from fuel h retries (Z.of_nat tried) tried w =
      Some (None, S (tried + n), with_Connection (Some conn) w).
Proof.
  induction n as [|n IH]; intros tried fuel Hmax Hle Hopen Hfail Hfuel.
  - destruct fuel as [|fuel]; [lia|]. cbn [connect_from].
    rewrite Nat.add_0_r in *.
    destruct (Z.leb_spec (Z.of_nat tried) retries); [|lia].
    rewrite Hopen. reflexivity.
  - destruct fuel as [|fuel]; [lia|]. cbn [connect_from].
    destruct (Z.leb_spec (Z.of_nat tried) retries); [|lia].
    rewrite (Hfail tried) by lia.
    unfold GoInt.add. rewrite wrap_in_range
      by (unfold GoInt.in_range, GoInt.min_int, GoInt.max_int in *; lia).
    replace (Z.of_nat tried + 1) with (Z.of_nat (S tried)) by lia.
    replace (tried + S n)%nat with (S tried + n)%nat in * by lia.
    apply IH; try assumption; try lia.
    intros j Hj. apply Hfail. lia.
Qed.

Lemma connect_from_failure (h : Host C) (retries : Z) (w : World) (n : nat) :
  ∀ (tried fuel : nat),
    retries < GoInt.max_int →
    n = Z.to_nat (retries + 1 - Z.of_nat tried) →
    (∀ j, (tried <= j)%nat → Z.of_nat j <= retries → opens h j = None) →
    (n < fuel)%nat →
    connect_from fuel h retries (Z.of_nat tried) tried w =
      Some (Some (Err "MPV: Could not connect to socket"), (tried + n)%nat, w).
Proof.
  induction n as [|n IH]; intros tried fuel Hmax Hn Hfail Hfuel.
  - destruct fuel as [|fuel]; [lia|]. cbn [connect_from].
    destruct (Z.leb_spec (Z.of_nat tried) retries); [lia|].
    rewrite Nat.add_0_r. reflexivity.
  - destruct fuel as [|fuel]; [lia|]. cbn [connect_from].
    destruct (Z.leb_spec (Z.of_nat tried) retries); [|lia].
    rewrite (Hfail tried) by lia.
    unfold GoInt.add. rewrite wrap_in_range
      by (unfold GoInt.in_range, GoInt.min_int, GoInt.max_int in *; lia).
    replace (Z.of_nat tried + 1) with (Z.of_nat (S tried)) by lia.
    replace (tried + S n)%nat with (S tried + n)%nat by lia.
    apply IH; try assumption; try lia.
    intros j Hj. apply Hfail. lia.
Qed.

Lemma connect_from_forever (h : Host C) (w : World) (fuel : nat) :
  ∀ (i : Z) (tried : nat),
    GoInt.in_range i →
    (∀ j, opens h j = None) →
    connect_from fuel h GoInt.max_int i tried w = None.
Proof.
  induction fuel as [|fuel IH]; intros i tried Hi Hfail; [reflexivity|].
  cbn [connect_from].
  destruct (Z.leb_spec i GoInt.max_int); [|unfold GoInt.in_range in Hi; lia].
  rewrite Hfail. apply IH; [apply wrap_range | exact Hfail].
Qed.

(** X23. [connect] returns at the first call of [Open] that succeeds, if that
    is one of the first [retries + 1]: it returns nil, the connection is
    the opened one, and no further call is made. *)
Theorem connect_first_success (h : Host C) (numretries : string) (conn : C)
    (k fuel : nat) (w : World) :
  starts h = true →
  Z.of_nat k <= Atoi numretries →
  opens h k = Some conn →
  (∀ j, (j < k)%nat → opens h j = None) →
  (k < fuel)%nat →
  connect fuel h numretries w = Some (None, S k, with_Connection (Some conn) w).
Proof.
  intros Hs Hk Hopen Hfail Hfuel. unfold connect. rewrite Hs.
  apply (connect_from_success h (Atoi numretries) conn w k 0 fuel).
  - apply Atoi_in_range.
  - exact Hk.
  - exact Hopen.
  - intros j Hj. apply Hfail. lia.
  - exact Hfuel.
Qed.

(** X24. If none of the first [retries + 1] calls of [Open] succeeds, and
    [retries] is less than the greatest integer, [connect] gives up after
    exactly that many calls, with its own error and the world as it was:
    after no call when [retries] is negative, after one when it is 0,
    which is also what a text with a syntax error is read as. *)
Theorem connect_gives_up (h : Host C) (numretries : string) (fuel : nat) (w : World) :
  starts h = true →
  Atoi numretries < GoInt.max_int →
  (∀ j, Z.of_nat j <= Atoi numretries → opens h j = None) →
  (Z.to_nat (Atoi numretries + 1) < fuel)%nat →
  connect fuel h numretries w =
    Some (Some (Err "MPV: Could not connect to socket"),
          Z.to_nat (Atoi numretries + 1), w).
Proof.
  intros Hs Hmax Hfail Hfuel. unfold connect. rewrite Hs.
  apply (connect_from_failure h (Atoi numretries) w
           (Z.to_nat (Atoi numretries + 1)) 0 fuel).
  - exact Hmax.
  - f_equal. simpl. lia.
  - intros j _. apply Hfail.
  - exact Hfuel.
Qed.

(** X25. With the greatest integer as the number of retries, which is also what
    a text is read as once its digits have left the range, whatever
    follows them, the loop of [connect] has no end while [Open] fails:
    the counter wraps around before it exceeds the bound, so [connect]
    never returns. *)
Theorem connect_never_gives_up (h : Host C) (numretries : string) (w : World) :
  starts h = true →
  Atoi numretries = GoInt.max_int →
  (∀ j, opens h j = None) →
  ∀ fuel, connect fuel h numretries w = None.
Proof.
  intros Hs Hmax Hfail fuel. unfold connect. rewrite Hs, Hmax.
  apply connect_from_forever; [vm_compute; split; discriminate | exact Hfail].
Qed.

End ConnectingFacts.

Lemma connect_first_success_witness :
  let h := {| starts := true;
              opens := λ k, if (k =? 2)%nat then Some Sim.live_player else None |} in
  connect 10 h "5" (Sim.fresh 1) =
    Some (None, 3%nat, with_Connection (Some Sim.live_player) (Sim.fresh 1)).
Proof.
  intros h. apply (connect_first_success h "5" Sim.live_player 2 10 (Sim.fresh 1)).
  - reflexivity.
  - vm_compute. discriminate.
  - reflexivity.
  - intros j Hj. destruct j as [|[|j]]; [reflexivity | reflexivity | lia].
  - lia.
Defined.

Lemma connect_gives_up_witness :
  let h := {| starts := true; opens := λ _ : nat, @None Sim.Player |} in
  connect 10 h "many" (Sim.fresh 1) =
    Some (Some (Err "MPV: Could not connect to socket"), 1%nat, Sim.fresh 1) ∧
  connect 10 h "-1" (Sim.fresh 1) =
    Some (Some (Err "MPV: Could not connect to socket"), 0%nat, Sim.fresh 1) ∧
  connect 10 h "-99999999999999999999x" (Sim.fresh 1) =
    Some (Some (Err "MPV: Could not connect to socket"), 0%nat, Sim.fresh 1).
Proof.
  intros h. split; [|split].
  - apply (connect_gives_up h "many" 10 (Sim.fresh 1)).
    + reflexivity.
    + reflexivity.
    + reflexivity.
    + vm_compute. lia.
  - apply (connect_gives_up h "-1" 10 (Sim.fresh 1)).
    + reflexivity.
    + reflexivity.
    + reflexivity.
    + vm_compute. lia.
  - apply (connect_gives_up h "-99999999999999999999x" 10 (Sim.fresh 1)).
    + reflexivity.
    + reflexivity.
    + reflexivity.
    + vm_compute. lia.
Defined.

Lemma connect_never_gives_up_witness :
  let h := {| starts := true; opens := λ _ : nat, @None Sim.Player |} in
  connect 1000 h "9223372036854775807" (Sim.fresh 1) = None ∧
  connect 1000 h "99999999999999999999x" (Sim.fresh 1) = None.
Proof.
  intros h. split.
  - apply (connect_never_gives_up h "9223372036854775807" (Sim.fresh 1)).
    + reflexivity.
    + vm_compute. reflexivity.
    + reflexivity.
  - apply (connect_never_gives_up h "99999999999999999999x" (Sim.fresh 1)).
    + reflexivity.
    + vm_compute. reflexivity.
    + reflexivity.
Defined.

(** ** The player bar *)

Lemma last_cons_default {A} (d a : A) (l : list A) :
  default d (last (a :: l)) = default a (last l).
Proof. rewrite last_cons. destruct (last l); reflexivity. Qed.

Lemma spaced_snoc (last0 s : bool) (l : list bool) :
  UI.spaced last0 (l ++ [s]) =
  UI.spaced last0 l && negb (default last0 (last l) && s).
Proof.
  revert last0. induction l as [|a l IH]; intros last0.
  - simpl. rewrite !andb_true_r. reflexivity.
  - cbn [app UI.spaced]. rewrite IH, last_cons_default, andb_assoc. reflexivity.
Qed.

Lemma loops_cons (c : bool) (ctxs : list bool) :
  UI.loops (c :: ctxs) = ((if c then 0 else 1) + UI.loops ctxs)%nat.
Proof. unfold UI.loops. rewrite filter_cons. destruct c; reflexivity. Qed.

(** What the checker has made of the statuses it has received, the last
    of which was [last0]: the update loop of the newest context runs if
    that status was to play, and no other loop runs. *)
Lemma playingStatusCheck_turns (statuses : list bool) :
  ∀ (last0 : bool) (ctxs : list bool),
    UI.spaced last0 statuses = true →
    (if last0 then ∃ older, ctxs = false :: older ∧ UI.loops older = 0%nat
     else UI.loops ctxs = 0%nat) →
    UI.loops (foldl UI.playingStatusCheck_turn ctxs statuses) =
      if default last0 (last statuses) then 1%nat else 0%nat.
Proof.
  induction statuses as [|s rest IH]; intros last0 ctxs Hsp Hok.
  - simpl. destruct last0.
    + destruct Hok as (older & -> & Ho). rewrite loops_cons, Ho. reflexivity.
    + exact Hok.
  - cbn [UI.spaced] in Hsp. apply andb_true_iff in Hsp as [Hfirst Hsp].
    cbn [foldl].
    rewrite last_cons_default.
    apply IH; [exact Hsp|].
    unfold UI.playingStatusCheck_turn. destruct s.
    + destruct last0; [discriminate Hfirst|].
      rewrite andb_false_r. cbn [negb]. exists ctxs. auto.
    + rewrite andb_true_r. cbn [negb]. destruct last0.
      * destruct Hok as (older & -> & Ho).
        rewrite bool_decide_eq_false_2 by discriminate. cbn [negb UI.cancel].
        rewrite loops_cons, Ho. reflexivity.
      * destruct ctxs as [|c older]; [reflexivity|].
        rewrite bool_decide_eq_false_2 by discriminate. cbn [negb UI.cancel].
        rewrite loops_cons in *. destruct c; simpl in *; lia.
Qed.

Section BarFacts.

Context {C : Type} `{!Transport C} `{!Externals}.

Local Abbreviation World := (World C).
Local Abbreviation M := (M (C := C)).

Lemma Hide_ret (p : UI.Player) (w : World) :
  ∃ w', UI.Hide p w =
          Ret (if UI.playing p
               then p |> UI.with_playing false
                      |> UI.sendPlayingStatus false
                      |> UI.with_flex_items 0
               else p) w' ∧
    Events w' = Events w ∧
    if UI.playing p then
      (∃ r1 r2, trace w' = trace w ++ [ACall [VString "stop"] r1;
                                       ACall [VString "playlist-clear"] r2]) ∧
      monitor w' = ∅
    else w' = w.
Proof.
  unfold UI.Hide. destruct (UI.playing p); cbn [negb].
  - destruct (Call_ret [VString "stop"] w) as (r1 & w1 & H1 & Ht1 & _ & He1 & _).
    destruct (Call_ret [VString "playlist-clear"] w1) as (r2 & w2 & H2 & Ht2 & _ & He2 & _).
    unfold Stop, QueueClear, clearMonitor, modify, bind, ret. rewrite H1, H2.
    eexists. split; [reflexivity|]. cbn. split; [congruence|]. split; [|reflexivity].
    exists r1, r2. rewrite Ht2, Ht1, <- app_assoc. reflexivity.
  - exists w. auto.
Qed.

Lemma request_ret (r : UI.Request) (p : UI.Player) (w : World) :
  ∃ p' w', UI.request r p w = Ret p' w' ∧
    p' = match r with
         | UI.RShow => UI.Show p
         | UI.RHide =>
             if UI.playing p
             then p |> UI.with_playing false
                    |> UI.sendPlayingStatus false
                    |> UI.with_flex_items 0
             else p
         | UI.RStatusOff => UI.sendPlayingStatus false p
         end.
Proof.
  destruct r; cbn [UI.request].
  - eexists _, w. split; reflexivity.
  - destruct (Hide_ret p w) as (w' & Hrun & _). eexists _, w'. split; [exact Hrun|].
    reflexivity.
  - eexists _, w. split; reflexivity.
Qed.

(** X26. [Hide] on a player that is playing stops the playback, clears the
    queue and with it the titles of the monitor, takes the bar out of the
    layout and sends the status; on a player that is not playing it does
    nothing, so a second [Hide] sends no second stop. *)
Theorem Hide_stops_and_clears (p : UI.Player) (w : World) :
  ∃ p' w', UI.Hide p w = Ret p' w' ∧
    UI.playing p' = false ∧
    Events w' = Events w ∧
    (if UI.playing p then
       (∃ r1 r2, trace w' = trace w ++ [ACall [VString "stop"] r1;
                                        ACall [VString "playlist-clear"] r2]) ∧
       monitor w' = ∅ ∧
       UI.flex_items p' = 0%nat ∧
       UI.channel p' = Channel.try_send false (UI.channel p)
     else p' = p ∧ w' = w) ∧
    UI.Hide p' w' = Ret p' w'.
Proof.
  destruct (Hide_ret p w) as (w' & Hrun & He & Hw).
  eexists _, w'. split; [exact Hrun|].
  destruct (UI.playing p) eqn:Hp.
  - split; [reflexivity|]. split; [exact He|].
    destruct Hw as [Ht Hm]. split; [auto|]. reflexivity.
  - split; [exact Hp|]. split; [exact He|]. split; [auto|].
    unfold UI.Hide. rewrite Hp. reflexivity.
Qed.

(** X27. Whatever is asked of it and in whatever order, the bar stays laid
    out: it is in the layout once while the player is playing and not at
    all otherwise; and no request blocks or panics. *)
Theorem requests_keep_layout (rs : list UI.Request) (p : UI.Player) (w : World) :
  UI.laid_out p →
  ∃ p' w', UI.requests rs p w = Ret p' w' ∧ UI.laid_out p'.
Proof.
  revert p w. induction rs as [|r rs IH]; intros p w Hp.
  - exists p, w. split; [reflexivity | exact Hp].
  - cbn [UI.requests]. unfold bind.
    destruct (request_ret r p w) as (p1 & w1 & -> & Hp1).
    apply IH. subst p1. unfold UI.laid_out in *.
    destruct r.
    + unfold UI.Show. destruct (UI.playing p) eqn:Hpl.
      * rewrite Hpl. exact Hp.
      * cbn. rewrite Hp. reflexivity.
    + destruct (UI.playing p) eqn:Hpl.
      * reflexivity.
      * rewrite Hpl. exact Hp.
    + exact Hp.
Qed.

(** The statuses waiting in the channel of [p], after the status [last0]:
    no two statuses of playing follow each other, and while the player is
    not playing the last status is not one of playing. *)
Lemma requests_spaced (rs : list UI.Request) :
  ∀ (p : UI.Player) (w : World) (last0 : bool),
    (length (buf (UI.channel p)) + length rs <= cap (UI.channel p))%nat →
    UI.spaced last0 (buf (UI.channel p)) = true →
    (UI.playing p = false → default last0 (last (buf (UI.channel p))) = false) →
    ∃ p' w', UI.requests rs p w = Ret p' w' ∧
      UI.spaced last0 (buf (UI.channel p')) = true ∧
      (UI.playing p' = false → default last0 (last (buf (UI.channel p'))) = false) ∧
      ((∀ r, r ∈ rs → r ≠ UI.RStatusOff) →
       UI.playing p = default last0 (last (buf (UI.channel p))) →
       UI.playing p' = default last0 (last (buf (UI.channel p')))).
Proof.
  induction rs as [|r rs IH]; intros p w last0 Hroom Hsp Hlast.
  - exists p, w. split; [reflexivity|]. auto.
  - cbn [UI.requests]. unfold bind.
    destruct (request_ret r p w) as (p1 & w1 & -> & Hp1).
    cbn [length] in Hroom.
    assert (Hhas : Channel.has_room (UI.channel p) = true).
    { unfold Channel.has_room. apply bool_decide_eq_true_2. lia. }
    assert (Hsend : ∀ s q, UI.channel q = UI.channel p →
              UI.channel (UI.sendPlayingStatus s q) =
                Chan (cap (UI.channel p)) (buf (UI.channel p) ++ [s])).
    { intros s q Hq. unfold UI.sendPlayingStatus, Channel.try_send. cbn.
      rewrite Hq, Hhas. reflexivity. }
    assert (Hstep :
      (length (buf (UI.channel p1)) + length rs <= cap (UI.channel p1))%nat ∧
      UI.spaced last0 (buf (UI.channel p1)) = true ∧
      (UI.playing p1 = false → default last0 (last (buf (UI.channel p1))) = false) ∧
      (r ≠ UI.RStatusOff →
       UI.playing p = default last0 (last (buf (UI.channel p))) →
       UI.playing p1 = default last0 (last (buf (UI.channel p1))))).
    { subst p1. destruct r.
      - unfold UI.Show. destruct (UI.playing p) eqn:Hpl.
        + cbv iota. rewrite ?Hpl.
          split; [lia|]. split; [exact Hsp|]. split; [exact Hlast | auto].
        + cbn [UI.channel UI.with_flex_items UI.playing].
          rewrite (Hsend true (UI.with_playing true p) eq_refl).
          cbn [buf cap]. rewrite length_app, spaced_snoc, last_snoc, Hsp.
          rewrite (Hlast eq_refl). cbn. split; [lia|]. split; [reflexivity|].
          split; [discriminate | reflexivity].
      - destruct (UI.playing p) eqn:Hpl.
        + cbn [UI.channel UI.with_flex_items UI.playing].
          rewrite (Hsend false (UI.with_playing false p) eq_refl).
          cbn [buf cap]. rewrite length_app, spaced_snoc, last_snoc, Hsp.
          rewrite andb_false_r. cbn. split; [lia|]. split; [reflexivity|].
          split; [reflexivity | reflexivity].
        + rewrite ?Hpl.
          split; [lia|]. split; [exact Hsp|]. split; [exact Hlast | auto].
      - rewrite (Hsend false p eq_refl).
        cbn [buf cap UI.playing UI.sendPlayingStatus UI.with_channel].
        rewrite length_app, spaced_snoc, last_snoc, Hsp.
        rewrite andb_false_r. cbn. split; [lia|]. split; [reflexivity|].
        split; [reflexivity | congruence]. }
    destruct Hstep as (Hroom1 & Hsp1 & Hlast1 & Hplay1).
    destruct (IH p1 w1 last0 Hroom1 Hsp1 Hlast1) as (p' & w' & Hrun & Hsp' & Hlast' & Hplay').
    exists p', w'. split; [exact Hrun|]. split; [exact Hsp'|]. split; [exact Hlast'|].
    intros Hno Hplay. apply Hplay'.
    + intros r0 Hr0. apply Hno. right. exact Hr0.
    + apply Hplay1; [apply Hno; left | exact Hplay].
Qed.

(** X28. From rest (the player not playing, no status waiting, no update loop
    running), after any requests that the channel has room for, once the
    checker has received the statuses: at most one update loop runs, none
    runs if the player is not playing, and if the requests were calls of
    [Show] and [Hide] only, one runs exactly if the player is playing. *)
Theorem one_update_loop (rs : list UI.Request) (p : UI.Player) (ctxs : list bool)
    (w : World) :
  UI.playing p = false →
  buf (UI.channel p) = [] →
  UI.loops ctxs = 0%nat →
  (length rs <= cap (UI.channel p))%nat →
  ∃ p' w', UI.requests rs p w = Ret p' w' ∧
    (UI.loops (UI.playingStatusCheck p' ctxs).2 <= 1)%nat ∧
    (UI.playing p' = false → UI.loops (UI.playingStatusCheck p' ctxs).2 = 0%nat) ∧
    ((∀ r, r ∈ rs → r ≠ UI.RStatusOff) →
     UI.loops (UI.playingStatusCheck p' ctxs).2 = if UI.playing p' then 1%nat else 0%nat) ∧
    buf (UI.channel (UI.playingStatusCheck p' ctxs).1) = [].
Proof.
  intros Hpl Hbuf Hctx Hroom.
  destruct (requests_spaced rs p w false) as (p' & w' & Hrun & Hsp & Hlast & Hplay).
  - rewrite Hbuf. simpl. exact Hroom.
  - rewrite Hbuf. reflexivity.
  - rewrite Hbuf. reflexivity.
  - exists p', w'. split; [exact Hrun|].
    cbn [UI.playingStatusCheck fst snd].
    rewrite (playingStatusCheck_turns (buf (UI.channel p')) false ctxs Hsp Hctx).
    split; [destruct (default false _); lia|].
    split; [intros Hp'; rewrite (Hlast Hp'); reflexivity|].
    split; [|reflexivity].
    intros Hno. rewrite <- (Hplay Hno); [reflexivity|].
    rewrite Hbuf, Hpl. reflexivity.
Qed.

(** X29. When the player reports that a file is loaded and [FileLoadedEvent]
    has room, the listener signals it without a word to the player, and
    the turn of [monitorMPVEvents] that receives the signal shows the bar:
    the player is playing afterwards, and the signal is consumed. *)
Theorem file_loaded_shows_player (event : Event) (p : UI.Player) (w : World) :
  Name event = "file-loaded" →
  playlist_of event = None →
  buf (FileLoadedEvent (Events w)) = [] →
  (0 < cap (FileLoadedEvent (Events w)))%nat →
  ∃ w', (handleEvent event ;; UI.monitorMPVEvents_loaded p)%go w = Ret (UI.Show p) w' ∧
    UI.playing (UI.Show p) = true ∧
    Events w' = Events w ∧ trace w' = trace w ∧ monitor w' = monitor w ∧
    Connection w' = Connection w.
Proof.
  intros Hname Hpl Hbuf Hcap.
  unfold handleEvent. rewrite Hpl, Hname.
  rewrite !bool_decide_eq_false_2 by discriminate.
  rewrite bool_decide_eq_true_2 by reflexivity.
  unfold bind, send, UI.monitorMPVEvents_loaded, bind, recv, ret.
  unfold Channel.has_room. rewrite Hbuf.
  rewrite bool_decide_eq_true_2 by exact Hcap.
  cbn. unfold Channel.pop, Channel.push. cbn. rewrite Hbuf. cbn.
  eexists. split; [reflexivity|]. cbn.
  split; [unfold UI.Show; destruct (UI.playing p) eqn:Hp; [exact Hp | reflexivity]|].
  split; [|auto].
  destruct (Events w) as [fn en ee [c b] de]. cbn in *. subst b. reflexivity.
Qed.

End BarFacts.

Lemma requests_keep_layout_witness :
  ∃ p' w',
    UI.requests [UI.RShow; UI.RShow; UI.RHide; UI.RStatusOff; UI.RShow]
      UI.setup (Sim.fresh 1) = Ret p' w' ∧
    UI.laid_out p'.
Proof.
  apply (requests_keep_layout
           [UI.RShow; UI.RShow; UI.RHide; UI.RStatusOff; UI.RShow]
           UI.setup (Sim.fresh 1)).
  reflexivity.
Defined.

Lemma one_update_loop_witness :
  let rs := [UI.RShow; UI.RHide; UI.RShow; UI.RStatusOff; UI.RHide; UI.RShow] in
  ∃ p' w', UI.requests rs UI.setup (Sim.fresh 1) = Ret p' w' ∧
    (UI.loops (UI.playingStatusCheck p' [true]).2 <= 1)%nat ∧
    (UI.playing p' = false → UI.loops (UI.playingStatusCheck p' [true]).2 = 0%nat) ∧
    ((∀ r, r ∈ rs → r ≠ UI.RStatusOff) →
     UI.loops (UI.playingStatusCheck p' [true]).2 =
       if UI.playing p' then 1%nat else 0%nat) ∧
    buf (UI.channel (UI.playingStatusCheck p' [true]).1) = [].
Proof.
  intros rs. apply (one_update_loop rs UI.setup [true] (Sim.fresh 1)).
  - reflexivity.
  - reflexivity.
  - reflexivity.
  - simpl. lia.
Defined.

(** The statuses of that course, and the contexts the checker makes of
    them: the last is live, the others are cancelled. *)
Example one_update_loop_course :
  (λ o, match o with
        | Ret p' _ => Some (buf (UI.channel p'), (UI.playingStatusCheck p' [true]).2)
        | _ => None
        end)
    (UI.requests [UI.RShow; UI.RHide; UI.RShow; UI.RStatusOff; UI.RHide; UI.RShow]
       UI.setup (Sim.fresh 1))
  = Some ([true; false; true; false; false; true], [false; true; true; true]).
Proof. vm_compute. reflexivity. Qed.

Lemma file_loaded_shows_player_witness :
  let event := {| ID := 0; Name := "file-loaded"; Data := VNil; ExtraData := ∅ |} in
  let w := Sim.fresh 1 in
  ∃ w', (handleEvent event ;; UI.monitorMPVEvents_loaded UI.setup)%go w =
          Ret (UI.Show UI.setup) w' ∧
    UI.playing (UI.Show UI.setup) = true ∧
    Events w' = Events w ∧ trace w' = trace w ∧ monitor w' = monitor w ∧
    Connection w' = Connection w.
Proof.
  intros event w. apply (file_loaded_shows_player event UI.setup w).
  - reflexivity.
  - reflexivity.
  - reflexivity.
  - simpl. lia.
Defined.

(** ** The tables of the application *)

Section TableFacts.

Context {SearchData : Type} `{!EqDecision SearchData}.

Lemma modify_rows_no_match (title : string) (add : bool) (d : SearchData)
    (more : list SearchData) (rows : App.Table SearchData) :
  ∀ passed,
    Forall (λ row, App.holds d row = false ∧ App.foreign row = false) rows →
    App.modify_rows title add (d :: more) passed rows = Some (passed ++ rows).
Proof.
  induction rows as [|row rows IH]; intros passed Hrows.
  - simpl. rewrite app_nil_r. reflexivity.
  - apply Forall_cons in Hrows as [[Hh Hf] Hrows].
    rewrite (cons_middle row passed rows), app_assoc.
    destruct row as [[t r]|]; cbn [App.modify_rows App.reference].
    + destruct r as [|ref|]; cbn in Hh, Hf.
      * apply IH, Hrows.
      * rewrite Hh. apply IH, Hrows.
      * discriminate Hf.
    + apply IH, Hrows.
Qed.

(** X30. [ModifyReference] on a focused table changes one row at most: the
    first that holds the entry [info[0]].  That row is removed, or with
    [add] it gets the title and the entry [info[1]]; the rows before and
    after it stay, in their order, later rows that hold the same entry
    included.  Nil is returned, also when no row holds the entry and the
    table stays as it is. *)
Theorem ModifyReference_first_match (title : string) (add : bool)
    (d d' : SearchData) (more : list SearchData) (t : string)
    (before after : App.Table SearchData) :
  Forall (λ row, App.holds d row = false ∧ App.foreign row = false) before →
  App.ModifyReference title add (d :: d' :: more)
    (Some (before ++ Some {| App.text := t; App.reference := App.RData d |} :: after))
  = Some (None,
          Some (if add
                then before
                       ++ Some {| App.text := title; App.reference := App.RData d' |}
                       :: after
                else before ++ after)) ∧
  App.ModifyReference title add (d :: d' :: more) (Some before)
  = Some (None, Some before).
Proof.
  intros Hbefore. split;
    [|unfold App.ModifyReference;
      rewrite (modify_rows_no_match title add d (d' :: more) before [] Hbefore);
      reflexivity].
  unfold App.ModifyReference.
  assert (Hrun : ∀ passed,
    App.modify_rows title add (d :: d' :: more) passed
      (before ++ Some {| App.text := t; App.reference := App.RData d |} :: after)
    = Some (if add
            then (passed ++ before)
                   ++ Some {| App.text := title; App.reference := App.RData d' |}
                   :: after
            else (passed ++ before) ++ after)).
  { induction before as [|row before IH]; intros passed.
    - rewrite app_nil_r. cbn [app App.modify_rows App.reference].
      rewrite bool_decide_eq_true_2 by reflexivity. destruct add; reflexivity.
    - apply Forall_cons in Hbefore as [[Hh Hf] Hbefore].
      rewrite (cons_middle row passed before), app_assoc.
      destruct row as [[t0 r]|]; cbn [app App.modify_rows App.reference].
      + destruct r as [|ref|]; cbn in Hh, Hf.
        * apply IH, Hbefore.
        * rewrite Hh. apply IH, Hbefore.
        * discriminate Hf.
      + apply IH, Hbefore. }
  rewrite (Hrun []). reflexivity.
Qed.

End TableFacts.

Lemma ModifyReference_first_match_witness :
  let row (t : string) (d : Z) : option (App.Cell Z) :=
    Some {| App.text := t; App.reference := App.RData d |} in
  App.ModifyReference "Song C" false [2; 9]
    (Some [row "Song A" 1; None; row "Song B" 2; row "Song B again" 2])
  = Some (None, Some [row "Song A" 1; None; row "Song B again" 2]) ∧
  App.ModifyReference "Song C" false [2; 9] (Some [row "Song A" 1; None])
  = Some (None, Some [row "Song A" 1; None]).
Proof.
  intros row.
  apply (ModifyReference_first_match "Song C" false 2 9 [] "Song B"
           [row "Song A" 1; None] [row "Song B again" 2]).
  repeat constructor.
Defined.

(** With [add] the row gets the title and the second entry. *)
Example ModifyReference_replaces :
  App.ModifyReference "Song C" true [2; 9]
    (Some [Some {| App.text := "Song A"; App.reference := App.RData 1 |};
           Some {| App.text := "Song B"; App.reference := App.RData 2 |}])
  = Some (None,
          Some [Some {| App.text := "Song A"; App.reference := App.RData 1 |};
                Some {| App.text := "Song C"; App.reference := App.RData 9 |}]).
Proof. reflexivity. Qed.
